(** * faim_robocopy.robocopy: a shallow embedding and its properties

    The development follows [src/faim_robocopy/robocopy.py]:

    - [Text] and [Regex]: Python [bytes] and [str], strict UTF-8 decoding,
      [str.strip], and the fragment of [re] that the error pattern uses, as
      a backtracking matcher with [re.findall];
    - the functions of the module under their own names:
      [parse_errors_from_robocopy_stdout], [RobocopyError.from_error],
      [RobocopyError.__str__], [robocopy_call], [_sanitize_destinations],
      [_report], [_robocopy_callback];
    - [RobocopyTask] and [Machine]: the methods of the class as functions on
      the state of the task, and [run] as a machine whose steps interleave
      the thread that called [run] with the worker threads of the pool and
      with calls of [terminate()] from elsewhere.

    What lies outside the module enters as follows. The external program
    is a function from the command line to an exit status and an output, or
    to a failure to start. The helpers of [faim_robocopy.utils] and the
    clock answer at each step of the polling thread with a value or with
    an exception. Logging and the notifier are recorded as a trace of
    effects; the two calls of the notifier return normally. A time of the
    clock is a rational number of seconds (a [datetime] is a whole number
    of microseconds); durations are binary64 floats, as in Python, with the
    rounding of each operation. One task object makes one run.

    Definitions come first, the theorems about them follow. *)

From Stdlib Require Import ZArith NArith QArith Floats Strings.Byte Ascii DecimalString.
From stdpp Require Import gmap strings list.

Open Scope N_scope.

(** ** Text *)

Module Text.

(** A Python [str] is a sequence of Unicode code points. *)
Definition str := list N.

(** A Python [bytes] object. *)
Definition bytes := list byte.

(** A [str] literal written in this file (ASCII only). *)
Definition u (s : string) : str :=
  List.map (fun b => Byte.to_N b) (String.list_byte_of_string s).

Definition nl : N := 10.    (* '\n' *)
Definition cr : N := 13.    (* '\r' *)

(** [bytes.decode('UTF-8')] with the default [errors='strict']: [None] stands
    for a [UnicodeDecodeError]. Overlong forms, encoded surrogates and code
    points above U+10FFFF are refused, as CPython does. *)
Definition cont (b : N) : bool := (0x80 <=? b) && (b <=? 0xBF).

Fixpoint utf8 (bs : list N) : option str :=
  match bs with
  | [] => Some []
  | b0 :: t0 =>
    if b0 <? 0x80 then cons b0 <$> utf8 t0
    else if (0xC2 <=? b0) && (b0 <=? 0xDF) then
      match t0 with
      | b1 :: t1 =>
        if cont b1
        then cons ((b0 - 0xC0) * 64 + (b1 - 0x80)) <$> utf8 t1
        else None
      | _ => None
      end
    else if (0xE0 <=? b0) && (b0 <=? 0xEF) then
      match t0 with
      | b1 :: b2 :: t2 =>
        let c := (b0 - 0xE0) * 4096 + (b1 - 0x80) * 64 + (b2 - 0x80) in
        if cont b1 && cont b2 && (0x800 <=? c)
           && negb ((0xD800 <=? c) && (c <=? 0xDFFF))
        then cons c <$> utf8 t2
        else None
      | _ => None
      end
    else if (0xF0 <=? b0) && (b0 <=? 0xF4) then
      match t0 with
      | b1 :: b2 :: b3 :: t3 =>
        let c := (b0 - 0xF0) * 262144 + (b1 - 0x80) * 4096
                 + (b2 - 0x80) * 64 + (b3 - 0x80) in
        if cont b1 && cont b2 && cont b3
           && (0x10000 <=? c) && (c <=? 0x10FFFF)
        then cons c <$> utf8 t3
        else None
      | _ => None
      end
    else None
  end.

Definition decode_utf8 (b : bytes) : option str :=
  utf8 (List.map Byte.to_N b).

(** [s.strip(chars)] for a one-character [chars]: drop the leading and the
    trailing occurrences of [c]. *)
Fixpoint lstrip (c : N) (s : str) : str :=
  match s with
  | x :: r => if x =? c then lstrip c r else s
  | [] => []
  end.

Definition rstrip (c : N) (s : str) : str :=
  reverse (lstrip c (reverse s)).

Definition strip (c : N) (s : str) : str := rstrip c (lstrip c s).

(** The characters that [\s] matches in a [str] pattern, and for which
    [str.isspace()] holds (CPython's [Py_UNICODE_ISSPACE]). *)
Definition whitespace : list N :=
  [0x09; 0x0A; 0x0B; 0x0C; 0x0D; 0x1C; 0x1D; 0x1E; 0x1F; 0x20; 0x85; 0xA0;
   0x1680; 0x2000; 0x2001; 0x2002; 0x2003; 0x2004; 0x2005; 0x2006; 0x2007;
   0x2008; 0x2009; 0x200A; 0x2028; 0x2029; 0x202F; 0x205F; 0x3000].

Definition is_space (c : N) : bool := existsb (N.eqb c) whitespace.

(** The characters that [\d] matches in a [str] pattern: the Unicode decimal
    digits (category Nd). Every block of decimal digits is ten consecutive
    code points; the table lists the code point of each zero (Unicode 14.0,
    the character database of CPython 3.11). *)
Definition decimal_zeros : list N :=
  [0x30; 0x660; 0x6F0; 0x7C0; 0x966; 0x9E6; 0xA66; 0xAE6; 0xB66; 0xBE6;
   0xC66; 0xCE6; 0xD66; 0xDE6; 0xE50; 0xED0; 0xF20; 0x1040; 0x1090; 0x17E0;
   0x1810; 0x1946; 0x19D0; 0x1A80; 0x1A90; 0x1B50; 0x1BB0; 0x1C40; 0x1C50;
   0xA620; 0xA8D0; 0xA900; 0xA9D0; 0xA9F0; 0xAA50; 0xABF0; 0xFF10; 0x104A0;
   0x10D30; 0x11066; 0x110F0; 0x11136; 0x111D0; 0x112F0; 0x11450; 0x114D0;
   0x11650; 0x116C0; 0x11730; 0x118E0; 0x11950; 0x11C50; 0x11D50; 0x11DA0;
   0x16A60; 0x16AC0; 0x16B50; 0x1D7CE; 0x1D7D8; 0x1D7E2; 0x1D7EC; 0x1D7F6;
   0x1E140; 0x1E2F0; 0x1E950; 0x1FBF0].

Definition is_digit (c : N) : bool :=
  existsb (fun z => (z <=? c) && (c <? z + 10)) decimal_zeros.

(** [[0-9a-fA-F]] *)
Definition is_hex (c : N) : bool :=
  ((0x30 <=? c) && (c <=? 0x39)) || ((0x61 <=? c) && (c <=? 0x66))
  || ((0x41 <=? c) && (c <=? 0x46)).

(** [.] without [re.DOTALL]: anything but a newline. *)
Definition is_dot (c : N) : bool := negb (c =? nl).

End Text.

Import Text.

(** ** Regular expressions: the fragment of [re] that the error pattern uses *)

Module Regex.

(** A compiled pattern is a sequence of items. Quantifiers apply to a single
    character class, as everywhere in the pattern of this program; both are
    greedy. A group is bracketed by [Open g] and [Close g]. [Bol] and [Eol]
    are [^] and [$] under [re.MULTILINE]. *)
Inductive op :=
| Lit (c : N)
| Repeat (min : nat) (p : N -> bool)
| Open (g : nat)
| Close (g : nat)
| Bol
| Eol.

Definition lit (s : string) : list op := List.map Lit (u s).
Definition plus (p : N -> bool) : list op := [Repeat 1 p].
Definition star (p : N -> bool) : list op := [Repeat 0 p].
Definition group (g : nat) (body : list op) : list op :=
  [Open g] ++ body ++ [Close g].

(** The state of one match attempt: the character before the current
    position, the text still to read, the groups that are open with what they
    have read so far (most recent character first), and the groups that are
    closed. *)
Record mstate := MState {
  prev : option N;
  rest : str;
  opened : list (nat * str);
  caps : list (nat * str)
}.

Definition start (before : option N) (s : str) : mstate :=
  MState before s [] [].

(** Read the character [c], leaving [r]. *)
Definition eat (c : N) (r : str) (st : mstate) : mstate :=
  MState (Some c) r
         (List.map (fun gb => (gb.1, c :: gb.2)) (opened st)) (caps st).

Definition open_group (g : nat) (st : mstate) : mstate :=
  MState (prev st) (rest st) ((g, []) :: opened st) (caps st).

Definition close_group (g : nat) (st : mstate) : mstate :=
  match List.find (fun gb => Nat.eqb gb.1 g) (opened st) with
  | Some gb =>
    MState (prev st) (rest st)
           (List.filter (fun gb => negb (Nat.eqb gb.1 g)) (opened st))
           ((g, rev gb.2) :: caps st)
  | None => st
  end.

Definition at_bol (st : mstate) : bool :=
  match prev st with None => true | Some c => c =? nl end.

Definition at_eol (st : mstate) : bool :=
  match rest st with [] => true | c :: _ => c =? nl end.

(** Greedy repetition of the class [p], at least [min] times, then the
    continuation [k]: read as many characters as possible, and give them back
    one at a time while [k] fails. [n] counts the characters read so far and
    [s] is [rest st]. *)
Fixpoint greedy (p : N -> bool) (min : nat) (k : mstate -> option mstate)
    (s : str) (st : mstate) (n : nat) : option mstate :=
  let stop := if (min <=? n)%nat then k st else None in
  match s with
  | c :: r =>
    if p c then
      match greedy p min k r (eat c r st) (S n) with
      | Some res => Some res
      | None => stop
      end
    else stop
  | [] => stop
  end.

(** One match attempt at the current position ([pattern.match]): the first
    success in backtracking order, if any. *)
Fixpoint exec (ops : list op) (st : mstate) : option mstate :=
  match ops with
  | [] => Some st
  | Lit c :: ops' =>
    match rest st with
    | x :: r => if x =? c then exec ops' (eat x r st) else None
    | [] => None
    end
  | Repeat min p :: ops' => greedy p min (exec ops') (rest st) st 0
  | Open g :: ops' => exec ops' (open_group g st)
  | Close g :: ops' => exec ops' (close_group g st)
  | Bol :: ops' => if at_bol st then exec ops' st else None
  | Eol :: ops' => if at_eol st then exec ops' st else None
  end.

(** The text of group [g] after a match ([''] if it took no part). *)
Definition group_text (g : nat) (st : mstate) : str :=
  match List.find (fun gt => Nat.eqb gt.1 g) (caps st) with
  | Some gt => gt.2
  | None => []
  end.

(** The non-overlapping matches, left to right. [skip] characters are still
    inside the previous match and are passed over; after an empty match the
    search moves on by one character. *)
Fixpoint scan (ops : list op) (skip : nat) (before : option N) (s : str)
    : list mstate :=
  match skip with
  | S k =>
    match s with
    | c :: r => scan ops k (Some c) r
    | [] => []
    end
  | O =>
    match exec ops (start before s) with
    | Some st =>
      st :: match s with
            | c :: r =>
              scan ops (Nat.pred (length s - length (rest st))) (Some c) r
            | [] => []
            end
    | None =>
      match s with
      | c :: r => scan ops 0 (Some c) r
      | [] => []
      end
    end
  end.

(** [re.findall] for a pattern with three groups: one triple per match. *)
Definition findall (ops : list op) (s : str) : list (str * str * str) :=
  List.map (fun st => (group_text 1 st, group_text 2 st, group_text 3 st))
           (scan ops 0 None s).

End Regex.

Import Regex.

(** ** Exceptions, results and effects *)

(** One row of [RobocopyErrorInfo = namedtuple(..., ['code', 'action',
    'reason'])]; the fields are the strings that the groups matched. *)
Record RobocopyErrorInfo := mkInfo {
  code : str;
  action : str;
  reason : str
}.

(** The exceptions that occur in this module. [OverflowError] and
    [ValueError] are what [int] raises for a float that is infinite or not
    a number. [OtherError] stands for what a collaborator outside it
    raises. *)
Inductive exn :=
| RuntimeError (msg : string)
| CalledProcessError (returncode : Z) (output : bytes)
| UnicodeDecodeError
| OSError (msg : string)
| OverflowError
| ValueError
| RobocopyError (returncode : Z) (error_info : option (list RobocopyErrorInfo))
| OtherError (name : string).

(** A call returns a value or raises. *)
Inductive result (A : Type) :=
| Return (a : A)
| Raise (e : exn).
Arguments Return {A} a.
Arguments Raise {A} e.

(** What the code does to the outside: a record handed to [logging], with the
    format string of the source and its arguments, and the two calls of the
    notifier. *)
Inductive level := DEBUG | INFO | WARNING | ERROR.

Inductive arg :=
| AStr (s : string)
| AText (t : str)
| AInt (n : Z)
| ANum (x : float)
| AExn (e : exn).

Inductive effect :=
| Log (l : level) (fmt : string) (args : list arg)
| Failed (e : exn)          (* notifier.failed(e) *)
| Finished.                 (* notifier.finished() *)

(** ** Floats and times *)

(** [int(x)] for a float: the integer towards zero, [OverflowError] for an
    infinity and [ValueError] for a NaN. *)
Definition int (x : float) : result Z :=
  match Prim2SF x with
  | S754_zero _ => Return 0%Z
  | S754_infinity _ => Raise OverflowError
  | S754_nan => Raise ValueError
  | S754_finite s m e =>
    let n := Z.shiftl (Z.pos m) e in
    Return (if s then (- n)%Z else n)
  end.

(** [timedelta.total_seconds()]: the difference of two times, which is
    exact, divided by one second and rounded to the nearest float, as the
    true division of two integers is. *)
Definition Z2SF (n : Z) : spec_float :=
  match n with
  | Z0 => S754_zero false
  | Z.pos p => S754_finite false p 0
  | Z.neg p => S754_finite true p 0
  end.

Definition total_seconds (delta : Q) : float :=
  SF2Prim (SFdiv prec emax (Z2SF (Qnum delta))
                 (S754_finite false (Qden delta) 0)).

(** ** [parse_errors_from_robocopy_stdout] *)

(** The pattern of the source, compiled with [re.MULTILINE], item by item:
    ERROR  \s+  (\d+)  \s+  \(0x  [0-9a-fA-F]+  \)  \s+  ( .* )  \n  ^  ( .* )  $ *)
Definition pattern : list op :=
  lit "ERROR" ++ plus is_space ++ group 1 (plus is_digit) ++ plus is_space
  ++ lit "(0x" ++ plus is_hex ++ lit ")" ++ plus is_space
  ++ group 2 (star is_dot) ++ [Lit nl] ++ [Bol] ++ group 3 (star is_dot)
  ++ [Eol].

(** The format string of the second debug record, ['Raw robocopy
    stdout:', a line feed, ' %s']. *)
Definition raw_stdout_format : string :=
  "Raw robocopy stdout:" +:+ String "010" " %s".

Definition parse_errors_from_robocopy_stdout (output : bytes)
    : list effect * result (option (list RobocopyErrorInfo)) :=
  match decode_utf8 output with
  | None => ([], Raise UnicodeDecodeError)
  | Some output =>
    let matches := findall pattern output in
    match matches with
    | [] =>
      ([Log DEBUG "Could not parse any errors from stdout of robocopy" [];
        Log DEBUG raw_stdout_format [AText output]],
       Return None)
    | _ =>
      ([], Return (Some (List.map
                     (fun m => mkInfo (strip cr m.1.1) (strip cr m.1.2)
                                      (strip cr m.2))
                     matches)))
    end
  end.

(** ** [RobocopyError] *)

Module RobocopyError.

(** [RobocopyError.from_error]: the exception object built from a
    [CalledProcessError]; parsing its output can itself raise. *)
Definition from_error (returncode : Z) (output : bytes)
    : list effect * result exn :=
  match parse_errors_from_robocopy_stdout output with
  | (logs, Return info) => (logs, Return (RobocopyError returncode info))
  | (logs, Raise e) => (logs, Raise e)
  end.

(** ['%s' % n] for an integer. *)
Definition decimal (n : Z) : str := u (NilZero.string_of_int (Z.to_int n)).

(** [RobocopyError.__str__] *)
Definition __str__ (returncode : Z)
    (error_info : option (list RobocopyErrorInfo)) : str :=
  let msg := u "Robocopy returned with exit code " ++ decimal returncode
             ++ u "." in
  match error_info with
  | None | Some [] => msg ++ u " No detailled information available."
  | Some infos =>
    fold_left
      (fun msg i =>
         msg ++ u "  [Code " ++ code i ++ u "] " ++ action i ++ u ": "
             ++ reason i ++ [nl])
      infos (msg ++ u " The following issues were encountered:" ++ [nl])
  end.

End RobocopyError.

(** ** [robocopy_call] *)

(** What running the external program gives: it exits with a status and its
    captured standard output, or it cannot be started at all. *)
Inductive proc_result :=
| Completed (returncode : Z) (output : bytes)
| NotStarted (msg : string).

(** [subprocess.check_output]: the output for status 0,
    [CalledProcessError] for any other status, and [OSError] when the program
    cannot be started. *)
Definition check_output (r : proc_result) : result bytes :=
  match r with
  | Completed 0 output => Return output
  | Completed returncode output => Raise (CalledProcessError returncode output)
  | NotStarted msg => Raise (OSError msg)
  end.

(** The argument [run] is the external program: from the command line and the
    [shell] flag to what happens. *)
Definition robocopy_call (run : list string -> bool -> proc_result)
    (source dest : string) (silent secure_mode : bool) (skip_files : string)
    : list effect * result unit :=
  let exclude_files := "*." +:+ skip_files in
  let cmd := ["robocopy"; source; dest; "/XF"; exclude_files; "/e";
              "/COPY:DT"] in
  let cmd := if secure_mode
             then cmd ++ ["/r:0"; "/w:30"; "/dcopy:T"; "/Z"]
             else cmd in
  let cmd := cmd ++ ["/V"; "/njh"; "/njs"] in
  let shell := negb silent in
  match check_output (run cmd shell) with
  | Return _ => ([], Return tt)
  | Raise (CalledProcessError exit_code output) =>
    let log1 := [Log DEBUG "Robocopy nonzero exit code: %s" [AInt exit_code]] in
    if (8 <=? exit_code)%Z then
      match RobocopyError.from_error exit_code output with
      | (logs, Return err) => (log1 ++ logs, Raise err)
      | (logs, Raise e) => (log1 ++ logs, Raise e)
      end
    else if (2 <=? exit_code)%Z && (exit_code <? 8)%Z then
      (log1 ++ [Log DEBUG
                  "Robocopy exited with code %d. This is not a failure."
                  [AInt exit_code]],
       Return tt)
    else (log1, Return tt)
  | Raise e => ([], Raise e)
  end.

(** ** [_sanitize_destinations] and [_report] *)

(** The [destinations] argument: a list (or tuple) of paths, or anything
    else, which is then taken as a single path. *)
Inductive dest_arg :=
| One (d : string)
| Many (ds : list string).

(** The part of [os.path] that is consulted. *)
Record filesystem := {
  isdir : string -> bool;
  exists_ : string -> bool
}.

Definition _sanitize_destinations (fs : filesystem) (destinations : dest_arg)
    : list effect * list string :=
  let destinations :=
    match destinations with
    | One d => [d]
    | Many ds => ds
    end in
  let warnings :=
    flat_map
      (fun dest =>
         if bool_decide (dest = "") then []
         else if negb (isdir fs dest)
              then [Log WARNING "Destination %s does not exist!" [AStr dest]]
              else [])
      destinations in
  (warnings,
   List.filter (fun dest => bool_decide (dest <> "") && exists_ fs dest)
               destinations).

(** The counting helpers of [faim_robocopy.utils], whose code is not part of
    this module: each call returns a number or raises. *)
Record counters := {
  count_files_in_subtree : string -> result Z;
  count_identical_files : string -> string -> string -> result Z
}.

Definition report_folder (c : counters) (source skip_files : string)
    (n_deleted : Z) (folder : string) : list effect :=
  if bool_decide (folder = "") then []
  else
    let failed_ err :=
      [Log ERROR "Could not count files in %s. Error: %s"
           [AStr folder; AExn err]] in
    match count_files_in_subtree c folder with
    | Raise err => failed_ err
    | Return filecount =>
      if bool_decide (folder <> source) then
        match count_identical_files c source folder skip_files with
        | Raise err => failed_ err
        | Return identical =>
          [Log INFO "%d files (total) in %s, %d identical to source"
               [AInt filecount; AStr folder; AInt identical]]
        end
      else
        Log INFO "%d files (total) in %s" [AInt filecount; AStr folder]
        :: (if (0 <? n_deleted)%Z
            then [Log INFO "%d files were deleted from %s"
                      [AInt n_deleted; AStr folder]]
            else [])
    end.

Definition _report (c : counters) (source : string)
    (destinations : list string) (skip_files : string) (n_deleted : Z)
    : list effect :=
  flat_map (report_folder c source skip_files n_deleted)
           (source :: destinations).

(** ** [RobocopyTask] *)

(** A Python [dict] from destinations to job handles: an association list in
    insertion order, in which an assignment to a key that is present replaces
    its value in place. *)
Definition dict := list (string * nat).

Fixpoint setitem (k : string) (v : nat) (d : dict) : dict :=
  match d with
  | [] => [(k, v)]
  | kv :: d' =>
    if bool_decide (kv.1 = k) then (k, v) :: d' else kv :: setitem k v d'
  end.

Definition getitem (k : string) (d : dict) : option nat :=
  snd <$> List.find (fun kv => bool_decide (kv.1 = k)) d.

Definition values (d : dict) : list nat := List.map snd d.

(** A [concurrent.futures.Future]: the destination its job copies to, its
    state, and whether [_robocopy_callback] has been attached to it. *)
Inductive fstate :=
| PENDING
| RUNNING
| CANCELLED
| FINISHED (r : result unit).

Record future := Future {
  target : string;
  fst_ : fstate;
  has_callback : bool
}.

Definition cancelled (s : fstate) : bool :=
  match s with CANCELLED => true | _ => false end.

Definition running (s : fstate) : bool :=
  match s with RUNNING => true | _ => false end.

Definition pending (s : fstate) : bool :=
  match s with PENDING => true | _ => false end.

Definition done (s : fstate) : bool :=
  match s with CANCELLED | FINISHED _ => true | _ => false end.

Definition exception (s : fstate) : option exn :=
  match s with FINISHED (Raise e) => Some e | _ => None end.

(** The closure [_robocopy_callback] of [_run], applied to a future in state
    [s]: what it logs and what it tells the notifier. *)
Definition _robocopy_callback (s : fstate) : list effect :=
  if cancelled s then [Log DEBUG "Robocopy job cancelled" []]
  else if done s then
    match exception s with
    | Some error =>
      [match error with
       | RobocopyError _ _ => Log ERROR "%s" [AExn error]
       | _ => Log ERROR "Robocopy failed with error %s" [AExn error]
       end;
       Failed error]
    | None => [Log DEBUG "Robocopy job terminated successfully" []]
    end
  else [].

(** The arguments of [run], with the keyword arguments that are passed on
    to [robocopy_call]. Durations are floats, in minutes. *)
Record args := {
  source : string;
  destinations : dest_arg;
  multithread : bool;
  time_interval : float;
  wait_exit : float;
  delete_source : bool;
  skip_files : string;
  silent : bool;
  secure_mode : bool
}.

(** Where the thread that called [run] stands. *)
Inductive pc :=
| Idle                                        (* [run] not called yet *)
| AtRun                                       (* inside [with self]: start of [_run] *)
| AtSubmit (todo : list string) (acc : dict)  (* the dict comprehension *)
| AtAddCallback (todo : list nat)             (* [for future in self.futures.values()] *)
| AtWhile                                     (* [while self.is_running()] *)
| AtAnyRunning                                (* [if any(future.running() ...)] *)
| AtExpired                                   (* [if self._wait_has_expired(...)] *)
| AtFor (todo : list string)                  (* [for dest in destinations] *)
| AtForCallback (j : nat) (todo : list string)   (* [add_done_callback] in the loop *)
| AtDelete                                    (* [if delete_source] *)
| AtSleep (n : nat)                           (* the sleeping loop, [n] rounds left *)
| AtPoolExit (e : option exn)                 (* leaving [with ThreadPoolExecutor] *)
| AtReport                                    (* [_report] *)
| AtNotify                                    (* [notifier.finished()] *)
| Exited (e : option exn).                    (* [run] returned, or raised [e] *)

(** The task object, the locals of [_run], the jobs handed to the thread
    pool in the order of submission, and everything logged or notified so
    far. *)
Record state := State {
  _running : bool;
  futures : dict;
  _update_rate_in_s : float;
  _time_at_last_change : Q;
  dests : list string;
  max_workers : nat;
  n_deleted : Z;
  pool : list future;
  at_ : pc;
  trace : list effect
}.

(** What the surroundings answer when the polling thread asks. *)
Inductive answer :=
| Nothing
| IsSubset (b : bool)           (* [is_filetree_a_subset_of] returned [b] *)
| Deleted (n : Z)               (* [delete_existing] returned [n] *)
| Counters (c : counters)       (* the counting helpers, for [_report] *)
| Raises (e : exn).             (* the helper that was called raised [e] *)

(** One atomic action: the polling thread takes its next step at time [now]
    (in seconds) with the answer [a]; a worker thread takes job [j] from the
    queue; a worker thread ends job [j], the external program having done
    [r]; somebody calls [terminate()]. *)
Inductive event :=
| Poll (now : Q) (a : answer)
| WorkerStart (j : nat)
| WorkerFinish (j : nat) (r : proc_result)
| Terminate.

Module RobocopyTask.

(** [RobocopyTask.__init__] *)
Definition __init__ (now : Q) : state :=
  State false [] 5%float now [] 0%nat 0%Z [] Idle [].

Definition is_running (st : state) : bool := _running st.

Definition goto (p : pc) (st : state) : state :=
  State (_running st) (futures st) (_update_rate_in_s st)
        (_time_at_last_change st) (dests st) (max_workers st) (n_deleted st)
        (pool st) p (trace st).

Definition emit (es : list effect) (st : state) : state :=
  State (_running st) (futures st) (_update_rate_in_s st)
        (_time_at_last_change st) (dests st) (max_workers st) (n_deleted st)
        (pool st) (at_ st) (trace st ++ es).

Definition set_running (b : bool) (st : state) : state :=
  State b (futures st) (_update_rate_in_s st)
        (_time_at_last_change st) (dests st) (max_workers st) (n_deleted st)
        (pool st) (at_ st) (trace st).

Definition set_futures (d : dict) (st : state) : state :=
  State (_running st) d (_update_rate_in_s st)
        (_time_at_last_change st) (dests st) (max_workers st) (n_deleted st)
        (pool st) (at_ st) (trace st).

Definition set_pool (p : list future) (st : state) : state :=
  State (_running st) (futures st) (_update_rate_in_s st)
        (_time_at_last_change st) (dests st) (max_workers st) (n_deleted st)
        p (at_ st) (trace st).

Definition set_locals (ds : list string) (w : nat) (n : Z) (st : state)
    : state :=
  State (_running st) (futures st) (_update_rate_in_s st)
        (_time_at_last_change st) ds w n (pool st) (at_ st) (trace st).

(** [RobocopyTask._update_changed] *)
Definition _update_changed (now : Q) (st : state) : state :=
  State (_running st) (futures st) (_update_rate_in_s st) now (dests st)
        (max_workers st) (n_deleted st) (pool st) (at_ st) (trace st).

(** [RobocopyTask._wait_has_expired] *)
Definition _wait_has_expired (now : Q) (time_to_exit_in_s : float)
    (st : state) : list effect * bool :=
  let time_since_update :=
    total_seconds (now - _time_at_last_change st)%Q in
  ([Log DEBUG "Time since last detected change: %1.1f s"
        [ANum time_since_update]],
   PrimFloat.leb time_to_exit_in_s time_since_update).

(** [RobocopyTask.__enter__] and [RobocopyTask.__exit__] *)
Definition __enter__ (st : state) : state :=
  set_running true (emit [Log INFO "Starting robocopy task" []] st).

Definition __exit__ (st : state) : state := set_running false st.

(** [Future.cancel] on job [j]: a job that has not started is cancelled and
    its callbacks run; a job that runs or is done stays as it is. *)
Definition cancel (j : nat) (st : state) : state :=
  match pool st !! j with
  | Some f =>
    if pending (fst_ f) then
      emit (if has_callback f then _robocopy_callback CANCELLED else [])
           (set_pool (<[j := Future (target f) CANCELLED (has_callback f)]>
                        (pool st)) st)
    else st
  | None => st
  end.

(** [RobocopyTask.terminate] *)
Definition terminate (st : state) : state :=
  let st := if is_running st
            then emit [Log WARNING "Stopping robocopy task" []] st
            else st in
  let st := fold_left (fun st j => cancel j st) (values (futures st)) st in
  set_running false st.

(** [thread_pool.submit(robocopy_call, source=source, dest=dest, ...)]: the
    job is queued and its handle, the index in [pool], returned. *)
Definition submit (dest : string) (st : state) : nat * state :=
  (length (pool st), set_pool (pool st ++ [Future dest PENDING false]) st).

(** [future.add_done_callback(_robocopy_callback)]: the callback runs at once
    when the future is done already. *)
Definition add_done_callback (j : nat) (st : state) : state :=
  match pool st !! j with
  | Some f =>
    let st := set_pool (<[j := Future (target f) (fst_ f) true]> (pool st))
                       st in
    if done (fst_ f) then emit (_robocopy_callback (fst_ f)) st else st
  | None => st
  end.

End RobocopyTask.

(** ** The machine: [RobocopyTask.run] among the worker threads *)

Module Machine.
Import RobocopyTask.

Definition set_deleted (n : Z) (st : state) : state :=
  set_locals (dests st) (max_workers st) n st.

(** The state of the job behind handle [j]. *)
Definition state_of (j : nat) (st : state) : fstate :=
  match pool st !! j with
  | Some f => fst_ f
  | None => PENDING
  end.

Definition all_done (st : state) : bool :=
  forallb (fun f => done (fst_ f)) (pool st).

(** The start of [_run], up to the creation of the thread pool. *)
Definition _run_start (fs : filesystem) (a : args) (now : Q) (st : state)
    : state :=
  let (warnings, destinations) := _sanitize_destinations fs (destinations a) in
  let st := emit warnings st in
  match destinations with
  | [] =>
    goto (Exited (Some (RuntimeError
                          "Need at least one destination to copy to.")))
         (__exit__ st)
  | _ =>
    let st :=
      emit (Log INFO "Source folder: %s" [AStr (source a)]
            :: imap (fun counter dest =>
                       Log INFO "Destination folder %d: %s"
                           [AInt (Z.of_nat counter + 1); AStr dest])
                    destinations) st in
    let max_workers :=
      if multithread a && (2 <=? length destinations)%nat
      then 2%nat else 1%nat in
    let st := set_locals destinations max_workers 0%Z st in
    goto (AtSubmit destinations []) (_update_changed now st)
  end.

(** One iteration of [for dest in destinations] in the polling loop. *)
Definition _run_for (now : Q) (ans : answer) (dest : string)
    (todo : list string) (st : state) : state :=
  match ans with
  | IsSubset true => goto (AtFor todo) st
  | IsSubset false =>
    let st := _update_changed now st in
    match getitem dest (futures st) with
    | Some j =>
      if done (state_of j st) then
        let (j', st) := submit dest st in
        goto (AtForCallback j' todo)
             (set_futures (setitem dest j' (futures st)) st)
      else goto (AtFor todo) st
    | None => goto (AtPoolExit (Some (OtherError "KeyError"))) st
    end
  | Raises e => goto (AtPoolExit (Some e)) st
  | _ => st
  end.

(** [if delete_source: ...], the log line, and the length of the sleeping
    loop, [range(int(time_interval * 60. / self._update_rate_in_s))]: the
    product and the quotient are those of floats, [int] raises for a
    quotient that is infinite or not a number, and [range] of a number
    below 1 is empty. *)
Definition _run_delete (a : args) (ans : answer) (st : state) : state :=
  let waiting st :=
    let st :=
      emit [Log INFO
              "Waiting for %1.1f min before checking for next Robocopy"
              [ANum (time_interval a)]] st in
    match int (time_interval a * 60 / _update_rate_in_s st)%float with
    | Return n => goto (AtSleep (Z.to_nat n)) st
    | Raise e => goto (AtPoolExit (Some e)) st
    end in
  if delete_source a then
    match ans with
    | Deleted n => waiting (set_deleted (n_deleted st + n)%Z st)
    | Raises e => goto (AtPoolExit (Some e)) st
    | _ => st
    end
  else waiting st.

(** The next step of the thread that called [run]. A step that waits (the
    thread pool being left while jobs are not done) or that is offered an
    answer of the wrong kind leaves the state as it is. *)
Definition poll (fs : filesystem) (a : args) (now : Q) (ans : answer)
    (st : state) : state :=
  match at_ st with
  | Idle => goto AtRun (__enter__ st)
  | AtRun => _run_start fs a now st
  | AtSubmit (dest :: todo) acc =>
    let (j, st) := submit dest st in
    goto (AtSubmit todo (setitem dest j acc)) st
  | AtSubmit [] acc => goto (AtAddCallback (values acc)) (set_futures acc st)
  | AtAddCallback (j :: todo) =>
    goto (AtAddCallback todo) (add_done_callback j st)
  | AtAddCallback [] => goto AtWhile st
  | AtWhile =>
    if is_running st then goto AtAnyRunning st else goto (AtPoolExit None) st
  | AtAnyRunning =>
    goto AtExpired
         (if existsb (fun j => running (state_of j st)) (values (futures st))
          then _update_changed now st else st)
  | AtExpired =>
    let (logs, expired) :=
      _wait_has_expired now (wait_exit a * 60)%float st in
    let st := emit logs st in
    if expired then
      goto (AtPoolExit None)
           (emit [Log INFO "Stopping robocopy after %1.1f min of waiting"
                      [ANum (wait_exit a)]] st)
    else goto (AtFor (dests st)) st
  | AtFor (dest :: todo) => _run_for now ans dest todo st
  | AtFor [] => goto AtDelete st
  | AtForCallback j todo => goto (AtFor todo) (add_done_callback j st)
  | AtDelete => _run_delete a ans st
  | AtSleep (S n) =>
    if negb (is_running st) then goto AtWhile st else goto (AtSleep n) st
  | AtSleep O => goto AtWhile st
  | AtPoolExit e =>
    if all_done st then
      match e with
      | None => goto AtReport st
      | Some err => goto (Exited (Some err)) (__exit__ st)
      end
    else st
  | AtReport =>
    match ans with
    | Counters c =>
      goto AtNotify
           (emit (Log INFO "Robocopy summary:" []
                  :: _report c (source a) (dests st) (skip_files a)
                             (n_deleted st)) st)
    | _ => st
    end
  | AtNotify => goto (Exited None) (__exit__ (emit [Finished] st))
  | Exited _ => st
  end.

(** A worker thread takes the next job from the queue: the oldest job that
    has not started, when fewer than [max_workers] jobs are running. *)
Definition can_start (j : nat) (st : state) : bool :=
  pending (state_of j st)
  && (length (List.filter (fun f => running (fst_ f)) (pool st))
      <? max_workers st)%nat
  && forallb (fun f => negb (pending (fst_ f))) (take j (pool st)).

Definition worker_start (j : nat) (st : state) : state :=
  match pool st !! j with
  | Some f =>
    if can_start j st
    then set_pool (<[j := Future (target f) RUNNING (has_callback f)]>
                     (pool st)) st
    else st
  | None => st
  end.

(** A worker thread ends job [j]: [robocopy_call] returns or raises, the
    future is resolved and its callbacks run. *)
Definition worker_finish (a : args) (j : nat) (r : proc_result) (st : state)
    : state :=
  match pool st !! j with
  | Some f =>
    if running (fst_ f) then
      let (logs, res) :=
        robocopy_call (fun _ _ => r) (source a) (target f) (silent a)
                      (secure_mode a) (skip_files a) in
      emit (logs ++ if has_callback f
                    then _robocopy_callback (FINISHED res) else [])
           (set_pool (<[j := Future (target f) (FINISHED res)
                                    (has_callback f)]> (pool st)) st)
    else st
  | None => st
  end.

Definition step (fs : filesystem) (a : args) (st : state) (ev : event)
    : state :=
  match ev with
  | Poll now ans => poll fs a now ans st
  | WorkerStart j => worker_start j st
  | WorkerFinish j r => worker_finish a j r st
  | Terminate => terminate st
  end.

(** The state after a sequence of actions, from a fresh task. *)
Definition execute (fs : filesystem) (a : args) (now : Q)
    (schedule : list event) : state :=
  fold_left (step fs a) schedule (__init__ now).

(** The thread that called [run] is inside [with self]. *)
Definition in_scope (p : pc) : bool :=
  match p with
  | Idle | Exited _ => false
  | _ => true
  end.


(** A job is in flight from its submission until it is done. *)
Definition in_flight (f : future) : bool := negb (done (fst_ f)).

End Machine.

Import RobocopyTask Machine.

(** ** What the properties speak of *)

(** The character before the position reached after reading [m], when
    [before] was the character before [m]. *)
Definition last_char (before : option N) (m : str) : option N :=
  match last m with
  | Some c => Some c
  | None => before
  end.

(** The meaning of a pattern, without any search order: [matches ops before m
    after] says that [m], found between the character [before] and the text
    [after], is matched by [ops]. *)
Inductive matches : list op -> option N -> str -> str -> Prop :=
| matches_nil before after :
    matches [] before [] after
| matches_lit c ops before m after :
    matches ops (Some c) m after ->
    matches (Lit c :: ops) before (c :: m) after
| matches_repeat min p ops before w m after :
    Forall (fun c => p c = true) w ->
    (min <= length w)%nat ->
    matches ops (last_char before w) m after ->
    matches (Repeat min p :: ops) before (w ++ m) after
| matches_open g ops before m after :
    matches ops before m after ->
    matches (Open g :: ops) before m after
| matches_close g ops before m after :
    matches ops before m after ->
    matches (Close g :: ops) before m after
| matches_bol ops before m after :
    before = None \/ before = Some nl ->
    matches ops before m after ->
    matches (Bol :: ops) before m after
| matches_eol ops before m after :
    m ++ after = [] \/ (exists t, m ++ after = nl :: t) ->
    matches ops before m after ->
    matches (Eol :: ops) before m after.

(** The text holds a block that the error pattern matches. *)
Definition contains_match (text : str) : Prop :=
  exists pre m post,
    text = pre ++ m ++ post /\ matches pattern (last_char None pre) m post.

(** An error block as robocopy prints it: the word ERROR, the number of the
    error, its hexadecimal form in brackets, what was being done, and on the
    next line why it failed. *)
Record block := Block {
  ws1 : str;
  number : str;
  ws2 : str;
  hex : str;
  ws3 : str;
  what : str;
  why : str
}.

Definition block_text (b : block) : str :=
  u "ERROR" ++ ws1 b ++ number b ++ ws2 b ++ u "(0x" ++ hex b ++ u ")"
  ++ ws3 b ++ what b ++ [nl] ++ why b.

Definition some (p : N -> bool) (w : str) : Prop :=
  w <> [] /\ Forall (fun c => p c = true) w.

(** The block is well formed: blanks between the parts, a number, a
    hexadecimal number, an action that starts with a visible character, and
    neither the action nor the reason runs over a line end. *)
Definition well_formed (b : block) : Prop :=
  some is_space (ws1 b) /\ some is_digit (number b) /\ some is_space (ws2 b)
  /\ some is_hex (hex b) /\ some is_space (ws3 b)
  /\ (exists c t, what b = c :: t /\ is_space c = false)
  /\ Forall (fun c => is_dot c = true) (what b)
  /\ Forall (fun c => is_dot c = true) (why b).

(** No block that the error pattern matches begins inside [gap], in the
    text [before ++ gap ++ after]. The block may run on into [after]. *)
Definition no_block_in (before gap after : str) : Prop :=
  forall a c r m post,
    gap = a ++ c :: r ->
    c :: r ++ after = m ++ post ->
    ~ matches pattern (last_char None (before ++ a)) m post.

(** The same, decided by trying the pattern at every position of [gap]. *)
Fixpoint no_block_inb (before : option N) (gap after : str) : bool :=
  match gap with
  | [] => true
  | c :: r =>
    match exec pattern (start before (c :: r ++ after)) with
    | Some _ => false
    | None => no_block_inb (Some c) r after
    end
  end.

(** The text holds exactly the blocks [b1] and [b2], in this order: each
    reason ends its line, and no further block begins before, between or
    after them. Other lines, also ones with the word ERROR, may stand
    there. *)
Definition two_blocks (text : str) (b1 b2 : block) : Prop :=
  well_formed b1 /\ well_formed b2
  /\ exists pre mid post,
       text = pre ++ block_text b1 ++ mid ++ block_text b2 ++ post
       /\ no_block_in [] pre (block_text b1 ++ mid ++ block_text b2 ++ post)
       /\ no_block_in (pre ++ block_text b1) mid (block_text b2 ++ post)
       /\ no_block_in (pre ++ block_text b1 ++ mid ++ block_text b2) post []
       /\ head mid = Some nl
       /\ (post = [] \/ head post = Some nl).

(** A text field is trimmed: no white space at either end. *)
Definition trimmed (s : str) : Prop :=
  (forall c, head s = Some c -> is_space c = false)
  /\ (forall c, last s = Some c -> is_space c = false).


Definition sanitized (fs : filesystem) (a : args) : list string :=
  (_sanitize_destinations fs (destinations a)).2.

(** The summary that [_run] logs after the loop. *)
Definition report_of (a : args) (c : counters) (st : state) : list effect :=
  Log INFO "Robocopy summary:" []
  :: _report c (source a) (dests st) (skip_files a) (n_deleted st).

(** A record as the parser returns it: a number, and an action and a reason
    that hold no line break and no carriage return at either end. *)
Definition record_ok (i : RobocopyErrorInfo) : Prop :=
  some is_digit (code i)
  /\ (nl ∉ action i) /\ (nl ∉ reason i)
  /\ head (action i) <> Some cr /\ last (action i) <> Some cr
  /\ head (reason i) <> Some cr /\ last (reason i) <> Some cr.

(** The parts of the message of a [RobocopyError]: its first sentence, and
    the line for one record. *)
Definition message_head (returncode : Z) : str :=
  u "Robocopy returned with exit code " ++ RobocopyError.decimal returncode
  ++ u ".".

Definition issue_line (i : RobocopyErrorInfo) : str :=
  u "  [Code " ++ code i ++ u "] " ++ action i ++ u ": " ++ reason i ++ [nl].

(** The number of line breaks in a text. *)
Definition lines (s : str) : nat := count_occ N.eq_dec s nl.

(** The number of jobs that a worker thread is running. *)
Definition n_running (p : list future) : nat :=
  length (List.filter (fun f => running (fst_ f)) p).

(** The number of worker threads that [_run] asks for. *)
Definition workers_for (fs : filesystem) (a : args) : nat :=
  if multithread a && (2 <=? length (sanitized fs a))%nat then 2%nat
  else 1%nat.

(** The exceptions that the notifier has been told of, in the order of the
    calls of [notifier.failed]; and the exceptions of the jobs that have the
    callback of [_run]. *)
Definition notified (es : list effect) : list exn :=
  omap (fun e => match e with Failed x => Some x | _ => None end) es.

Definition failure (f : future) : option exn :=
  if has_callback f then exception (fst_ f) else None.

Definition failures (p : list future) : list exn := omap failure p.

(** The thread that called [run] is between the submission of a job and
    the call of [add_done_callback] for it. *)
Definition attaching (p : pc) : bool :=
  match p with
  | AtSubmit _ _ | AtAddCallback _ | AtForCallback _ _ => true
  | _ => false
  end.


(** The dict comprehension of [_run] is complete. *)
Definition submitted (p : pc) : bool :=
  match p with
  | Idle | AtRun | AtSubmit _ _ => false
  | _ => true
  end.

(** ** Invariants and vocabulary of the proofs *)

(** Vocabulary of the proofs about the matcher: [p] does not hold for the
    first character of [r], if there is one; the open groups after [w] has
    been read. *)
Definition stops (p : N -> bool) (r : str) : Prop :=
  match r with
  | [] => True
  | c :: _ => p c = false
  end.

Definition pushed (w : str) (o : list (nat * str)) : list (nat * str) :=
  List.map (fun gb => (gb.1, rev w ++ gb.2)) o.

(** Vocabulary of the proofs about the machine: what [Future.cancel] makes
    of a future, and the loop of [terminate] over the handles. *)
Definition cancel_future (f : future) : future :=
  if pending (fst_ f) then Future (target f) CANCELLED (has_callback f) else f.

Definition cancel_all (js : list nat) (st : state) : state :=
  fold_left (fun st j => RobocopyTask.cancel j st) js st.

(** An effect is a log record. *)
Definition is_log (e : effect) : bool :=
  match e with Log _ _ _ => true | _ => false end.

(** [notifier.finished()] is not among the effects. *)
Definition quiet (es : list effect) : Prop := ~ In Finished es.

(** The trace holds the summary, and after it nothing from the notifier
    but [finished]. *)
Definition reported (a : args) (finished : list effect) (st : state) : Prop :=
  exists before c after,
    trace st = before ++ report_of a c st ++ after ++ finished
    /\ quiet (before ++ report_of a c st ++ after).

(** What holds of the trace and of the jobs at each place in [run]. *)
Definition trace_inv (a : args) (st : state) : Prop :=
  match at_ st with
  | Idle | AtRun => pool st = [] /\ quiet (trace st)
  | AtReport => all_done st = true /\ quiet (trace st)
  | AtNotify => all_done st = true /\ reported a [] st
  | Exited None =>
    all_done st = true /\ _running st = false /\ reported a [Finished] st
  | Exited (Some _) =>
    all_done st = true /\ _running st = false /\ quiet (trace st)
  | _ => quiet (trace st)
  end.




(** Every job in flight is the one that the table records for its
    destination. *)
Definition tracked (tbl : dict) (p : list future) : Prop :=
  forall j f, p !! j = Some f -> in_flight f = true ->
              getitem (target f) tbl = Some j.

(** What holds of the jobs at each place in [run]: while the dict
    comprehension runs, the table is the one being built, and the
    destinations still to come are pairwise different and not in it. *)
Definition jobs_inv (st : state) : Prop :=
  match at_ st with
  | Idle | AtRun => pool st = []
  | AtSubmit todo acc =>
    tracked acc (pool st) /\ NoDup todo
    /\ (forall d, d ∈ todo -> getitem d acc = None)
  | _ => tracked (futures st) (pool st)
  end.

(** Vocabulary of the proofs about the jobs: what one action can make of a
    job, by the thread that polls, by [terminate] or by a worker thread; and
    of the jobs handed to the thread pool, where one job is changed or a
    new one is queued. *)
Inductive actor := ByPoll | ByTerminate | ByWorker.

Inductive upd : actor -> future -> future -> Prop :=
| upd_callback d s cb : upd ByPoll (Future d s cb) (Future d s true)
| upd_cancel d cb :
    upd ByTerminate (Future d PENDING cb) (Future d CANCELLED cb)
| upd_start d cb : upd ByWorker (Future d PENDING cb) (Future d RUNNING cb)
| upd_finish d cb r :
    upd ByWorker (Future d RUNNING cb) (Future d (FINISHED r) cb).

Inductive pool_change (w : actor) (p : list future) : list future -> Prop :=
| pool_update j f f' :
    p !! j = Some f -> upd w f f' -> pool_change w p (<[j := f']> p).

Definition grows (p p' : list future) : Prop :=
  exists d, p' = p ++ [Future d PENDING false].

Definition any_change (p p' : list future) : Prop :=
  grows p p' \/ exists w, pool_change w p p'.

(** Every handle of the table denotes a job for its destination. *)
Definition handles_ok (tbl : dict) (p : list future) : Prop :=
  forall d j, getitem d tbl = Some j ->
              exists f, p !! j = Some f /\ target f = d.

(** What holds of the destinations at each place in [run]: the jobs copy to
    the destinations that [_run] kept, and [self.futures] is empty until
    the dict comprehension is complete. *)
Definition targets_inv (fs : filesystem) (a : args) (st : state) : Prop :=
  (forall j f, pool st !! j = Some f -> target f ∈ dests st)
  /\ handles_ok (futures st) (pool st)
  /\ match at_ st with
     | Idle | AtRun => dests st = [] /\ futures st = []
     | AtSubmit todo acc =>
       dests st = sanitized fs a /\ futures st = []
       /\ (forall d, d ∈ todo -> d ∈ dests st) /\ handles_ok acc (pool st)
     | AtFor todo | AtForCallback _ todo =>
       dests st = sanitized fs a /\ (forall d, d ∈ todo -> d ∈ dests st)
     | _ => dests st = sanitized fs a
     end.

(** The callback has not been attached to job [j] yet. *)
Definition unattached (p : list future) (j : nat) : Prop :=
  exists f, p !! j = Some f /\ has_callback f = false.

(** What holds of the notifier at each place in [run]: it has been told of
    the failures of the jobs with the callback, and the callback is attached
    to a job that does not have it. *)
Definition notify_inv (st : state) : Prop :=
  notified (trace st) ≡ₚ failures (pool st)
  /\ match at_ st with
     | AtSubmit _ acc =>
       NoDup (values acc) /\ forall j, j ∈ values acc -> unattached (pool st) j
     | AtAddCallback todo =>
       NoDup todo /\ forall j, j ∈ todo -> unattached (pool st) j
     | AtForCallback j _ => unattached (pool st) j
     | _ => True
     end.

(** What holds of the callbacks at each place in [run], for destinations
    that are pairwise different: every job has the callback, or is about to
    get it. *)
Definition callbacks_inv (st : state) : Prop :=
  forall j f,
    pool st !! j = Some f ->
    match at_ st with
    | AtSubmit _ acc => j ∈ values acc
    | AtAddCallback todo => has_callback f = true \/ j ∈ todo
    | AtForCallback k _ => has_callback f = true \/ j = k
    | _ => has_callback f = true
    end.

(** What holds of the first jobs at each place in [run]: they are queued for
    the destinations that were kept, in their order. *)
Definition first_jobs_inv (fs : filesystem) (a : args) (st : state) : Prop :=
  match at_ st with
  | Idle | AtRun => pool st = []
  | AtSubmit todo _ => List.map target (pool st) ++ todo = sanitized fs a
  | _ => exists later, List.map target (pool st) = sanitized fs a ++ later
  end.

(** ** Sample inputs *)

Definition ascii_bytes (s : string) : bytes := String.list_byte_of_string s.
Definition crlf : bytes := [x0d; x0a].

(** An output that names an error without an error block. *)
Definition no_block_output : bytes := ascii_bytes "ERROR: the disk is full".

(** An output with two error blocks, as robocopy prints them. The first
    reason has a blank before its line end. *)
Definition two_block_output : bytes :=
  ascii_bytes "ERROR 5 (0x00000005) Copying File a.txt" ++ crlf
  ++ ascii_bytes "Access is denied. " ++ crlf
  ++ ascii_bytes "ERROR 32 (0x00000020) Copying File b.txt" ++ crlf
  ++ ascii_bytes "The process cannot access the file." ++ crlf.

Definition first_block : block :=
  Block (u " ") (u "5") (u " ") (u "00000005") (u " ")
        (u "Copying File a.txt" ++ [cr]) (u "Access is denied. " ++ [cr]).

Definition second_block : block :=
  Block (u " ") (u "32") (u " ") (u "00000020") (u " ")
        (u "Copying File b.txt" ++ [cr])
        (u "The process cannot access the file." ++ [cr]).

Definition two_block_text : str :=
  block_text first_block ++ [nl] ++ block_text second_block ++ [nl].

(** The same two blocks as robocopy prints them with [/r:0]: a time before
    each block, and after each reason the line that no retry is made. *)
Definition retry_output : bytes :=
  ascii_bytes "2024/01/01 10:00:00 ERROR 5 (0x00000005) Copying File a.txt"
  ++ crlf
  ++ ascii_bytes "Access is denied. " ++ crlf
  ++ ascii_bytes "ERROR: RETRY LIMIT EXCEEDED." ++ crlf ++ crlf
  ++ ascii_bytes "2024/01/01 10:00:01 ERROR 32 (0x00000020) Copying File b.txt"
  ++ crlf
  ++ ascii_bytes "The process cannot access the file." ++ crlf
  ++ ascii_bytes "ERROR: RETRY LIMIT EXCEEDED." ++ crlf.

Definition retry_pre : str := u "2024/01/01 10:00:00 ".
Definition retry_mid : str :=
  [nl] ++ u "ERROR: RETRY LIMIT EXCEEDED." ++ [cr; nl; cr; nl]
  ++ u "2024/01/01 10:00:01 ".
Definition retry_post : str :=
  [nl] ++ u "ERROR: RETRY LIMIT EXCEEDED." ++ [cr; nl].

Definition retry_text : str :=
  retry_pre ++ block_text first_block ++ retry_mid
  ++ block_text second_block ++ retry_post.

(** A file system in which only the folder D exists, the arguments of a run
    from S with a polling interval of 5 seconds and an idle time of 6
    seconds, and helpers that count three files everywhere. *)
Definition sample_fs : filesystem :=
  {| isdir := fun d => bool_decide (d = "D");
     exists_ := fun d => bool_decide (d = "D") |}.

Definition sample_args (ds : dest_arg) (multithread : bool) : args :=
  {| source := "S"; destinations := ds; multithread := multithread;
     time_interval := 1 / 12; wait_exit := 1 / 10; delete_source := false;
     skip_files := "tmp"; silent := true; secure_mode := false |}.


Definition sample_counters : counters :=
  {| count_files_in_subtree := fun _ => Return 3%Z;
     count_identical_files := fun _ _ _ => Return 3%Z |}.

(** One destination, nothing new after the first copy: the job runs and
    ends with status 1, no drift is seen, the idle time runs out after one
    round of sleeping, and [run] returns. *)
Definition idle_run : list event :=
  [Poll 0 Nothing; Poll 0 Nothing; Poll 0 Nothing; Poll 0 Nothing;
   WorkerStart 0; WorkerFinish 0 (Completed 1 []);
   Poll 0 Nothing; Poll 0 Nothing; Poll 1 Nothing; Poll 1 Nothing;
   Poll 1 Nothing; Poll 1 (IsSubset true); Poll 1 Nothing; Poll 1 Nothing;
   Poll 6 Nothing; Poll 6 Nothing; Poll 7 Nothing; Poll 7 Nothing;
   Poll 7 Nothing; Poll 8 Nothing; Poll 8 (Counters sample_counters);
   Poll 9 Nothing].

(** [run] is entered, the destinations are found, and somebody calls
    [terminate()]. *)
Definition terminated_early : list event :=
  [Poll 0 Nothing; Poll 0 Nothing; Terminate].

(** The first steps of a run: entering [run], and the start of [_run]. *)
Definition startup : list event := [Poll 0 Nothing; Poll 0 Nothing].



(** The folders D and E exist; with one worker, the job for D runs and the
    job for E waits in the queue, both handles being in [self.futures]. *)
Definition two_folders : filesystem :=
  {| isdir := fun d => bool_decide (d = "D") || bool_decide (d = "E");
     exists_ := fun d => bool_decide (d = "D") || bool_decide (d = "E") |}.

Definition one_running_one_queued : list event :=
  [Poll 0 Nothing; Poll 0 Nothing; Poll 0 Nothing; Poll 0 Nothing;
   Poll 0 Nothing; WorkerStart 0; WorkerStart 1].

(** Further sample runs with the one destination D. The first three steps
    of [run]: the job for D has been queued, the dict comprehension has
    not been left. *)
Definition queueing : list event :=
  [Poll 0 Nothing; Poll 0 Nothing; Poll 0 Nothing].

(** The destination D given twice, with one worker: both jobs are queued,
    the dict comprehension has been left, and [self.futures] holds for D the
    second handle only. *)
Definition shadowing : list event :=
  [Poll 0 Nothing; Poll 0 Nothing; Poll 0 Nothing; Poll 0 Nothing;
   Poll 0 Nothing].

(** The job fails with status 16 before the callback is attached; the
    polling thread attaches it and reaches its loop. *)
Definition failed_copy : list event :=
  [Poll 0 Nothing; Poll 0 Nothing; Poll 0 Nothing; Poll 0 Nothing;
   WorkerStart 0; WorkerFinish 0 (Completed 16 []);
   Poll 0 Nothing; Poll 0 Nothing].

(** The job runs while the polling thread comes to ask whether a job is
    running. *)
Definition copying : list event :=
  [Poll 0 Nothing; Poll 0 Nothing; Poll 0 Nothing; Poll 0 Nothing;
   WorkerStart 0; Poll 0 Nothing; Poll 0 Nothing; Poll 0 Nothing].


(** The run of [idle_run] up to its sleeping loop, and up to the summary. *)
Definition sleeping : list event := take 14 idle_run.

Definition counting : list event := take 20 idle_run.

(** Helpers that cannot count anything. *)
Definition failing_counters : counters :=
  {| count_files_in_subtree := fun _ => Raise (OSError "unreadable");
     count_identical_files := fun _ _ _ => Raise (OSError "unreadable") |}.

(** The run of [idle_run] up to the end of its polling loop. *)
Definition leaving : list event := take 19 idle_run.

(** * Properties *)

(** ** The matcher against the meaning of patterns *)

Section Matcher.
Implicit Types (st res : mstate) (s w m : str) (p : N -> bool).

Lemma last_char_cons before c w :
  last_char before (c :: w) = last_char (Some c) w.
Proof. unfold last_char. rewrite last_cons. by destruct (last w). Qed.

Lemma last_char_app before w1 w2 :
  last_char before (w1 ++ w2) = last_char (last_char before w1) w2.
Proof. unfold last_char. rewrite last_app. by destruct (last w2). Qed.

(** Soundness: what the matcher finds is a match. *)
Lemma greedy_sound p min k s :
  forall st n res,
    greedy p min k s st n = Some res ->
    exists w s' st1,
      s = w ++ s' /\ Forall (fun c => p c = true) w
      /\ (min <= n + length w)%nat /\ k st1 = Some res
      /\ prev st1 = last_char (prev st) w
      /\ (rest st = s -> rest st1 = s').
Proof.
  induction s as [|c r IH]; intros st n res; simpl.
  - destruct (Nat.leb_spec min n); [|done]. intros Hk.
    exists [], [], st. rewrite Nat.add_0_r. by repeat split.
  - assert (Hstop :
        (if (min <=? n)%nat then k st else None) = Some res ->
        exists w s' st1,
          c :: r = w ++ s' /\ Forall (fun c => p c = true) w
          /\ (min <= n + length w)%nat /\ k st1 = Some res
          /\ prev st1 = last_char (prev st) w
          /\ (rest st = c :: r -> rest st1 = s')).
    { destruct (Nat.leb_spec min n); [|done]. intros Hk.
      exists [], (c :: r), st. rewrite Nat.add_0_r. by repeat split. }
    destruct (p c) eqn:Hc; [|done].
    destruct (greedy p min k r (eat c r st) (S n)) as [res'|] eqn:Hg; [|done].
    intros [= ->]. apply IH in Hg as (w & s' & st1 & -> & Hw & Hn & Hk & Hp & Hr).
    exists (c :: w), s', st1. rewrite last_char_cons. simpl in *.
    repeat split; auto with lia.
Qed.

Lemma exec_sound ops :
  forall st res,
    exec ops st = Some res ->
    exists m, rest st = m ++ rest res /\ matches ops (prev st) m (rest res).
Proof.
  induction ops as [|o ops IH]; intros st res; simpl.
  - intros [= ->]. exists []. split; [done | constructor].
  - destruct o as [c|min p|g|g| |].
    + destruct (rest st) as [|x r] eqn:Hr; [done|].
      destruct (N.eqb_spec x c) as [->|]; [|done].
      intros (m & Hm & HM)%IH. simpl in *. exists (c :: m). subst r.
      split; [done | by constructor].
    + intros (w & s' & st1 & Hs & Hw & Hn & Hk & Hp & Hr)%greedy_sound.
      apply IH in Hk as (m & Hm & HM). rewrite Hr in Hm by done. subst s'.
      exists (w ++ m). rewrite Hs, <- (assoc_L (++)). split; [done|].
      rewrite Hp in HM. by constructor.
    + intros (m & Hm & HM)%IH. exists m. split; [done | by constructor].
    + intros (m & Hm & HM)%IH. exists m. split.
      * revert Hm. unfold close_group. by destruct (List.find _ _).
      * constructor. revert HM. unfold close_group.
        by destruct (List.find _ _).
    + unfold at_bol. destruct (prev st) as [c|] eqn:Hp.
      * destruct (N.eqb_spec c nl) as [->|]; [|done].
        intros (m & Hm & HM)%IH. exists m. rewrite Hp in HM.
        split; [done | constructor; auto].
      * intros (m & Hm & HM)%IH. exists m. rewrite Hp in HM.
        split; [done | constructor; auto].
    + unfold at_eol. destruct (rest st) as [|c r] eqn:Hr.
      * intros (m & Hm & HM)%IH. exists m. split; [congruence|].
        constructor; [left; congruence | done].
      * destruct (N.eqb_spec c nl) as [->|]; [|done].
        intros (m & Hm & HM)%IH. exists m. split; [congruence|].
        constructor; [right; exists r; congruence | done].
Qed.

(** Completeness: where there is a match, the matcher finds one. *)
Lemma greedy_complete p min k w s' before :
  Forall (fun c => p c = true) w ->
  (forall st1, prev st1 = last_char before w -> rest st1 = s' ->
               is_Some (k st1)) ->
  forall st n,
    prev st = before -> (rest st = w ++ s') ->
    (min <= n + length w)%nat ->
    is_Some (greedy p min k (w ++ s') st n).
Proof.
  intros Hw Hk. revert before Hk.
  induction Hw as [|c w Hc Hw IH]; intros before Hk st n Hp Hr Hn; simpl in *.
  - rewrite Nat.add_0_r in Hn.
    assert (is_Some (if (min <=? n)%nat then k st else None)) as Hstop.
    { destruct (Nat.leb_spec min n); [|lia]. by apply Hk. }
    destruct s' as [|c r]; simpl; [done|].
    destruct (p c); [|done]. by destruct (greedy _ _ _ _ _ _).
  - rewrite Hc.
    destruct (IH (Some c)) with (st := eat c (w ++ s') st) (n := S n)
      as [res ->]; simpl; auto with lia.
    intros st1 Hp1. apply Hk. by rewrite last_char_cons.
Qed.

Lemma exec_complete ops before m after :
  matches ops before m after ->
  forall st, prev st = before -> rest st = m ++ after -> is_Some (exec ops st).
Proof.
  induction 1 as [ | c ops before m after _ IH
                   | min p ops before w m after Hw Hn _ IH
                   | g ops before m after _ IH | g ops before m after _ IH
                   | ops before m after Hb _ IH | ops before m after He _ IH];
    intros st Hp Hr; simpl.
  - done.
  - rewrite Hr. simpl. rewrite N.eqb_refl. by apply IH.
  - rewrite Hr, <- (assoc_L (++)).
    apply greedy_complete with (before := before); auto.
    by rewrite (assoc_L (++)).
  - by apply IH.
  - apply IH; unfold close_group; by destruct (List.find _ _).
  - unfold at_bol. rewrite Hp. destruct Hb as [->| ->]; by apply IH.
  - unfold at_eol. rewrite Hr.
    destruct He as [-> | [t ->]]; by apply IH.
Qed.

(** The search finds nothing exactly when no part of the text matches. *)
Lemma scan_nil ops s :
  forall before,
    scan ops 0 before s = []
    <-> (forall pre m post,
           s = pre ++ m ++ post ->
           ~ matches ops (last_char before pre) m post).
Proof.
  induction s as [|c r IH]; intros before; simpl.
  - destruct (exec ops (start before [])) as [res|] eqn:He.
    + split; [done|]. intros H. exfalso.
      apply exec_sound in He as (m & Hm & HM). simpl in *.
      by apply (H [] m (rest res)).
    + split; [|done]. intros _ pre m post Hs HM.
      destruct pre; [|done]. simpl in *.
      destruct (exec_complete _ _ _ _ HM (start before [])) as [? ?];
        simpl; [done..|congruence].
  - destruct (exec ops (start before (c :: r))) as [res|] eqn:He.
    + split; [done|]. intros H. exfalso.
      apply exec_sound in He as (m & Hm & HM). simpl in *.
      by apply (H [] m (rest res)).
    + rewrite IH. split.
      * intros H [|x pre] m post Hs HM; simpl in *.
        -- destruct (exec_complete _ _ _ _ HM (start before (c :: r)))
             as [? ?]; simpl; [done..|congruence].
        -- injection Hs as -> ->. rewrite last_char_cons in HM.
           by apply (H pre m post).
      * intros H pre m post -> HM. apply (H (c :: pre) m post); [done|].
        by rewrite last_char_cons.
Qed.

Theorem findall_nil_iff text :
  findall pattern text = [] <-> ~ contains_match text.
Proof.
  unfold findall, contains_match. split.
  - intros H%map_eq_nil (pre & m & post & -> & HM).
    by apply (proj1 (scan_nil pattern _ None) H pre m post).
  - intros H. rewrite (proj2 (scan_nil pattern text None)); [done|].
    intros pre m post -> HM. apply H. by exists pre, m, post.
Qed.

End Matcher.

(** ** Running the matcher over an error block *)

Section Blocks.
Implicit Types (st res : mstate) (s w m r : str) (p : N -> bool).

(** The character classes of the pattern keep apart. *)
Lemma space_not_digit c : is_space c = true -> is_digit c = false.
Proof.
  unfold is_space. rewrite existsb_exists. intros (x & Hx & ->%N.eqb_eq).
  repeat (destruct Hx as [<-|Hx]; [reflexivity|]). destruct Hx.
Qed.

Lemma digit_not_space c : is_digit c = true -> is_space c = false.
Proof.
  intros Hd. destruct (is_space c) eqn:Hs; [|done].
  apply space_not_digit in Hs. congruence.
Qed.

Lemma pushed_nil o : pushed [] o = o.
Proof. induction o as [|[g b] o IH]; simpl; by f_equal. Qed.

Lemma pushed_cons c w o :
  pushed w (List.map (fun gb => (gb.1, c :: gb.2)) o) = pushed (c :: w) o.
Proof.
  unfold pushed. rewrite List.map_map. apply List.map_ext. intros [g b].
  simpl. by rewrite <- (assoc_L (++)).
Qed.

Lemma exec_lits w ops before r o k :
  exec (List.map Lit w ++ ops) (MState before (w ++ r) o k)
  = exec ops (MState (last_char before w) r (pushed w o) k).
Proof.
  revert before o. induction w as [|c w IH]; intros before o; simpl.
  - by rewrite pushed_nil.
  - rewrite N.eqb_refl. unfold eat. simpl. rewrite IH.
    by rewrite last_char_cons, pushed_cons.
Qed.

Lemma greedy_take p min kont w :
  Forall (fun c => p c = true) w ->
  forall r before o k n res,
    stops p r ->
    (min <= n + length w)%nat ->
    kont (MState (last_char before w) r (pushed w o) k) = Some res ->
    greedy p min kont (w ++ r) (MState before (w ++ r) o k) n = Some res.
Proof.
  induction 1 as [|c w Hc Hw IH]; intros r before o k n res Hr Hn Hk; simpl.
  - rewrite pushed_nil in Hk. change (last_char before []) with before in Hk.
    simpl in Hn. rewrite Nat.add_0_r in Hn.
    destruct r as [|c r]; simpl; [|simpl in Hr; rewrite Hr];
      by destruct (Nat.leb_spec min n); [|lia].
  - rewrite Hc. unfold eat. simpl.
    rewrite (IH r (Some c) _ k (S n) res); auto.
    + simpl in Hn. lia.
    + by rewrite pushed_cons, <- (last_char_cons before).
Qed.

Lemma exec_repeat p min ops w r before o k res :
  Forall (fun c => p c = true) w ->
  (min <= length w)%nat ->
  stops p r ->
  exec ops (MState (last_char before w) r (pushed w o) k) = Some res ->
  exec (Repeat min p :: ops) (MState before (w ++ r) o k) = Some res.
Proof. intros. simpl. by apply greedy_take. Qed.


Lemma exec_open g ops st :
  exec (Open g :: ops) st = exec ops (open_group g st).
Proof. reflexivity. Qed.

Lemma exec_close g ops st :
  exec (Close g :: ops) st = exec ops (close_group g st).
Proof. reflexivity. Qed.

Lemma exec_bol ops st :
  at_bol st = true -> exec (Bol :: ops) st = exec ops st.
Proof. intros H. simpl. by rewrite H. Qed.

Lemma exec_eol ops st :
  at_eol st = true -> exec (Eol :: ops) st = exec ops st.
Proof. intros H. simpl. by rewrite H. Qed.

Ltac tidy :=
  cbn [open_group close_group prev rest opened caps pushed List.map
       List.find List.filter fst snd Nat.eqb negb].

Lemma pattern_eq :
  pattern
  = List.map Lit (u "ERROR")
    ++ Repeat 1 is_space :: Open 1 :: Repeat 1 is_digit :: Close 1
    :: Repeat 1 is_space
    :: List.map Lit (u "(0x")
    ++ Repeat 1 is_hex
    :: List.map Lit (u ")")
    ++ Repeat 1 is_space :: Open 2 :: Repeat 0 is_dot :: Close 2 :: Lit nl
    :: Bol :: Open 3 :: Repeat 0 is_dot :: Close 3 :: [Eol].
Proof. reflexivity. Qed.

Lemma some_length p w : some p w -> (1 <= length w)%nat.
Proof. intros [Hne _]. destruct w; [done | simpl; lia]. Qed.

Lemma some_head p w : some p w -> exists c t, w = c :: t /\ p c = true.
Proof.
  intros [Hne Hall]. destruct w as [|c t]; [done|].
  exists c, t. split; [done|]. by inversion Hall.
Qed.

Lemma exec_block b tail before :
  well_formed b ->
  stops is_dot tail ->
  exec pattern (start before (block_text b ++ tail))
  = Some (MState (last_char (Some nl) (why b)) tail []
                 [(3%nat, why b); (2%nat, what b); (1%nat, number b)]).
Proof.
  intros (Hw1 & Hn & Hw2 & Hh & Hw3 & (a & t & Hwhat & Ha) & Hdot & Hwhy) Ht.
  rewrite pattern_eq. unfold block_text, start.
  rewrite <- !(assoc_L (++)).
  rewrite exec_lits. tidy.
  destruct (some_head _ _ Hn) as (d & nt & Hnum & Hd).
  destruct (some_head _ _ Hw2) as (s2 & w2t & Hws2 & Hs2).
  destruct (some_head _ _ Hh) as (h & ht & Hhex & Hh1).
  (* blanks, then the number *)
  apply exec_repeat; [apply Hw1 | by eapply some_length | |].
  { rewrite Hnum. simpl. by apply digit_not_space. }
  rewrite exec_open. tidy.
  apply exec_repeat; [apply Hn | by eapply some_length | |].
  { rewrite Hws2. simpl. by apply space_not_digit. }
  rewrite exec_close. tidy. rewrite app_nil_r, rev_involutive.
  (* blanks, then the number in brackets *)
  apply exec_repeat; [apply Hw2 | by eapply some_length | reflexivity |].
  rewrite exec_lits. tidy.
  apply exec_repeat; [apply Hh | by eapply some_length | reflexivity |].
  rewrite exec_lits. tidy.
  (* blanks, then the action up to the end of its line *)
  apply exec_repeat; [apply Hw3 | by eapply some_length | |].
  { rewrite Hwhat. exact Ha. }
  rewrite exec_open. tidy.
  apply exec_repeat; [exact Hdot | lia | reflexivity |].
  rewrite exec_close. tidy. rewrite app_nil_r, rev_involutive.
  change (Lit nl :: ?ops) with (List.map Lit [nl] ++ ops).
  rewrite exec_lits. tidy.
  (* the reason, on the next line and up to its end *)
  rewrite exec_bol by reflexivity.
  rewrite exec_open. tidy.
  apply exec_repeat; [exact Hwhy | lia | exact Ht |].
  rewrite exec_close. tidy. rewrite app_nil_r, rev_involutive.
  rewrite exec_eol; [reflexivity|].
  unfold at_eol. tidy. destruct tail as [|c tail]; [done|].
  simpl in Ht. unfold is_dot in Ht. by destruct (c =? nl).
Qed.

Lemma scan_0_cons ops before c r :
  scan ops 0 before (c :: r)
  = match exec ops (start before (c :: r)) with
    | Some st =>
      st :: scan ops (Nat.pred (length (c :: r) - length (rest st)))
                 (Some c) r
    | None => scan ops 0 (Some c) r
    end.
Proof. reflexivity. Qed.

Lemma scan_skip ops w :
  forall before s,
    scan ops (length w) before (w ++ s) = scan ops 0 (last_char before w) s.
Proof.
  induction w as [|c w IH]; intros before s; simpl; [done|].
  by rewrite IH, last_char_cons.
Qed.

Lemma scan_match ops before w tail st :
  w <> [] ->
  exec ops (start before (w ++ tail)) = Some st ->
  rest st = tail ->
  scan ops 0 before (w ++ tail) = st :: scan ops 0 (last_char before w) tail.
Proof.
  intros Hw He Hr. destruct w as [|c w]; [done|].
  simpl in *. rewrite He, Hr. f_equal.
  rewrite length_app. 
  replace (Nat.pred (S (length w + length tail) - length tail))
    with (length w) by lia.
  by rewrite scan_skip, last_char_cons.
Qed.

Lemma scan_no_block gap :
  forall before after,
    no_block_in before gap after ->
    scan pattern 0 (last_char None before) (gap ++ after)
    = scan pattern 0 (last_char None (before ++ gap)) after.
Proof.
  induction gap as [|c gap IH]; intros before after Hq.
  - by rewrite app_nil_r.
  - change ((c :: gap) ++ after) with (c :: (gap ++ after)).
    rewrite scan_0_cons.
    destruct (exec pattern (start (last_char None before)
                                  (c :: gap ++ after))) as [res|] eqn:He.
    + apply exec_sound in He as (m & Hm & HM). simpl in Hm, HM.
      destruct (Hq [] c gap m (rest res)); [done | done |].
      by rewrite app_nil_r.
    + replace (before ++ c :: gap) with ((before ++ [c]) ++ gap)
        by (by rewrite <- (assoc_L (++))).
      rewrite <- (IH (before ++ [c]) after).
      * by rewrite last_char_app.
      * intros a c' r m post -> Hm HM.
        apply (Hq (c :: a) c' r m post); [done | done |].
        by rewrite <- (assoc_L (++)) in HM.
Qed.

(** Where the search at every position of the gap finds nothing, no block
    begins. *)
Lemma no_block_inb_sound gap :
  forall before after,
    no_block_inb (last_char None before) gap after = true ->
    no_block_in before gap after.
Proof.
  induction gap as [|c gap IH]; intros before after Hg a c' r m post Ha Hm HM.
  - by destruct a.
  - cbn [no_block_inb] in Hg.
    destruct (exec pattern (start (last_char None before)
                                  (c :: gap ++ after))) as [res|] eqn:He;
      [done|].
    destruct a as [|x a].
    + injection Ha as -> ->. rewrite app_nil_r in HM.
      destruct (exec_complete pattern _ m post HM
                  (start (last_char None before) (c' :: r ++ after))
                  eq_refl Hm) as [res Hres].
      congruence.
    + injection Ha as -> ->.
      apply (IH (before ++ [x]) after) with (a := a) (c := c') (r := r)
                                            (m := m) (post := post);
        [by rewrite last_char_app | done | done |].
      by rewrite <- (assoc_L (++)).
Qed.

(** A match of the pattern begins with the word ERROR, so that a gap
    without this word holds no beginning of a block. *)
Lemma matches_needs_ERROR before m post :
  matches pattern before m post -> exists t, m = u "ERROR" ++ t.
Proof.
  intros HM. rewrite pattern_eq in HM.
  do 5 (inversion HM as [|? ? ? ? ? HM'| | | | |]; subst; clear HM;
        rename HM' into HM).
  by eexists.
Qed.

Lemma no_block_without_ERROR before gap after :
  (forall a b, gap <> a ++ u "ERROR" ++ b) ->
  after = [] \/ (exists t, after = u "ERROR" ++ t) ->
  no_block_in before gap after.
Proof.
  intros Hocc Hafter a c r m post -> Hm [t ->]%matches_needs_ERROR.
  destruct r as [|c2 [|c3 [|c4 [|c5 r]]]];
    try (destruct Hafter as [->|[t' ->]]; discriminate).
  apply (Hocc a r). simpl in *. congruence.
Qed.

Lemma scan_empty before : scan pattern 0 before [] = [].
Proof. reflexivity. Qed.

Lemma block_text_ERROR b : exists t, block_text b = u "ERROR" ++ t.
Proof. by eexists. Qed.

Lemma stops_head s : head s = Some nl -> stops is_dot s.
Proof. destruct s; [done|]. by intros [= ->]. Qed.

Lemma findall_two_blocks text b1 b2 :
  two_blocks text b1 b2 ->
  findall pattern text
  = [(number b1, what b1, why b1); (number b2, what b2, why b2)].
Proof.
  intros (Hb1 & Hb2 & pre & mid & post & -> & Hpre & Hmid & Hpost & Hm & Hp).
  unfold findall.
  destruct (block_text_ERROR b1) as [t1 Ht1].
  destruct (block_text_ERROR b2) as [t2 Ht2].
  change (@None N) with (last_char None []).
  rewrite (scan_no_block pre [] _ Hpre), app_nil_l.
  erewrite scan_match; [|by rewrite Ht1|apply exec_block|reflexivity];
    [|done|].
  2:{ apply stops_head. by destruct mid. }
  rewrite <- last_char_app, (scan_no_block mid _ _ Hmid).
  erewrite scan_match; [|by rewrite Ht2|apply exec_block|reflexivity];
    [|done|].
  2:{ destruct Hp as [->|Hp]; [done | by apply stops_head]. }
  rewrite <- last_char_app, <- !(assoc_L (++)).
  pose proof (scan_no_block post _ _ Hpost) as Hs.
  rewrite app_nil_r in Hs. rewrite Hs, scan_empty.
  reflexivity.
Qed.

End Blocks.

(** ** [str.strip] *)

Section Strip.
Implicit Types (s : str) (c : N).

Lemma lstrip_spec c s :
  exists a, s = a ++ lstrip c s /\ Forall (fun x => x = c) a
            /\ head (lstrip c s) <> Some c.
Proof.
  induction s as [|x s (a & Ha & Hall & Hh)]; simpl.
  - by exists [].
  - destruct (N.eqb_spec x c) as [->|Hne].
    + exists (c :: a). simpl. rewrite <- Ha. by repeat split; [constructor|].
    + exists []. repeat split; [constructor|]. simpl. congruence.
Qed.

Lemma lstrip_id c s : head s <> Some c -> lstrip c s = s.
Proof.
  destruct s as [|x s]; [done|]. simpl. intros H.
  destruct (N.eqb_spec x c); congruence.
Qed.

Lemma lstrip_last c s x :
  last (lstrip c s) = Some x -> last s = Some x.
Proof.
  destruct (lstrip_spec c s) as (a & Ha & _). intros H.
  rewrite Ha, last_app. by rewrite H.
Qed.

(** [strip] removes the character at both ends and nothing else. *)
Lemma strip_spec c s :
  exists a b,
    s = a ++ strip c s ++ b
    /\ Forall (fun x => x = c) a /\ Forall (fun x => x = c) b
    /\ head (strip c s) <> Some c /\ last (strip c s) <> Some c.
Proof.
  unfold strip, rstrip.
  destruct (lstrip_spec c s) as (a & Ha & Hall & Hh).
  destruct (lstrip_spec c (reverse (lstrip c s))) as (b & Hb & Hbll & Hl).
  set (t := lstrip c (reverse (lstrip c s))) in *.
  assert (lstrip c s = reverse t ++ reverse b) as Hs
    by (by rewrite <- reverse_app, <- Hb, reverse_involutive).
  exists a, (reverse b). split; [|split; [done|split; [|split]]].
  - by rewrite <- Hs.
  - by apply Forall_reverse.
  - destruct (reverse t) as [|y t'] eqn:Ht; [done|].
    rewrite Hs in Hh. done.
  - by rewrite last_reverse.
Qed.

Lemma strip_id c s :
  head s <> Some c -> last s <> Some c -> strip c s = s.
Proof.
  intros Hh Hl. unfold strip, rstrip. rewrite (lstrip_id c s Hh).
  rewrite lstrip_id; [apply reverse_involutive|].
  by rewrite head_reverse.
Qed.

Lemma strip_number w : some is_digit w -> strip cr w = w.
Proof.
  intros [_ Hall]. rewrite Forall_forall in Hall.
  apply strip_id; intros H.
  - apply head_Some_elem_of, Hall in H. done.
  - apply last_Some_elem_of, Hall in H. done.
Qed.

End Strip.

(** ** [parse_errors_from_robocopy_stdout] *)

Lemma parse_decoded (output : bytes) (text : str) :
  decode_utf8 output = Some text ->
  parse_errors_from_robocopy_stdout output
  = match findall pattern text with
    | [] =>
      ([Log DEBUG "Could not parse any errors from stdout of robocopy" [];
        Log DEBUG raw_stdout_format [AText text]],
       Return None)
    | ms =>
      ([], Return (Some (List.map
                     (fun m => mkInfo (strip cr m.1.1) (strip cr m.1.2)
                                      (strip cr m.2)) ms)))
    end.
Proof.
  intros H. unfold parse_errors_from_robocopy_stdout. rewrite H.
  by destruct (findall pattern text).
Qed.

(** C2, as the code has it. When the output decodes and holds no block that
    the pattern matches, the parser raises nothing and returns [None], which
    is not an empty list; it logs that nothing could be parsed, and the
    message of the [RobocopyError] built from it says that no details are
    available. *)
Theorem parse_without_match (output : bytes) (text : str) :
  decode_utf8 output = Some text ->
  ~ contains_match text ->
  parse_errors_from_robocopy_stdout output
  = ([Log DEBUG "Could not parse any errors from stdout of robocopy" [];
      Log DEBUG raw_stdout_format [AText text]],
     Return None)
  /\ forall rc,
       (RobocopyError.from_error rc output).2
       = Return (RobocopyError rc None)
       /\ RobocopyError.__str__ rc None
          = u "Robocopy returned with exit code " ++ RobocopyError.decimal rc
            ++ u "." ++ u " No detailled information available.".
Proof.
  intros Hd Hm%findall_nil_iff.
  assert (parse_errors_from_robocopy_stdout output
          = ([Log DEBUG "Could not parse any errors from stdout of robocopy"
                  [];
              Log DEBUG raw_stdout_format [AText text]],
             Return None)) as Hp
    by (by rewrite (parse_decoded _ _ Hd), Hm).
  split; [done|]. intros rc. split.
  - unfold RobocopyError.from_error. by rewrite Hp.
  - unfold RobocopyError.__str__. by rewrite <- !(assoc_L (++)).
Qed.

Lemma parse_without_match_witness :
  (parse_errors_from_robocopy_stdout no_block_output).2 = Return None.
Proof.
  destruct (parse_without_match no_block_output
              (u "ERROR: the disk is full")) as [H _].
  - reflexivity.
  - apply findall_nil_iff. vm_compute. reflexivity.
  - rewrite H. reflexivity.
Defined.

(** C2 as stated fails: for the empty output, which holds no block, the
    parser returns [None] and not the empty list. *)
Lemma parse_without_match_is_not_empty_list :
  ~ contains_match []
  /\ decode_utf8 [] = Some []
  /\ (parse_errors_from_robocopy_stdout []).2 = Return None
  /\ (parse_errors_from_robocopy_stdout []).2 <> Return (Some []).
Proof.
  split; [|split; [|split]]; try reflexivity.
  - apply findall_nil_iff. reflexivity.
  - discriminate.
Qed.

(** C8, as the code has it. For an output that decodes and holds exactly
    two well-formed error blocks, whatever other lines stand around them,
    the parser returns two records, in the order of the blocks: the number
    as it stands, and the action and the reason with the carriage returns at
    their ends removed. Other white space at the ends stays. *)
Theorem parse_two_blocks (output : bytes) (text : str) (b1 b2 : block) :
  decode_utf8 output = Some text ->
  two_blocks text b1 b2 ->
  parse_errors_from_robocopy_stdout output
  = ([], Return (Some [mkInfo (number b1) (strip cr (what b1))
                              (strip cr (why b1));
                       mkInfo (number b2) (strip cr (what b2))
                              (strip cr (why b2))])).
Proof.
  intros Hd Hb. rewrite (parse_decoded _ _ Hd), (findall_two_blocks _ _ _ Hb).
  destruct Hb as ((_ & Hn1 & _) & (_ & Hn2 & _) & _). simpl.
  by rewrite (strip_number _ Hn1), (strip_number _ Hn2).
Qed.

Lemma forallb_Forall (p : N -> bool) (w : str) :
  forallb p w = true -> Forall (fun c => p c = true) w.
Proof.
  intros Hw. apply Forall_forall. intros x Hx.
  by apply (proj1 (forallb_forall p w) Hw), list_elem_of_In.
Qed.

Lemma forallb_some (p : N -> bool) (w : str) :
  w <> [] -> forallb p w = true -> some p w.
Proof. intros Hne Hw. split; [done | by apply forallb_Forall]. Qed.

Lemma sample_blocks_well_formed :
  well_formed first_block /\ well_formed second_block.
Proof.
  split; unfold well_formed;
    (split_and!; try (apply forallb_some; [discriminate | reflexivity]);
     try (apply forallb_Forall; reflexivity));
    by eexists _, _.
Qed.

Lemma sample_two_blocks : two_blocks two_block_text first_block second_block.
Proof.
  destruct sample_blocks_well_formed as [H1 H2].
  split; [done|]. split; [done|].
  exists [], [nl], [nl].
  split_and!; try done; try (apply no_block_inb_sound; vm_compute; reflexivity).
  by right.
Qed.

(** The output with the lines of [/r:0] holds the same two blocks: the
    lines with ERROR: RETRY LIMIT EXCEEDED are no blocks. *)
Lemma sample_retry_blocks : two_blocks retry_text first_block second_block.
Proof.
  destruct sample_blocks_well_formed as [H1 H2].
  split; [done|]. split; [done|].
  exists retry_pre, retry_mid, retry_post.
  split_and!; try done; try (apply no_block_inb_sound; vm_compute; reflexivity).
  by right.
Qed.

Lemma parse_two_blocks_witness :
  (parse_errors_from_robocopy_stdout retry_output).2
  = Return (Some [mkInfo (u "5") (u "Copying File a.txt")
                         (u "Access is denied. ");
                  mkInfo (u "32") (u "Copying File b.txt")
                         (u "The process cannot access the file.")]).
Proof.
  rewrite (parse_two_blocks retry_output retry_text
                            first_block second_block).
  - vm_compute. reflexivity.
  - vm_compute. reflexivity.
  - exact sample_retry_blocks.
Defined.

(** C8 as stated fails: the output holds two well-formed blocks, and the
    reason of the first record comes back with the blank at its end, so the
    text fields are not trimmed. *)
Lemma parse_two_blocks_keeps_blanks :
  decode_utf8 two_block_output = Some two_block_text
  /\ two_blocks two_block_text first_block second_block
  /\ (parse_errors_from_robocopy_stdout two_block_output).2
     = Return (Some [mkInfo (u "5") (u "Copying File a.txt")
                            (u "Access is denied. ");
                     mkInfo (u "32") (u "Copying File b.txt")
                            (u "The process cannot access the file.")])
  /\ ~ trimmed (u "Access is denied. ").
Proof.
  split; [vm_compute; reflexivity|]. split; [exact sample_two_blocks|].
  split; [vm_compute; reflexivity|].
  intros [_ H]. specialize (H 32). vm_compute in H.
  specialize (H eq_refl). discriminate.
Qed.

(** ** [_sanitize_destinations] *)

Section Sanitize.
Variable fs : filesystem.

Lemma filter_sublist {A} (f : A -> bool) (l : list A) :
  sublist (List.filter f l) l.
Proof.
  induction l as [|x l IH]; simpl.
  - constructor.
  - destruct (f x); by constructor.
Qed.

Lemma filter_count_occ (f : string -> bool) (l : list string) (d : string) :
  f d = true ->
  count_occ String.string_dec (List.filter f l) d = count_occ String.string_dec l d.
Proof.
  intros Hd. induction l as [|x l IH]; simpl; [done|].
  destruct (f x) eqn:Hx; simpl.
  - destruct (String.string_dec x d); by rewrite IH.
  - destruct (String.string_dec x d) as [->|]; [congruence | done].
Qed.

(** C9. The result holds exactly the entries of the input that are not the
    empty string and exist: it is a subsequence of the input (the order is
    kept), an entry is in it if and only if it is such an entry of the
    input, and each such entry occurs as often as in the input. An argument
    that is not a list is handled as the list of that one entry. *)
Theorem sanitize_destinations_keeps_existing (ds : list string) (d : string) :
  let out := (_sanitize_destinations fs (Many ds)).2 in
  sublist out ds
  /\ (forall x, In x out <-> In x ds /\ x <> "" /\ exists_ fs x = true)
  /\ (forall x, x <> "" -> exists_ fs x = true ->
                count_occ String.string_dec out x = count_occ String.string_dec ds x)
  /\ _sanitize_destinations fs (One d) = _sanitize_destinations fs (Many [d]).
Proof.
  simpl. split; [apply filter_sublist|]. split; [|split; [|done]].
  - intros x. rewrite filter_In.
    rewrite andb_true_iff, bool_decide_eq_true. tauto.
  - intros x Hne He. apply filter_count_occ.
    apply andb_true_intro. split; [by apply bool_decide_eq_true | done].
Qed.

End Sanitize.

(** ** [_robocopy_callback] *)

Lemma callback_cancelled :
  _robocopy_callback CANCELLED = [Log DEBUG "Robocopy job cancelled" []].
Proof. reflexivity. Qed.

(** C10. The callback looks at cancellation first: for a cancelled future it
    only logs. It calls [notifier.failed] in one case only, a future that is
    done, not cancelled, and holds an exception, then once and with that
    exception. It never calls [notifier.finished]. *)
Theorem robocopy_callback_notifies_failures_only (s : fstate) :
  (cancelled s = true ->
   _robocopy_callback s = [Log DEBUG "Robocopy job cancelled" []])
  /\ (forall e, In (Failed e) (_robocopy_callback s) ->
        cancelled s = false /\ s = FINISHED (Raise e)
        /\ List.filter (fun x => match x with Failed _ => true | _ => false end)
                       (_robocopy_callback s) = [Failed e])
  /\ (forall e, s = FINISHED (Raise e) -> In (Failed e) (_robocopy_callback s))
  /\ (s = FINISHED (Return tt) ->
      _robocopy_callback s
      = [Log DEBUG "Robocopy job terminated successfully" []])
  /\ ~ In Finished (_robocopy_callback s).
Proof.
  split; [by destruct s|]. split; [|split; [|split]].
  - intros e H.
    destruct s as [| | |[[]|e']]; simpl in H;
      try (exfalso; intuition discriminate).
    assert (e' = e) as ->
      by (destruct e'; simpl in H; destruct H as [H|[H|[]]]; congruence).
    by destruct e.
  - intros e ->. destruct e; simpl; auto.
  - by intros ->.
  - destruct s as [| | |[[]|e']]; simpl; try (intuition discriminate).
    destruct e'; simpl; intuition discriminate.
Qed.

Lemma robocopy_callback_witness :
  _robocopy_callback CANCELLED = [Log DEBUG "Robocopy job cancelled" []]
  /\ In (Failed (OSError "x")) (_robocopy_callback (FINISHED (Raise (OSError "x")))).
Proof.
  split.
  - apply (proj1 (robocopy_callback_notifies_failures_only CANCELLED)).
    reflexivity.
  - apply (proj1 (proj2 (proj2
             (robocopy_callback_notifies_failures_only
                (FINISHED (Raise (OSError "x"))))))).
    reflexivity.
Defined.

(** ** [robocopy_call] *)

Section ExitStatus.
Variables (source dest skip_files : string) (silent secure_mode : bool).

Let call (r : proc_result) : list effect * result unit :=
  robocopy_call (fun _ _ => r) source dest silent secure_mode skip_files.

Lemma call_not_started (msg : string) :
  call (NotStarted msg) = ([], Raise (OSError msg)).
Proof. reflexivity. Qed.

Lemma call_success (output : bytes) : call (Completed 0 output) = ([], Return tt).
Proof. reflexivity. Qed.

Lemma check_output_nonzero (rc : Z) (output : bytes) :
  rc <> 0%Z ->
  check_output (Completed rc output) = Raise (CalledProcessError rc output).
Proof. by destruct rc. Qed.

Lemma call_below_8 (rc : Z) (output : bytes) :
  (rc < 8)%Z -> (call (Completed rc output)).2 = Return tt.
Proof.
  intros Hrc. destruct (decide (rc = 0%Z)) as [->|Hne]; [done|].
  unfold call, robocopy_call. rewrite (check_output_nonzero _ _ Hne).
  destruct (Z.leb_spec 8 rc); [lia|].
  by destruct (_ && _).
Qed.

(** X27: what [robocopy_call] does for each exit status. A status below 2
    returns; a status in 2..7 returns after a debug record that says so; a
    status of 8 or more raises [RobocopyError] with that status and what the
    parser returned, provided the output decodes as UTF-8; otherwise the
    [UnicodeDecodeError] of the decoder comes out instead, which is the
    defect of C1. When the program ran, nothing else is raised, and nothing
    is raised below 8. *)
Theorem robocopy_call_exit_status (rc : Z) (output : bytes) :
  ((rc = 0 \/ rc = 1)%Z -> (call (Completed rc output)).2 = Return tt)
  /\ ((2 <= rc <= 7)%Z ->
      call (Completed rc output)
      = ([Log DEBUG "Robocopy nonzero exit code: %s" [AInt rc];
          Log DEBUG "Robocopy exited with code %d. This is not a failure."
              [AInt rc]],
         Return tt))
  /\ ((8 <= rc)%Z ->
      match decode_utf8 output with
      | Some _ =>
        exists logs info,
          parse_errors_from_robocopy_stdout output = (logs, Return info)
          /\ (call (Completed rc output)).2 = Raise (RobocopyError rc info)
      | None => (call (Completed rc output)).2 = Raise UnicodeDecodeError
      end)
  /\ (forall e, (call (Completed rc output)).2 = Raise e ->
        (8 <= rc)%Z
        /\ (e = UnicodeDecodeError
            \/ exists info, e = RobocopyError rc info)).
Proof.
  split; [|split; [|split]].
  - intros _H. apply call_below_8. lia.
  - intros Hrc. unfold call, robocopy_call.
    rewrite check_output_nonzero by lia.
    destruct (Z.leb_spec 8 rc); [lia|].
    destruct (Z.leb_spec 2 rc); [|lia].
    destruct (Z.ltb_spec rc 8); [done|lia].
  - intros Hrc. unfold call, robocopy_call.
    rewrite check_output_nonzero by lia.
    destruct (Z.leb_spec 8 rc); [|lia].
    unfold RobocopyError.from_error, parse_errors_from_robocopy_stdout.
    destruct (decode_utf8 output) as [text|]; [|done].
    destruct (findall pattern text); simpl; eauto.
  - intros e He. destruct (Z.ltb_spec rc 8) as [Hlt|Hge].
    + by rewrite call_below_8 in He.
    + split; [done|]. revert He. unfold call, robocopy_call.
      rewrite check_output_nonzero by lia.
      destruct (Z.leb_spec 8 rc); [|lia].
      unfold RobocopyError.from_error, parse_errors_from_robocopy_stdout.
      destruct (decode_utf8 output) as [text|]; [|naive_solver].
      destruct (findall pattern text); simpl; naive_solver.
Qed.

End ExitStatus.

Lemma robocopy_call_exit_status_witness :
  (robocopy_call (fun _ _ => Completed 1 []) "S" "D" true false "tmp").2
  = Return tt
  /\ (robocopy_call (fun _ _ => Completed 5 []) "S" "D" true false "tmp").2
     = Return tt
  /\ (robocopy_call (fun _ _ => Completed 16 []) "S" "D" true false "tmp").2
     = Raise (RobocopyError 16 None).
Proof.
  pose proof (robocopy_call_exit_status "S" "D" "tmp" true false) as H.
  split; [|split].
  - apply (proj1 (H 1%Z [])). right. reflexivity.
  - rewrite (proj1 (proj2 (H 5%Z [])) ltac:(lia)). reflexivity.
  - destruct (proj1 (proj2 (proj2 (H 16%Z []))) ltac:(lia))
      as (logs & info & Hp & Hc).
    rewrite Hc. vm_compute in Hp. congruence.
Defined.

(** C1: the code departs from the claim. With status 8 and the output
    [b'\xff'], which is not UTF-8, the decoder raises while
    [RobocopyError.from_error] is building the exception: the caller gets a
    [UnicodeDecodeError] that carries no return code, and no
    [RobocopyError]. An output in which the parser finds nothing, here the
    empty one, does give the [RobocopyError] with the return code, without
    records. *)
Lemma robocopy_call_undecodable_output :
  (robocopy_call (fun _ _ => Completed 8 [xff]) "S" "D" true false "tmp").2
  = Raise UnicodeDecodeError
  /\ (~ exists info,
         (robocopy_call (fun _ _ => Completed 8 [xff]) "S" "D" true false
                        "tmp").2
         = Raise (RobocopyError 8 info))
  /\ (robocopy_call (fun _ _ => Completed 8 []) "S" "D" true false "tmp").2
     = Raise (RobocopyError 8 None).
Proof.
  split; [reflexivity|]. split; [|reflexivity].
  intros [info H]. vm_compute in H. discriminate.
Qed.

(** ** [RobocopyTask.terminate] *)

Section Terminate.
Implicit Types (st : state) (j k : nat) (f : future).

Lemma cancel_fields j st :
  _running (cancel j st) = _running st
  /\ futures (cancel j st) = futures st
  /\ at_ (cancel j st) = at_ st
  /\ dests (cancel j st) = dests st
  /\ n_deleted (cancel j st) = n_deleted st
  /\ max_workers (cancel j st) = max_workers st.
Proof.
  unfold cancel. destruct (pool st !! j) as [f|]; [|done].
  by destruct (pending (fst_ f)).
Qed.

Lemma cancel_lookup j st k :
  pool (cancel j st) !! k
  = if decide (k = j) then cancel_future <$> pool st !! k else pool st !! k.
Proof.
  unfold cancel. destruct (pool st !! j) as [f|] eqn:Hj.
  - destruct (pending (fst_ f)) eqn:Hp; simpl.
    + destruct (decide (k = j)) as [->|Hne].
      * rewrite list_lookup_insert_eq by (by eapply lookup_lt_Some).
        rewrite Hj. simpl. unfold cancel_future. by rewrite Hp.
      * by rewrite list_lookup_insert_ne.
    + destruct (decide (k = j)) as [->|Hne]; [|done].
      rewrite Hj. simpl. unfold cancel_future. by rewrite Hp.
  - destruct (decide (k = j)) as [->|Hne]; [|done]. by rewrite Hj.
Qed.

Lemma cancel_id j st :
  (forall f, pool st !! j = Some f -> pending (fst_ f) = false) ->
  cancel j st = st.
Proof.
  intros H. unfold cancel. destruct (pool st !! j) as [f|]; [|done].
  by rewrite (H f).
Qed.

Lemma cancel_future_idemp f : cancel_future (cancel_future f) = cancel_future f.
Proof. unfold cancel_future. by destruct (pending (fst_ f)) eqn:H; simpl; [|rewrite H]. Qed.

Lemma cancel_all_lookup js :
  forall st k,
    pool (cancel_all js st) !! k
    = if decide (k ∈ js) then cancel_future <$> pool st !! k
      else pool st !! k.
Proof.
  induction js as [|j js IH]; intros st k; simpl.
  - by destruct (decide (k ∈ [])) as [?%elem_of_nil|].
  - unfold cancel_all in IH. rewrite IH, cancel_lookup.
    destruct (decide (k ∈ js)) as [Hin|Hnin],
             (decide (k ∈ j :: js)) as [Hc|Hc],
             (decide (k = j)) as [Heq|Hne];
      try done; try (exfalso; apply Hc; subst; by constructor).
    + destruct (pool st !! k) as [f|]; [|done]. simpl.
      by rewrite cancel_future_idemp.
    + by apply elem_of_cons in Hc as [?|?].
Qed.

Lemma cancel_all_fields js :
  forall st,
    _running (cancel_all js st) = _running st
    /\ futures (cancel_all js st) = futures st
    /\ at_ (cancel_all js st) = at_ st
    /\ dests (cancel_all js st) = dests st
    /\ n_deleted (cancel_all js st) = n_deleted st
    /\ max_workers (cancel_all js st) = max_workers st.
Proof.
  induction js as [|j js IH]; intros st; simpl; [done|].
  destruct (IH (cancel j st)) as (-> & -> & -> & -> & -> & ->).
  apply cancel_fields.
Qed.

Lemma cancel_all_id js :
  forall st,
    (forall j f, j ∈ js -> pool st !! j = Some f -> pending (fst_ f) = false) ->
    cancel_all js st = st.
Proof.
  induction js as [|j js IH]; intros st H; simpl; [done|].
  rewrite cancel_id by (intros f; apply H; by left).
  apply IH. intros k f Hk. apply H. by right.
Qed.

Lemma terminate_pool st :
  pool (terminate st) = pool (cancel_all (values (futures st)) st).
Proof.
  unfold terminate, is_running. destruct (_running st); [|done].
  simpl. apply list_eq. intros k.
  fold (cancel_all (values (futures st))
          (emit [Log WARNING "Stopping robocopy task" []] st)).
  by rewrite !cancel_all_lookup.
Qed.

Lemma terminate_futures st : futures (terminate st) = futures st.
Proof.
  unfold terminate, is_running.
  destruct (_running st); simpl;
    match goal with
    | |- futures (fold_left _ ?js ?s) = _ =>
      destruct (cancel_all_fields js s) as (_ & H & _); exact H
    end.
Qed.

Lemma terminate_lookup st k :
  pool (terminate st) !! k
  = if decide (k ∈ values (futures st)) then cancel_future <$> pool st !! k
    else pool st !! k.
Proof. by rewrite terminate_pool, cancel_all_lookup. Qed.

Lemma terminate_twice st : terminate (terminate st) = terminate st.
Proof.
  set (st1 := terminate st).
  assert (_running st1 = false) as Hr by reflexivity.
  unfold terminate at 1. unfold is_running. rewrite Hr.
  fold (cancel_all (values (futures st1)) st1).
  rewrite cancel_all_id.
  - reflexivity.
  - intros j f Hj. unfold st1 at 1. rewrite terminate_lookup.
    unfold st1 in Hj. rewrite terminate_futures in Hj.
    rewrite decide_True by done.
    destruct (pool st !! j) as [f'|]; [|done]. intros [= <-].
    unfold cancel_future. by destruct (pending (fst_ f')) eqn:Hp.
Qed.

(** X28: calling [terminate()] a second time changes nothing: the running
    flag, the jobs and everything else are as after the first call. After a
    call the running flag is false; every handle in [self.futures] whose job
    had not started is cancelled, and the jobs that had started or were done
    are as before. A job whose handle is not in [self.futures] is left as it
    is, started or not, which is the defect of C6. On a task that has not
    started, the call changes nothing. *)
Theorem terminate_idempotent (st : state) :
  terminate (terminate st) = terminate st
  /\ is_running (terminate st) = false
  /\ (forall j f, j ∈ values (futures st) -> pool st !! j = Some f ->
                  pending (fst_ f) = true ->
                  pool (terminate st) !! j
                  = Some (Future (target f) CANCELLED (has_callback f)))
  /\ (forall j f, pool st !! j = Some f -> pending (fst_ f) = false ->
                  pool (terminate st) !! j = Some f)
  /\ (forall j f, j ∈ values (futures st) ->
                  pool (terminate st) !! j = Some f ->
                  pending (fst_ f) = false)
  /\ (forall j, j ∉ values (futures st) ->
                pool (terminate st) !! j = pool st !! j)
  /\ forall now, terminate (__init__ now) = __init__ now.
Proof.
  split; [apply terminate_twice|]. split; [reflexivity|].
  split; [|split; [|split; [|split; [|reflexivity]]]];
    [| | |intros j Hj; by rewrite terminate_lookup, decide_False].
  - intros j f Hj Hf Hp. rewrite terminate_lookup, decide_True, Hf by done.
    simpl. unfold cancel_future. by rewrite Hp.
  - intros j f Hf Hp. rewrite terminate_lookup, Hf. simpl.
    unfold cancel_future. rewrite Hp. by destruct (decide _).
  - intros j f Hj. rewrite terminate_lookup, decide_True by done.
    destruct (pool st !! j) as [f'|]; [|done]. intros [= <-].
    unfold cancel_future. by destruct (pending (fst_ f')) eqn:Hp.
Qed.

End Terminate.

(** ** Runs of the machine *)

Section Runs.
Variables (fs : filesystem) (a : args).
Implicit Types (st : state) (ev : event) (j k : nat) (f : future).

Lemma fold_step_ind (P : state -> Prop) (schedule : list event) :
  (forall st ev, ev ∈ schedule -> P st -> P (step fs a st ev)) ->
  forall st, P st -> P (fold_left (step fs a) schedule st).
Proof.
  induction schedule as [|ev schedule IH]; intros Hstep st Hst; [done|].
  simpl. apply IH.
  - intros st' ev' Hev. apply Hstep. by right.
  - apply Hstep; [by left | done].
Qed.

Lemma execute_ind (P : state -> Prop) (now : Q) (schedule : list event) :
  P (__init__ now) ->
  (forall st ev, ev ∈ schedule -> P st -> P (step fs a st ev)) ->
  P (execute fs a now schedule).
Proof. intros H0 Hstep. unfold execute. by apply fold_step_ind. Qed.

(** All the ways a step can go. *)
Ltac step_cases :=
  unfold step, poll, _run_start, _run_for, _run_delete, worker_start,
    worker_finish, terminate, add_done_callback, submit, cancel,
    _wait_has_expired, __enter__, __exit__, is_running in *;
  repeat case_match; simpl in *; simplify_eq; try done.

Ltac by_pc :=
  match goal with
  | H : at_ _ = _ |- _ => by rewrite H
  end.

Lemma cancel_all_running js :
  forall st, _running (fold_left (fun st j => cancel j st) js st) = _running st
             /\ at_ (fold_left (fun st j => cancel j st) js st) = at_ st.
Proof.
  induction js as [|j js IH]; intros st; simpl; [done|].
  destruct (IH (cancel j st)) as [-> ->]. unfold cancel.
  by repeat case_match.
Qed.

Lemma step_not_in_scope st ev :
  (in_scope (at_ st) = false -> _running st = false) ->
  in_scope (at_ (step fs a st ev)) = false ->
  _running (step fs a st ev) = false.
Proof.
  intros IH. destruct ev as [now ans|j|j r|].
  - step_cases; auto; by_pc.
  - step_cases; auto; by_pc.
  - step_cases; auto; by_pc.
  - reflexivity.
Qed.

Lemma step_in_scope st ev :
  ev <> Terminate ->
  (in_scope (at_ st) = true -> _running st = true) ->
  in_scope (at_ (step fs a st ev)) = true ->
  _running (step fs a st ev) = true.
Proof.
  intros Hev IH. destruct ev as [now ans|j|j r|]; [..|done];
    step_cases; auto; try by_pc; by specialize (IH eq_refl).
Qed.

Lemma execute_snoc now schedule ev :
  execute fs a now (schedule ++ [ev])
  = step fs a (execute fs a now schedule) ev.
Proof. unfold execute. by rewrite fold_left_app. Qed.

Lemma terminate_at st : at_ (terminate st) = at_ st.
Proof.
  unfold terminate. destruct (is_running st); simpl;
    match goal with
    | |- at_ (fold_left _ ?js ?s) = _ =>
      by destruct (cancel_all_running js s) as [_ ->]
    end.
Qed.

Lemma step_stopped st ev :
  _running st = false /\ at_ st <> Idle ->
  _running (step fs a st ev) = false /\ at_ (step fs a st ev) <> Idle.
Proof.
  intros [Hr Hpc]. destruct ev as [now ans|j|j r|].
  - step_cases; auto; by_pc.
  - step_cases; auto; by_pc.
  - step_cases; auto; by_pc.
  - cbn [step]. by rewrite terminate_at.
Qed.

(** C7, as the code has it. Before [run] is entered and after it has
    left, by returning or by raising, [is_running()] is false. Inside
    [run] it is true as long as nobody has called [terminate()] since [run]
    was entered; and from a call of [terminate()] that comes after [run]
    was entered it is false for good, also while the thread is still
    inside [run]. *)
Theorem is_running_follows_scope (now : Q) (schedule : list event) :
  let st := execute fs a now schedule in
  (in_scope (at_ st) = false -> is_running st = false)
  /\ (Terminate ∉ schedule -> in_scope (at_ st) = true ->
      is_running st = true)
  /\ ((forall before after,
         schedule = before ++ Terminate :: after ->
         at_ (execute fs a now before) = Idle) ->
      in_scope (at_ st) = true -> is_running st = true)
  /\ (forall before after,
        schedule = before ++ Terminate :: after ->
        at_ (execute fs a now before) <> Idle ->
        is_running st = false).
Proof.
  split_and!.
  - apply execute_ind; [done|]. intros st ev _. apply step_not_in_scope.
  - intros Hterm. apply execute_ind; [done|].
    intros st ev Hev. apply step_in_scope. by intros ->.
  - induction schedule as [|ev schedule IH] using rev_ind; [done|].
    intros Hterm. rewrite execute_snoc.
    assert (in_scope (at_ (execute fs a now schedule)) = true ->
            is_running (execute fs a now schedule) = true) as IH'.
    { apply IH. intros before after ->. apply (Hterm before (after ++ [ev])).
      by rewrite <- (assoc_L (++)). }
    destruct ev as [now' ans|j|j r|]; try (by apply step_in_scope).
    specialize (Hterm schedule [] eq_refl).
    cbn [step]. by rewrite terminate_at, Hterm.
  - intros before after -> Hpc. unfold is_running, execute.
    rewrite fold_left_app. cbn [fold_left step].
    assert (forall st,
              _running st = false /\ at_ st <> Idle ->
              _running (fold_left (step fs a) after st) = false
              /\ at_ (fold_left (step fs a) after st) <> Idle) as Hall.
    { induction after as [|ev after IH]; intros st H; [done|].
      simpl. by apply IH, step_stopped. }
    apply Hall. split; [done|]. by rewrite terminate_at.
Qed.

(** *** What is logged and notified *)

Lemma quiet_nil : quiet [].
Proof. intros H. exact H. Qed.

Lemma quiet_app es1 es2 : quiet es1 -> quiet es2 -> quiet (es1 ++ es2).
Proof. unfold quiet. rewrite in_app_iff. tauto. Qed.

Lemma quiet_logs es : forallb is_log es = true -> quiet es.
Proof.
  intros H Hin. by apply (proj1 (forallb_forall _ _) H) in Hin.
Qed.

Lemma quiet_callback s : quiet (_robocopy_callback s).
Proof.
  unfold quiet. destruct s as [| | |[[]|e]]; simpl; try (intuition discriminate).
  destruct e; simpl; intuition discriminate.
Qed.

Lemma quiet_parse output :
  forallb is_log (parse_errors_from_robocopy_stdout output).1 = true.
Proof.
  unfold parse_errors_from_robocopy_stdout.
  destruct (decode_utf8 output) as [text|]; [|done].
  by destruct (findall pattern text).
Qed.

Lemma quiet_robocopy_call run source dest silent secure skip :
  forallb is_log (robocopy_call run source dest silent secure skip).1 = true.
Proof.
  unfold robocopy_call. destruct (check_output _) as [|e]; [done|].
  destruct e; try done. destruct (8 <=? returncode)%Z.
  - unfold RobocopyError.from_error.
    pose proof (quiet_parse output) as Hp.
    destruct (parse_errors_from_robocopy_stdout output) as [logs [info|e]];
      simpl in *; by rewrite Hp.
  - by destruct (_ && _).
Qed.

Lemma quiet_sanitize ds :
  forallb is_log (_sanitize_destinations fs ds).1 = true.
Proof.
  unfold _sanitize_destinations. simpl. apply forallb_forall.
  intros e (d & _ & He)%in_flat_map. revert He.
  repeat case_match; simpl; intros He; intuition subst; done.
Qed.

Lemma quiet_report c source ds skip n :
  forallb is_log (_report c source ds skip n) = true.
Proof.
  unfold _report. apply forallb_forall.
  intros e (d & _ & He)%in_flat_map. revert He. unfold report_folder.
  repeat case_match; simpl; intros He; intuition subst; done.
Qed.

Lemma quiet_imap {A} (g : nat -> A -> effect) (l : list A) :
  (forall i x, is_log (g i x) = true) -> forallb is_log (imap g l) = true.
Proof.
  revert g. induction l as [|x l IH]; intros g Hg; simpl; [done|].
  rewrite Hg. simpl. apply IH. intros i y. apply Hg.
Qed.

(** *** When every job is done *)

Lemma all_done_lookup st j f :
  all_done st = true -> pool st !! j = Some f -> done (fst_ f) = true.
Proof.
  intros H Hj. apply (proj1 (forallb_forall _ _) H).
  by eapply list_elem_of_In, list_elem_of_lookup_2.
Qed.

Lemma all_done_worker_start st j :
  all_done st = true -> worker_start j st = st.
Proof.
  intros H. unfold worker_start, can_start, state_of.
  destruct (pool st !! j) as [f|] eqn:Hj; [|done].
  apply (all_done_lookup _ _ _ H) in Hj. by destruct (fst_ f).
Qed.

Lemma all_done_worker_finish st j r :
  all_done st = true -> worker_finish a j r st = st.
Proof.
  intros H. unfold worker_finish.
  destruct (pool st !! j) as [f|] eqn:Hj; [|done].
  apply (all_done_lookup _ _ _ H) in Hj. by destruct (fst_ f).
Qed.

Lemma all_done_cancel st j : all_done st = true -> cancel j st = st.
Proof.
  intros H. unfold cancel.
  destruct (pool st !! j) as [f|] eqn:Hj; [|done].
  apply (all_done_lookup _ _ _ H) in Hj. by destruct (fst_ f).
Qed.

Lemma all_done_cancel_all js :
  forall st, all_done st = true ->
             fold_left (fun st j => cancel j st) js st = st.
Proof.
  induction js as [|j js IH]; intros st H; simpl; [done|].
  rewrite all_done_cancel by done. by apply IH.
Qed.

Lemma all_done_terminate st :
  all_done st = true ->
  terminate st
  = set_running false
      (if _running st
       then emit [Log WARNING "Stopping robocopy task" []] st else st).
Proof.
  intros H. unfold terminate, is_running.
  destruct (_running st); by rewrite all_done_cancel_all.
Qed.

Lemma set_running_id st : _running st = false -> set_running false st = st.
Proof. destruct st. simpl. by intros ->. Qed.

(** After [run] has left, nothing changes any more. *)
Lemma step_exited st ev e :
  at_ st = Exited e -> all_done st = true -> _running st = false ->
  step fs a st ev = st.
Proof.
  intros Hpc Hd Hr. destruct ev as [now ans|j|j r|]; simpl.
  - unfold poll. by rewrite Hpc.
  - by apply all_done_worker_start.
  - by apply all_done_worker_finish.
  - rewrite all_done_terminate, Hr by done. by apply set_running_id.
Qed.

(** *** The trace and the place in [run] *)

Lemma quiet_report_of c st : quiet (report_of a c st).
Proof.
  apply quiet_logs. unfold report_of. simpl. apply quiet_report.
Qed.

Lemma cancel_trace j st :
  exists es, trace (cancel j st) = trace st ++ es /\ quiet es.
Proof.
  unfold cancel. destruct (pool st !! j) as [f|].
  - destruct (pending (fst_ f)); simpl.
    + exists (if has_callback f then _robocopy_callback CANCELLED else []).
      split; [reflexivity|].
      destruct (has_callback f); [apply quiet_callback | apply quiet_nil].
    + exists []. rewrite app_nil_r. split; [done | apply quiet_nil].
  - exists []. rewrite app_nil_r. split; [done | apply quiet_nil].
Qed.

Lemma cancel_all_trace js :
  forall st,
    exists es,
      trace (fold_left (fun st j => cancel j st) js st) = trace st ++ es
      /\ quiet es.
Proof.
  induction js as [|j js IH]; intros st; simpl.
  - exists []. rewrite app_nil_r. split; [done | apply quiet_nil].
  - destruct (IH (cancel j st)) as (es2 & -> & H2).
    destruct (cancel_trace j st) as (es1 & -> & H1).
    exists (es1 ++ es2). rewrite <- (assoc_L (++)).
    split; [done | by apply quiet_app].
Qed.

Lemma terminate_trace st :
  exists es, trace (terminate st) = trace st ++ es /\ quiet es.
Proof.
  unfold terminate, is_running.
  destruct (_running st);
    match goal with
    | |- exists es, trace (set_running false (fold_left _ ?js ?s)) = _ /\ _ =>
      destruct (cancel_all_trace js s) as (es & Hes & Hq)
    end; simpl in *; rewrite Hes.
  - exists ([Log WARNING "Stopping robocopy task" []] ++ es).
    rewrite <- (assoc_L (++)). split; [done|].
    apply quiet_app; [|done]. by intros [|[]].
  - by exists es.
Qed.

Lemma terminate_frame st :
  at_ (terminate st) = at_ st /\ dests (terminate st) = dests st
  /\ n_deleted (terminate st) = n_deleted st.
Proof.
  unfold terminate, is_running.
  destruct (_running st); simpl;
    match goal with
    | |- at_ (fold_left _ ?js ?s) = _ /\ _ =>
      destruct (cancel_all_fields js s) as (_ & _ & H1 & H2 & H3 & _);
      unfold cancel_all in *; by rewrite H1, H2, H3
    end.
Qed.

Lemma all_done_nil st : pool st = [] -> all_done st = true.
Proof. unfold all_done. by intros ->. Qed.

Lemma reported_emit es st :
  quiet es -> reported a [] st -> reported a [] (emit es st).
Proof.
  intros Hes (before & c & after & Ht & Hq).
  exists before, c, (after ++ es). unfold report_of in *. simpl.
  rewrite Ht, !app_nil_r. rewrite <- !(assoc_L (++)). simpl.
  split; [reflexivity|]. unfold quiet in *. revert Hq Hes.
  rewrite !in_app_iff. simpl. rewrite !in_app_iff. tauto.
Qed.

Ltac quiet_tac :=
  repeat first
    [ assumption
    | apply quiet_nil
    | apply quiet_app
    | apply quiet_callback
    | apply quiet_report_of
    | apply quiet_logs;
      first [ assumption | apply quiet_sanitize | apply quiet_report
            | apply quiet_robocopy_call | reflexivity ] ].

Lemma trace_inv_poll st now ans : trace_inv a st -> trace_inv a (poll fs a now ans st).
Proof.
  intros HJ. unfold poll. unfold trace_inv in HJ.
  destruct (at_ st) as [| |todo acc|todo| | | |todo|k todo| |n|e| | |e] eqn:Hpc.
  - (* Idle *) destruct HJ as [Hp Hq]. unfold trace_inv. simpl. split; [done|]. quiet_tac.
  - (* AtRun *) destruct HJ as [Hp Hq]. unfold _run_start.
    pose proof (quiet_sanitize (destinations a)) as Hs.
    destruct (_sanitize_destinations fs (destinations a)) as [ws [|d ds]];
      unfold trace_inv; simpl in *.
    + split; [by apply all_done_nil|]. split; [done|]. quiet_tac.
    + apply quiet_app; [quiet_tac|]. apply quiet_logs. simpl.
      by apply quiet_imap.
  - (* AtSubmit *) destruct todo; unfold trace_inv; simpl; done.
  - (* AtAddCallback *) destruct todo as [|j todo]; unfold trace_inv; simpl; [done|].
    unfold add_done_callback. repeat case_match; simpl; quiet_tac.
  - (* AtWhile *) unfold is_running. by destruct (_running st).
  - (* AtAnyRunning *) unfold trace_inv. simpl. by case_match.
  - (* AtExpired *) simpl. case_match; unfold trace_inv; simpl; quiet_tac.
  - (* AtFor *) destruct todo as [|d todo]; [done|].
    unfold _run_for, submit.
    repeat case_match; unfold trace_inv; simpl in *; simplify_eq;
      try done; by rewrite Hpc.
  - (* AtForCallback *) unfold trace_inv. simpl.
    unfold add_done_callback. repeat case_match; simpl; quiet_tac.
  - (* AtDelete *) unfold _run_delete.
    repeat case_match; unfold trace_inv; simpl; try by rewrite Hpc.
    all: quiet_tac.
  - (* AtSleep *) destruct n; [done|]. unfold is_running.
    by destruct (_running st).
  - (* AtPoolExit *) destruct (all_done st) eqn:Hd.
    + destruct e; unfold trace_inv; simpl; auto.
    + unfold trace_inv. by rewrite Hpc.
  - (* AtReport *) destruct HJ as [Hd Hq].
    destruct ans; unfold trace_inv; try by rewrite Hpc. simpl.
    split; [done|]. exists (trace st), c, []. rewrite !app_nil_r.
    split; [done|]. quiet_tac.
  - (* AtNotify *) destruct HJ as [Hd (before & c & after & Ht & Hq)].
    unfold trace_inv. simpl. split; [done|]. split; [done|].
    exists before, c, after. simpl. rewrite Ht, !app_nil_r.
    by rewrite <- !(assoc_L (++)).
  - unfold trace_inv. by rewrite Hpc.
Qed.

Lemma trace_inv_all_done st :
  trace_inv a st ->
  match at_ st with
  | Idle | AtRun | AtReport | AtNotify | Exited _ => all_done st = true
  | _ => True
  end.
Proof.
  unfold trace_inv. destruct (at_ st) as [| | | | | | | | | | | | | |[e|]];
    try tauto; intros [Hp _]; by apply all_done_nil.
Qed.

Lemma reported_ext fin st st' :
  trace st' = trace st -> dests st' = dests st ->
  n_deleted st' = n_deleted st ->
  reported a fin st -> reported a fin st'.
Proof.
  unfold reported, report_of. by intros -> -> ->.
Qed.

Lemma trace_inv_worker_start st j : trace_inv a st -> trace_inv a (worker_start j st).
Proof.
  intros HJ. pose proof (trace_inv_all_done st HJ) as Hd.
  destruct (at_ st) eqn:Hpc; try (by rewrite all_done_worker_start).
  all: unfold worker_start; repeat case_match; try done;
    unfold trace_inv in *; simpl; by rewrite Hpc in *.
Qed.

Lemma trace_inv_worker_finish st j r : trace_inv a st -> trace_inv a (worker_finish a j r st).
Proof.
  intros HJ. pose proof (trace_inv_all_done st HJ) as Hd.
  destruct (at_ st) eqn:Hpc; try (by rewrite all_done_worker_finish).
  all: unfold worker_finish; destruct (pool st !! j) as [f|]; [|done];
    destruct (running (fst_ f)); [|done];
    pose proof (quiet_robocopy_call (fun _ _ => r) (source a) (target f)
                  (silent a) (secure_mode a) (skip_files a)) as Hq;
    destruct (robocopy_call _ _ _ _ _ _) as [logs res];
    unfold trace_inv in *; simpl in *; rewrite Hpc in *;
    (apply quiet_app; [done|]); apply quiet_app; [by apply quiet_logs|];
    destruct (has_callback f); [apply quiet_callback | apply quiet_nil].
Qed.

Lemma trace_inv_terminate st : trace_inv a st -> trace_inv a (terminate st).
Proof.
  intros HJ. pose proof (trace_inv_all_done st HJ) as Hd.
  destruct (terminate_trace st) as (es & Ht & Hes).
  destruct (terminate_frame st) as (Hpc' & Hds & Hn).
  destruct (at_ st) eqn:Hpc.
  all: try (unfold trace_inv in *; rewrite Hpc', Ht; rewrite Hpc in *;
            by apply quiet_app).
  all: rewrite all_done_terminate by done.
  all: unfold trace_inv in *; rewrite Hpc in *.
  all: destruct (_running st) eqn:Hr; simpl; rewrite Hpc.
  all: try (destruct HJ as [Hp Hq]; split; [done|]; by quiet_tac).
  - destruct HJ as [_ Hrep]. split; [done|].
    apply (reported_ext _ (emit [Log WARNING "Stopping robocopy task" []] st));
      [done..|].
    apply reported_emit; [|done]. by intros [|[]].
  - destruct e; destruct HJ as (_ & ? & _); congruence.
  - destruct e; (split; [done|]); (split; [done|]).
    + tauto.
    + eapply reported_ext; [..|apply HJ]; done.
Qed.

Lemma trace_inv_step st ev : trace_inv a st -> trace_inv a (step fs a st ev).
Proof.
  destruct ev; simpl;
    auto using trace_inv_poll, trace_inv_worker_start, trace_inv_worker_finish, trace_inv_terminate.
Qed.

Lemma trace_inv_execute now schedule : trace_inv a (execute fs a now schedule).
Proof.
  apply execute_ind; [|auto using trace_inv_step]. split; [done | apply quiet_nil].
Qed.

(** C3, as the code has it. When [run] returns, which it does after the
    idle time has expired or after [terminate()], the trace ends with the
    one call of [notifier.finished()], and the summary report comes before
    it. When [run] raises, [notifier.finished()] has not been called. *)
Theorem finished_once_after_report (now : Q) (schedule : list event) :
  let st := execute fs a now schedule in
  (at_ st = Exited None ->
   exists before c after,
     trace st = before ++ report_of a c st ++ after ++ [Finished]
     /\ ~ In Finished (before ++ report_of a c st ++ after))
  /\ (forall e, at_ st = Exited (Some e) -> ~ In Finished (trace st)).
Proof.
  pose proof (trace_inv_execute now schedule) as HJ. unfold trace_inv in HJ. split.
  - intros Hpc. rewrite Hpc in HJ. apply HJ.
  - intros e Hpc. rewrite Hpc in HJ. apply HJ.
Qed.

End Runs.

(** ** The table of handles and the errors of a run *)

Section Dict.
Implicit Types (d : dict) (k : string) (v : nat).

Lemma getitem_setitem_eq k v d : getitem k (setitem k v d) = Some v.
Proof.
  unfold getitem. induction d as [|[k' v'] d IH]; simpl.
  - by rewrite bool_decide_eq_true_2.
  - destruct (bool_decide_reflect (k' = k)) as [->|Hne]; simpl.
    + by rewrite bool_decide_eq_true_2.
    + by rewrite bool_decide_eq_false_2.
Qed.

Lemma getitem_setitem_ne k k' v d :
  k <> k' -> getitem k' (setitem k v d) = getitem k' d.
Proof.
  intros Hne. unfold getitem. induction d as [|[k0 v0] d IH]; simpl.
  - by rewrite bool_decide_eq_false_2.
  - destruct (bool_decide_reflect (k0 = k)) as [->|Hne0]; simpl.
    + by rewrite !bool_decide_eq_false_2.
    + destruct (bool_decide (k0 = k')); [done | apply IH].
Qed.


End Dict.

Section Keys.
Variables (fs : filesystem) (a : args).
Implicit Types (st : state) (ev : event) (j k : nat) (f : future).

Lemma worker_start_frame j st :
  at_ (worker_start j st) = at_ st
  /\ futures (worker_start j st) = futures st
  /\ dests (worker_start j st) = dests st.
Proof. unfold worker_start. by repeat case_match. Qed.

Lemma worker_finish_frame j r st :
  at_ (worker_finish a j r st) = at_ st
  /\ futures (worker_finish a j r st) = futures st
  /\ dests (worker_finish a j r st) = dests st.
Proof. unfold worker_finish. by repeat case_match. Qed.








End Keys.

(** ** One job in flight for each destination *)

Section InFlight.
Variables (fs : filesystem) (a : args).
Implicit Types (st : state) (ev : event) (j k : nat) (f : future).

Lemma tracked_nil tbl : tracked tbl [].
Proof. by intros j f ?. Qed.

Lemma tracked_shrink tbl (p p' : list future) :
  (forall k f', p' !! k = Some f' ->
     exists f, p !! k = Some f /\ target f' = target f
               /\ (in_flight f' = true -> in_flight f = true)) ->
  tracked tbl p -> tracked tbl p'.
Proof.
  intros H Ht k f' Hk Hf'. destruct (H k f' Hk) as (f & Hf & -> & Hin).
  by apply Ht, Hin.
Qed.

Lemma tracked_insert tbl (p : list future) j f f' :
  p !! j = Some f -> target f' = target f ->
  (in_flight f' = true -> in_flight f = true) ->
  tracked tbl p -> tracked tbl (<[j := f']> p).
Proof.
  intros Hj Ht Hin. apply tracked_shrink. intros k g Hk.
  destruct (decide (k = j)) as [->|Hne].
  - rewrite list_lookup_insert_eq in Hk by (by eapply lookup_lt_Some).
    injection Hk as <-. by exists f.
  - rewrite list_lookup_insert_ne in Hk by done. by exists g.
Qed.

Lemma tracked_submit tbl (p : list future) d :
  (forall j f, p !! j = Some f -> in_flight f = true -> target f <> d) ->
  tracked tbl p ->
  tracked (setitem d (length p) tbl) (p ++ [Future d PENDING false]).
Proof.
  intros Hd Ht j f Hj Hf.
  apply lookup_app_Some in Hj as [Hj|[Hlen Hj]].
  - rewrite getitem_setitem_ne; [by apply Ht|].
    intros Heq. by apply (Hd j f).
  - apply list_lookup_singleton_Some in Hj as [Hj <-]. simpl.
    rewrite getitem_setitem_eq. f_equal. lia.
Qed.

Lemma tracked_cancel_all tbl js st :
  tracked tbl (pool st) -> tracked tbl (pool (cancel_all js st)).
Proof.
  apply tracked_shrink. intros k f'. rewrite cancel_all_lookup.
  destruct (decide (k ∈ js)); [|by exists f'].
  destruct (pool st !! k) as [f|]; [|done]. simpl. intros [= <-].
  exists f. split; [done|]. unfold cancel_future, in_flight.
  destruct f as [d [] cb]; simpl; auto.
Qed.

Lemma tracked_terminate tbl st :
  tracked tbl (pool st) -> tracked tbl (pool (terminate st)).
Proof. rewrite terminate_pool. apply tracked_cancel_all. Qed.

Lemma jobs_inv_poll st now ans :
  NoDup (sanitized fs a) -> jobs_inv st -> jobs_inv (poll fs a now ans st).
Proof.
  intros Hnd HI. unfold poll. unfold jobs_inv in HI.
  destruct (at_ st) as [| |todo acc|todo| | | |todo|k todo| |n|e| | |e] eqn:Hpc.
  - done.
  - unfold _run_start. unfold sanitized in Hnd.
    destruct (_sanitize_destinations fs (destinations a)) as [ws ds].
    simpl in Hnd. destruct ds as [|d ds]; unfold jobs_inv; simpl; rewrite HI.
    + apply tracked_nil.
    + split; [apply tracked_nil|]. by split.
  - destruct HI as (Ht & Hnd' & Hnone).
    destruct todo as [|d todo]; unfold jobs_inv; simpl; [done|].
    apply NoDup_cons in Hnd' as [Hd Hnd']. split; [|split; [done|]].
    + apply tracked_submit; [|done]. intros j f Hj Hf Heq.
      specialize (Ht j f Hj Hf). rewrite Heq, Hnone in Ht; [done | by left].
    + intros d' Hd'. rewrite getitem_setitem_ne; [apply Hnone; by right|].
      by intros ->.
  - destruct todo as [|j todo]; unfold jobs_inv; simpl; [done|].
    unfold add_done_callback. destruct (pool st !! j) as [f|] eqn:Hj; [|done].
    destruct (done (fst_ f)); simpl; by eapply tracked_insert.
  - unfold is_running. by destruct (_running st).
  - unfold jobs_inv. simpl. by case_match.
  - simpl. by case_match.
  - destruct todo as [|d todo]; [done|].
    unfold _run_for, submit. destruct ans as [|[|]|n|c|e']; try done.
    + unfold jobs_inv. by rewrite Hpc.
    + simpl. destruct (getitem d (futures st)) as [j|] eqn:Hd; [|done].
      destruct (done (state_of j _)) eqn:Hdone; [|done].
      unfold jobs_inv. simpl. apply tracked_submit; [|done].
      intros j' f Hj' Hf Heq. specialize (HI j' f Hj' Hf).
      rewrite Heq, Hd in HI. injection HI as ->.
      unfold state_of in Hdone. simpl in Hdone. rewrite Hj' in Hdone.
      unfold in_flight in Hf. by rewrite Hdone in Hf.
    + unfold jobs_inv. by rewrite Hpc.
    + unfold jobs_inv. by rewrite Hpc.
  - unfold jobs_inv. simpl.
    unfold add_done_callback. destruct (pool st !! k) as [f|] eqn:Hj; [|done].
    destruct (done (fst_ f)); simpl; by eapply tracked_insert.
  - unfold _run_delete.
    repeat case_match; unfold jobs_inv; simpl; try done; by rewrite Hpc.
  - destruct n; [done|]. unfold is_running. by destruct (_running st).
  - repeat case_match; unfold jobs_inv; simpl; try done; by rewrite Hpc.
  - repeat case_match; unfold jobs_inv; simpl; try done; by rewrite Hpc.
  - done.
  - unfold jobs_inv. by rewrite Hpc.
Qed.

Lemma jobs_inv_pool st (p : list future) :
  at_ (set_pool p st) = at_ st ->
  (pool st = [] -> p = []) ->
  (forall tbl, tracked tbl (pool st) -> tracked tbl p) ->
  jobs_inv st -> forall st', at_ st' = at_ st -> futures st' = futures st ->
                      pool st' = p -> jobs_inv st'.
Proof.
  intros _ Hnil Ht HI st' Hpc Hf Hp. unfold jobs_inv in *. rewrite Hpc, Hf, Hp.
  destruct (at_ st); auto. destruct HI as (? & ? & ?). auto.
Qed.

Lemma jobs_inv_worker_start st j : jobs_inv st -> jobs_inv (worker_start j st).
Proof.
  intros HI. unfold worker_start.
  destruct (pool st !! j) as [f|] eqn:Hj; [|done].
  destruct (can_start j st) eqn:Hc; [|done].
  eapply (jobs_inv_pool st); [done| | |done..].
  - intros Hp. by rewrite Hp in Hj.
  - intros tbl. apply (tracked_insert _ _ _ f); [done..|].
    intros _. unfold can_start, state_of in Hc. rewrite Hj in Hc.
    unfold in_flight. by destruct (fst_ f).
Qed.

Lemma jobs_inv_worker_finish st j r : jobs_inv st -> jobs_inv (worker_finish a j r st).
Proof.
  intros HI. unfold worker_finish.
  destruct (pool st !! j) as [f|] eqn:Hj; [|done].
  destruct (running (fst_ f)) eqn:Hr; [|done].
  destruct (robocopy_call _ _ _ _ _ _) as [logs res].
  eapply (jobs_inv_pool st); [done| | |done..].
  - intros Hp. by rewrite Hp in Hj.
  - intros tbl. by apply (tracked_insert _ _ _ f).
Qed.

Lemma jobs_inv_terminate st : jobs_inv st -> jobs_inv (terminate st).
Proof.
  intros HI. destruct (terminate_frame st) as (Hpc & _).
  eapply (jobs_inv_pool st (pool (terminate st)));
    [done| | |done|done|apply terminate_futures|done].
  - intros Hp. by rewrite all_done_terminate by (by apply all_done_nil);
      destruct (_running st).
  - intros tbl. apply tracked_terminate.
Qed.

Lemma jobs_inv_step st ev : NoDup (sanitized fs a) -> jobs_inv st -> jobs_inv (step fs a st ev).
Proof.
  destruct ev; simpl;
    auto using jobs_inv_poll, jobs_inv_worker_start, jobs_inv_worker_finish, jobs_inv_terminate.
Qed.


(** Jobs are only added, and in the loop only for a destination that
    has drifted and whose handle is done. *)
Lemma cancel_length j st : length (pool (cancel j st)) = length (pool st).
Proof.
  unfold cancel. repeat case_match; simpl; by rewrite ?length_insert.
Qed.

Lemma terminate_length st : length (pool (terminate st)) = length (pool st).
Proof.
  rewrite terminate_pool. unfold cancel_all.
  generalize (values (futures st)). intros js. revert st.
  induction js as [|j js IH]; intros st; simpl; [done|].
  by rewrite IH, cancel_length.
Qed.



End InFlight.

(** *** Sample runs *)

Lemma finished_once_after_report_witness :
  exists before c after,
    trace (execute sample_fs (sample_args (One "D") false) 0 idle_run)
    = before
      ++ report_of (sample_args (One "D") false) c
           (execute sample_fs (sample_args (One "D") false) 0 idle_run)
      ++ after ++ [Finished]
    /\ ~ In Finished
         (before
          ++ report_of (sample_args (One "D") false) c
               (execute sample_fs (sample_args (One "D") false) 0 idle_run)
          ++ after).
Proof.
  apply (proj1 (finished_once_after_report
                  sample_fs (sample_args (One "D") false) 0 idle_run)).
  vm_compute. reflexivity.
Defined.

(** C3 as stated fails: when no destination is left, [run] stops with an
    error and [notifier.finished()] is not called. *)
Lemma finished_not_called_on_error :
  at_ (execute sample_fs (sample_args (Many []) false) 0 startup)
  = Exited (Some (RuntimeError "Need at least one destination to copy to."))
  /\ ~ In Finished
        (trace (execute sample_fs (sample_args (Many []) false) 0 startup)).
Proof.
  split; [vm_compute; reflexivity|]. apply quiet_logs. vm_compute.
  reflexivity.
Qed.

Lemma is_running_follows_scope_witness :
  is_running (execute sample_fs (sample_args (One "D") false) 0 []) = false
  /\ is_running (execute sample_fs (sample_args (One "D") false) 0 startup)
     = true
  /\ is_running (execute sample_fs (sample_args (One "D") false) 0
                         (startup ++ Terminate :: idle_run))
     = false.
Proof.
  destruct (is_running_follows_scope
              sample_fs (sample_args (One "D") false) 0 []) as (H1 & _).
  destruct (is_running_follows_scope
              sample_fs (sample_args (One "D") false) 0 startup)
    as (_ & H2 & _).
  destruct (is_running_follows_scope
              sample_fs (sample_args (One "D") false) 0
              (startup ++ Terminate :: idle_run)) as (_ & _ & _ & H4).
  split_and!.
  - apply H1. reflexivity.
  - apply H2.
    + unfold startup. intros H.
      repeat (apply elem_of_cons in H as [H|H]; [discriminate|]).
      by apply elem_of_nil in H.
    + vm_compute. reflexivity.
  - apply (H4 startup idle_run); [reflexivity|]. vm_compute. discriminate.
Defined.

(** C7 as stated fails: after [terminate()] the thread is still inside
    [run], and [is_running()] is false. *)
Lemma not_running_inside_run :
  in_scope (at_ (execute sample_fs (sample_args (One "D") false) 0
                         terminated_early)) = true
  /\ is_running (execute sample_fs (sample_args (One "D") false) 0
                         terminated_early) = false.
Proof. split; vm_compute; reflexivity. Qed.





Lemma terminate_idempotent_witness :
  pool (terminate
          (execute two_folders (sample_args (Many ["D"; "E"]) false) 0
                   one_running_one_queued))
  !! 1%nat
  = Some (Future "E" CANCELLED false)
  /\ pool (terminate
             (execute two_folders (sample_args (Many ["D"; "E"]) false) 0
                      one_running_one_queued))
     !! 0%nat
     = Some (Future "D" RUNNING false).
Proof.
  pose proof (terminate_idempotent
                (execute two_folders (sample_args (Many ["D"; "E"]) false) 0
                         one_running_one_queued))
    as (_ & _ & Hcancel & Hkeep & _).
  split.
  - apply (Hcancel 1%nat (Future "E" PENDING false)).
    + vm_compute. apply list_elem_of_In. right. by left.
    + vm_compute. reflexivity.
    + reflexivity.
  - apply (Hkeep 0%nat (Future "D" RUNNING false)).
    + vm_compute. reflexivity.
    + reflexivity.
Defined.

(** C6: the code departs from the claim. [terminate()] is to keep queued
    jobs from starting, and cancels the handles in [self.futures] only.
    While the dict comprehension of [_run] has not been left, the job for D
    is queued and [self.futures] is still empty: after [terminate()] the
    running flag is false, the job is still pending, and a worker starts
    it. With the destination D given twice, the second handle takes the
    place of the first in [self.futures]: [terminate()] cancels the second
    job, and the first is started afterwards. *)
Lemma terminate_misses_unrecorded_jobs :
  (futures (execute sample_fs (sample_args (One "D") false) 0 queueing) = []
   /\ pool (execute sample_fs (sample_args (One "D") false) 0 queueing)
      = [Future "D" PENDING false]
   /\ is_running
        (terminate (execute sample_fs (sample_args (One "D") false) 0
                            queueing))
      = false
   /\ pool (terminate (execute sample_fs (sample_args (One "D") false) 0
                               queueing))
      = [Future "D" PENDING false]
   /\ pool (execute sample_fs (sample_args (One "D") false) 0
                    (queueing ++ [Terminate; WorkerStart 0]))
      = [Future "D" RUNNING false])
  /\ (futures (execute sample_fs (sample_args (Many ["D"; "D"]) false) 0
                       shadowing)
      = [("D", 1%nat)]
      /\ pool (execute sample_fs (sample_args (Many ["D"; "D"]) false) 0
                       shadowing)
         = [Future "D" PENDING false; Future "D" PENDING false]
      /\ pool (terminate
                 (execute sample_fs (sample_args (Many ["D"; "D"]) false) 0
                          shadowing))
         = [Future "D" PENDING false; Future "D" CANCELLED false]
      /\ pool (execute sample_fs (sample_args (Many ["D"; "D"]) false) 0
                       (shadowing ++ [Terminate; WorkerStart 0]))
         = [Future "D" RUNNING false; Future "D" CANCELLED false]).
Proof. vm_compute. by split_and!. Qed.

Lemma sanitize_destinations_keeps_existing_witness :
  In "D" (_sanitize_destinations sample_fs (Many [""; "E"; "D"])).2.
Proof.
  apply (proj1 (proj2 (sanitize_destinations_keeps_existing
                         sample_fs [""; "E"; "D"] "D"))).
  split; [|split].
  - right. right. by left.
  - discriminate.
  - reflexivity.
Defined.

(** * Further properties of the code *)

(** ** What the parser returns, for every output *)

Section Records.
Implicit Types (st res : mstate) (s w m r : str) (p : N -> bool).

Ltac tidy :=
  unfold open_group, close_group;
  cbn [prev rest opened caps pushed List.map List.find List.filter fst snd
       Nat.eqb negb].

Lemma greedy_inv p min kont s :
  forall b o c n res,
    greedy p min kont s (MState b s o c) n = Some res ->
    exists w s',
      s = w ++ s' /\ Forall (fun x => p x = true) w
      /\ (min <= n + length w)%nat
      /\ kont (MState (last_char b w) s' (pushed w o) c) = Some res.
Proof.
  induction s as [|x r IH]; intros b o c n res; simpl.
  - destruct (Nat.leb_spec min n); [|done]. intros Hk.
    exists [], []. rewrite pushed_nil, Nat.add_0_r. by repeat split.
  - assert (Hstop :
        (if (min <=? n)%nat then kont (MState b (x :: r) o c) else None)
        = Some res ->
        exists w s',
          x :: r = w ++ s' /\ Forall (fun x => p x = true) w
          /\ (min <= n + length w)%nat
          /\ kont (MState (last_char b w) s' (pushed w o) c) = Some res).
    { destruct (Nat.leb_spec min n); [|done]. intros Hk.
      exists [], (x :: r). rewrite pushed_nil, Nat.add_0_r. by repeat split. }
    destruct (p x) eqn:Hx; [|done]. unfold eat. simpl.
    destruct (greedy p min kont r _ (S n)) as [res'|] eqn:Hg; [|done].
    intros [= ->]. apply IH in Hg as (w & s' & -> & Hw & Hn & Hk).
    exists (x :: w), s'. rewrite last_char_cons, <- pushed_cons. simpl.
    repeat split; auto with lia.
Qed.

Lemma exec_repeat_inv p min ops b s o c res :
  exec (Repeat min p :: ops) (MState b s o c) = Some res ->
  exists w s',
    s = w ++ s' /\ Forall (fun x => p x = true) w /\ (min <= length w)%nat
    /\ exec ops (MState (last_char b w) s' (pushed w o) c) = Some res.
Proof. simpl. intros H. by apply greedy_inv in H. Qed.

Lemma exec_lits_inv w ops :
  forall b s o c res,
    exec (List.map Lit w ++ ops) (MState b s o c) = Some res ->
    exists r,
      s = w ++ r
      /\ exec ops (MState (last_char b w) r (pushed w o) c) = Some res.
Proof.
  induction w as [|x w IH]; intros b s o c res; simpl.
  - intros H. exists s. by rewrite pushed_nil.
  - destruct s as [|y r]; [done|]. destruct (N.eqb_spec y x) as [->|]; [|done].
    unfold eat. simpl. intros (r' & -> & H)%IH. exists r'.
    by rewrite last_char_cons, <- pushed_cons.
Qed.

(** A match of the error pattern: the three groups are closed with a
    number, and an action and a reason that stay on their lines. *)
Lemma exec_pattern_inv before s res :
  exec pattern (start before s) = Some res ->
  exists number what why,
    caps res = [(3%nat, why); (2%nat, what); (1%nat, number)]
    /\ some is_digit number
    /\ Forall (fun x => is_dot x = true) what
    /\ Forall (fun x => is_dot x = true) why.
Proof.
  rewrite pattern_eq. unfold start.
  intros (r0 & -> & H)%exec_lits_inv. revert H. tidy.
  intros (w1 & r1 & -> & _ & _ & H)%exec_repeat_inv. revert H.
  rewrite exec_open. tidy.
  intros (num & r2 & -> & Hnum & Hlen & H)%exec_repeat_inv. revert H.
  rewrite exec_close. tidy. rewrite app_nil_r, rev_involutive.
  intros (w2 & r3 & -> & _ & _ & H)%exec_repeat_inv. revert H. tidy.
  intros (r4 & -> & H)%exec_lits_inv. revert H. tidy.
  intros (hx & r5 & -> & _ & _ & H)%exec_repeat_inv. revert H. tidy.
  intros (r6 & -> & H)%exec_lits_inv. revert H. tidy.
  intros (w3 & r7 & -> & _ & _ & H)%exec_repeat_inv. revert H.
  rewrite exec_open. tidy.
  intros (what & r8 & -> & Hwhat & _ & H)%exec_repeat_inv. revert H.
  rewrite exec_close. tidy. rewrite app_nil_r, rev_involutive.
  change (Lit nl :: ?ops) with (List.map Lit [nl] ++ ops).
  intros (r9 & -> & H)%exec_lits_inv. revert H. tidy.
  rewrite exec_bol by reflexivity. rewrite exec_open. tidy.
  intros (why & r10 & -> & Hwhy & _ & H)%exec_repeat_inv. revert H.
  rewrite exec_close. tidy. rewrite app_nil_r, rev_involutive.
  simpl. destruct (at_eol _); [|done]. intros [= <-].
  exists num, what, why. simpl. split; [done|]. split; [|done].
  split; [|done]. intros ->. simpl in Hlen. lia.
Qed.

Lemma scan_Forall ops (P : mstate -> Prop) :
  (forall b s res, exec ops (start b s) = Some res -> P res) ->
  forall s skip b, Forall P (scan ops skip b s).
Proof.
  intros HP. induction s as [|c r IH]; intros skip b.
  - destruct skip; simpl; [|done].
    destruct (exec ops (start b [])) eqn:He; [|done].
    constructor; [by eapply HP | done].
  - destruct skip; [|apply IH]. rewrite scan_0_cons.
    destruct (exec ops (start b (c :: r))) eqn:He; [|apply IH].
    constructor; [by eapply HP | apply IH].
Qed.

Lemma scan_In_matches ops :
  forall s skip before res,
    In res (scan ops skip before s) ->
    exists pre m post,
      s = pre ++ m ++ post /\ matches ops (last_char before pre) m post.
Proof.
  assert (forall s before res,
            exec ops (start before s) = Some res ->
            exists pre m post,
              s = pre ++ m ++ post
              /\ matches ops (last_char before pre) m post) as Hhere.
  { intros s before res (m & Hm & HM)%exec_sound. simpl in *.
    by exists [], m, (rest res). }
  assert (forall c r before,
            (exists pre m post,
               r = pre ++ m ++ post
               /\ matches ops (last_char (Some c) pre) m post) ->
            exists pre m post,
              c :: r = pre ++ m ++ post
              /\ matches ops (last_char before pre) m post) as Hnext.
  { intros c r before (pre & m & post & -> & HM).
    exists (c :: pre), m, post. by rewrite last_char_cons. }
  induction s as [|c r IH]; intros skip before res.
  - destruct skip; simpl; [|done].
    destruct (exec ops (start before [])) eqn:He; [|done].
    intros _. by eapply Hhere.
  - destruct skip; [|intros ?; eapply Hnext, IH; eassumption].
    rewrite scan_0_cons.
    destruct (exec ops (start before (c :: r))) eqn:He.
    + intros [<-|Hin]; [by eapply Hhere | by eapply Hnext, IH].
    + intros Hin. by eapply Hnext, IH.
Qed.

Lemma findall_cons_match text :
  findall pattern text <> [] -> contains_match text.
Proof.
  unfold findall. destruct (scan pattern 0 None text) as [|st l] eqn:Hs;
    [done|]. intros _.
  apply (scan_In_matches pattern text 0%nat None st). rewrite Hs. by left.
Qed.

Lemma Forall_strip (P : N -> Prop) c s : Forall P s -> Forall P (strip c s).
Proof.
  destruct (strip_spec c s) as (a & b & Hs & _). intros H.
  rewrite Hs in H. by apply Forall_app in H as [_ [H _]%Forall_app].
Qed.

(** X1: the parser raises nothing but the UnicodeDecodeError, and that
    exactly when the output is not UTF-8; it returns records exactly when
    the text holds a block that the pattern matches; and it never returns
    an empty list. *)
Theorem parse_outcome (output : bytes) :
  (forall e, (parse_errors_from_robocopy_stdout output).2 = Raise e ->
             e = UnicodeDecodeError)
  /\ (decode_utf8 output = None <->
      (parse_errors_from_robocopy_stdout output).2 = Raise UnicodeDecodeError)
  /\ (forall text, decode_utf8 output = Some text ->
        (contains_match text <->
         exists infos,
           (parse_errors_from_robocopy_stdout output).2 = Return (Some infos)))
  /\ (parse_errors_from_robocopy_stdout output).2 <> Return (Some []).
Proof.
  destruct (decode_utf8 output) as [text|] eqn:Hd.
  - rewrite (parse_decoded _ _ Hd).
    destruct (findall pattern text) as [|m ms] eqn:Hf; simpl.
    + split_and!; try done.
      intros ? [= <-]. split; [|by intros [? ?]].
      intros Hc. by apply findall_nil_iff in Hf.
    + split_and!; try done.
      intros ? [= <-]. split; [by eexists|]. intros _.
      apply findall_cons_match. by rewrite Hf.
  - unfold parse_errors_from_robocopy_stdout. rewrite Hd. simpl.
    split_and!; try done. by intros e [= <-].
Qed.

Lemma dots_no_nl s : Forall (fun x => is_dot x = true) s -> nl ∉ s.
Proof.
  intros H Hin. rewrite Forall_forall in H. by apply H in Hin.
Qed.

Lemma findall_records_ok (text : str) :
  Forall record_ok
         (List.map (fun m : str * str * str =>
                      mkInfo (strip cr m.1.1) (strip cr m.1.2) (strip cr m.2))
                   (findall pattern text)).
Proof.
  unfold findall. rewrite List.map_map. apply List.Forall_map.
  eapply Forall_impl;
    [exact (scan_Forall pattern _ exec_pattern_inv text 0%nat None)|].
  intros st' (number & what & why & Hc & Hn & Hwhat & Hwhy).
  unfold record_ok, group_text. rewrite Hc. simpl.
  rewrite (strip_number _ Hn).
  destruct (strip_spec cr what) as (_ & _ & _ & _ & _ & ? & ?).
  destruct (strip_spec cr why) as (_ & _ & _ & _ & _ & ? & ?).
  split_and!; try done; by apply dots_no_nl, Forall_strip.
Qed.

Lemma parse_some (output : bytes) (infos : list RobocopyErrorInfo) :
  (parse_errors_from_robocopy_stdout output).2 = Return (Some infos) ->
  exists text,
    decode_utf8 output = Some text /\ findall pattern text <> []
    /\ infos = List.map (fun m : str * str * str =>
                           mkInfo (strip cr m.1.1) (strip cr m.1.2)
                                  (strip cr m.2))
                        (findall pattern text).
Proof.
  destruct (decode_utf8 output) as [text|] eqn:Hd;
    [|by unfold parse_errors_from_robocopy_stdout; rewrite Hd].
  rewrite (parse_decoded _ _ Hd). intros H. exists text. split; [done|].
  destruct (findall pattern text); [done|]. split; [done|]. by injection H.
Qed.

(** X2: every record that the parser returns has a number as its code, and
    an action and a reason that are single lines without a carriage return
    at either end; and there is at least one record. *)
Theorem parse_records_shape (output : bytes)
    (infos : list RobocopyErrorInfo) :
  (parse_errors_from_robocopy_stdout output).2 = Return (Some infos) ->
  infos <> [] /\ Forall record_ok infos.
Proof.
  intros (text & _ & Hne & ->)%parse_some. split.
  - by destruct (findall pattern text).
  - apply findall_records_ok.
Qed.

End Records.

(** ** The message of a [RobocopyError] *)

Section Message.

Lemma str_fold (infos : list RobocopyErrorInfo) :
  forall msg,
    fold_left
      (fun msg i =>
         msg ++ u "  [Code " ++ code i ++ u "] " ++ action i ++ u ": "
             ++ reason i ++ [nl])
      infos msg
    = msg ++ concat (List.map issue_line infos).
Proof.
  induction infos as [|i infos IH]; intros msg;
    cbn [fold_left List.map concat].
  - by rewrite app_nil_r.
  - rewrite IH. unfold issue_line. by rewrite <- !(assoc_L (++)).
Qed.

Lemma lines_app s t : lines (s ++ t) = (lines s + lines t)%nat.
Proof. apply count_occ_app. Qed.

Lemma lines_0 s : nl ∉ s -> lines s = 0%nat.
Proof.
  intros H. apply count_occ_not_In. by rewrite <- list_elem_of_In.
Qed.

Lemma uint_no_nl (d : Decimal.uint) : nl ∉ u (NilEmpty.string_of_uint d).
Proof.
  induction d; simpl; try (by apply not_elem_of_nil);
    (apply not_elem_of_cons; split; [done|exact IHd]).
Qed.

Lemma decimal_no_nl (n : Z) : nl ∉ RobocopyError.decimal n.
Proof.
  unfold RobocopyError.decimal.
  destruct (Z.to_int n) as [d|d]; simpl.
  - destruct d; try apply (uint_no_nl (_ d)).
    by apply not_elem_of_cons; split; [|apply not_elem_of_nil].
  - apply not_elem_of_cons; split; [done|].
    destruct d; try apply (uint_no_nl (_ d)).
    by apply not_elem_of_cons; split; [|apply not_elem_of_nil].
Qed.

Lemma issue_line_lines i : record_ok i -> lines (issue_line i) = 1%nat.
Proof.
  intros ([_ Hc] & Ha & Hr & _). unfold issue_line.
  rewrite !lines_app, (lines_0 (code i)), (lines_0 (action i)),
    (lines_0 (reason i)); [done..|].
  intros Hin. rewrite Forall_forall in Hc. by apply Hc in Hin.
Qed.

Lemma concat_lines infos :
  Forall record_ok infos ->
  lines (concat (List.map issue_line infos)) = length infos.
Proof.
  induction 1 as [|i infos Hi _ IH]; [done|].
  cbn [List.map concat length].
  by rewrite lines_app, issue_line_lines, IH.
Qed.

Lemma str_some rc i infos :
  RobocopyError.__str__ rc (Some (i :: infos))
  = message_head rc ++ u " The following issues were encountered:" ++ [nl]
    ++ concat (List.map issue_line (i :: infos)).
Proof.
  unfold RobocopyError.__str__, message_head. rewrite str_fold.
  by rewrite <- !(assoc_L (++)).
Qed.

Lemma str_none rc info :
  info = None \/ info = Some [] ->
  RobocopyError.__str__ rc info
  = message_head rc ++ u " No detailled information available.".
Proof.
  unfold RobocopyError.__str__, message_head.
  intros [-> | ->]; by rewrite <- !(assoc_L (++)).
Qed.

Lemma message_head_lines rc : lines (message_head rc) = 0%nat.
Proof.
  unfold message_head. rewrite !lines_app, (lines_0 _ (decimal_no_nl rc)).
  done.
Qed.

Lemma str_lines rc infos :
  infos <> [] -> Forall record_ok infos ->
  lines (RobocopyError.__str__ rc (Some infos)) = S (length infos).
Proof.
  destruct infos as [|i infos]; [done|]. intros _ Hok.
  rewrite str_some, !lines_app, message_head_lines, concat_lines by done.
  done.
Qed.

(** X3: the message of the exception that [from_error] builds starts with
    the exit code, and has one line for each record that was parsed, after
    the line that introduces them; without records it is a single line
    without a line break. *)
Theorem error_message_lines (rc : Z) (output : bytes) (logs : list effect)
    (e : exn) :
  RobocopyError.from_error rc output = (logs, Return e) ->
  exists info rest,
    e = RobocopyError rc info
    /\ RobocopyError.__str__ rc info = message_head rc ++ rest
    /\ lines (RobocopyError.__str__ rc info)
       = match info with
         | None => 0%nat
         | Some infos => S (length infos)
         end.
Proof.
  unfold RobocopyError.from_error.
  destruct (parse_errors_from_robocopy_stdout output) as [l [info|e']] eqn:Hp;
    [|done].
  intros [= -> <-]. exists info.
  destruct info as [infos|].
  - assert ((parse_errors_from_robocopy_stdout output).2
            = Return (Some infos)) as (text & _ & Hne & Hi)%parse_some
      by (by rewrite Hp).
    assert (Forall record_ok infos) as Hok
      by (rewrite Hi; apply findall_records_ok).
    assert (infos <> []) as Hne'
      by (rewrite Hi; by destruct (findall pattern text)).
    destruct infos as [|i infos]; [done|].
    eexists. split; [done|]. split; [apply str_some|].
    by apply str_lines.
  - eexists. split; [done|]. split; [by apply str_none; left|].
    rewrite str_none by (by left).
    by rewrite lines_app, message_head_lines.
Qed.

End Message.

(** ** What [robocopy_call] logs *)

Section CallLogs.

(** X4: whatever the program does, [robocopy_call] writes debug records
    only, and none at all when the program ends with status 0 or cannot be
    started. *)
Theorem robocopy_call_logs_debug_only
    (run : list string -> bool -> proc_result)
    (source dest skip_files : string) (silent secure_mode : bool) :
  let out := robocopy_call run source dest silent secure_mode skip_files in
  Forall (fun e => exists fmt args, e = Log DEBUG fmt args) out.1
  /\ (forall e, out.2 = Raise e -> (exists msg, e = OSError msg) -> out.1 = [])
  /\ (out.1 = [] -> out.2 = Return tt \/ exists msg, out.2 = Raise (OSError msg)).
Proof.
  unfold robocopy_call.
  destruct (run _ _) as [rc output|msg]; simpl.
  2: { split_and!; [done|done|]. intros _. right. by eexists. }
  destruct rc as [|p|p]; simpl.
  - split_and!; [done|done|by left].
  - destruct (8 <=? Z.pos p)%Z.
    + unfold RobocopyError.from_error, parse_errors_from_robocopy_stdout.
      destruct (decode_utf8 output) as [text|]; simpl.
      * destruct (findall pattern text); simpl.
        -- split_and!; [|by intros ? [= <-] [? ?]|done].
           repeat constructor; by eexists _, _.
        -- split_and!; [|by intros ? [= <-] [? ?]|done].
           repeat constructor; by eexists _, _.
      * split_and!; [|by intros ? [= <-] [? ?]|done].
        repeat constructor; by eexists _, _.
    + destruct (_ && _); simpl; (split_and!; [|done|done]);
        repeat constructor; by eexists _, _.
  - split_and!; [|done|done]. repeat constructor; by eexists _, _.
Qed.

End CallLogs.

(** ** The warnings of [_sanitize_destinations] *)

Section SanitizeWarnings.
Variable fs : filesystem.

Lemma filter_filter {A} (f : A -> bool) (l : list A) :
  List.filter f (List.filter f l) = List.filter f l.
Proof.
  induction l as [|x l IH]; [done|]. simpl.
  destruct (f x) eqn:Hx; [|done]. simpl. by rewrite Hx, IH.
Qed.

Lemma sanitize_Many (ds : list string) :
  _sanitize_destinations fs (Many ds)
  = (flat_map
       (fun dest =>
          if bool_decide (dest = "") then []
          else if negb (isdir fs dest)
               then [Log WARNING "Destination %s does not exist!" [AStr dest]]
               else [])
       ds,
     List.filter (fun dest => bool_decide (dest <> "") && exists_ fs dest) ds).
Proof. done. Qed.

Lemma sanitize_warning_In (ds : list string) (e : effect) :
  In e (_sanitize_destinations fs (Many ds)).1
  <-> exists d, e = Log WARNING "Destination %s does not exist!" [AStr d]
                /\ In d ds /\ d <> "" /\ isdir fs d = false.
Proof.
  rewrite sanitize_Many. simpl. rewrite in_flat_map. split.
  - intros (d & Hin & He). exists d.
    destruct (bool_decide_reflect (d = "")); [done|].
    destruct (isdir fs d); [done|]. simpl in He.
    destruct He as [<-|[]]. done.
  - intros (d & -> & Hin & Hne & Hdir). exists d. split; [done|].
    rewrite bool_decide_eq_false_2, Hdir by done. by left.
Qed.

(** X5: cleaning up a list that has been cleaned up changes nothing. *)
Theorem sanitize_destinations_idempotent (destinations : dest_arg) :
  (_sanitize_destinations
     fs (Many (_sanitize_destinations fs destinations).2)).2
  = (_sanitize_destinations fs destinations).2.
Proof. destruct destinations; apply filter_filter. Qed.

(** X6: a warning is written for exactly the entries that are not empty and
    not a directory, whether they are kept or not: an entry that exists
    without being a directory is warned about and still copied to. *)
Theorem sanitize_destinations_warnings (ds : list string) (d : string) :
  let out := _sanitize_destinations fs (Many ds) in
  (forall e, In e out.1 ->
             exists x, e = Log WARNING "Destination %s does not exist!"
                               [AStr x])
  /\ (In (Log WARNING "Destination %s does not exist!" [AStr d]) out.1
      <-> In d ds /\ d <> "" /\ isdir fs d = false)
  /\ (In d ds -> d <> "" -> isdir fs d = false -> exists_ fs d = true ->
      In d out.2
      /\ In (Log WARNING "Destination %s does not exist!" [AStr d]) out.1).
Proof.
  intros out. split_and!.
  - intros e (x & -> & _)%sanitize_warning_In. by exists x.
  - unfold out. rewrite sanitize_warning_In. split.
    + by intros (x & [= ->] & ?).
    + intros ?. by exists d.
  - intros Hin Hne Hdir Hex. split.
    + unfold out. rewrite sanitize_Many. simpl. apply filter_In.
      split; [done|]. by rewrite bool_decide_eq_true_2, Hex.
    + apply sanitize_warning_In. by exists d.
Qed.

(** X7: where every directory exists, no destination is dropped in
    silence, but for the empty one. *)
Theorem sanitize_destinations_warns_dropped (ds : list string) (d : string) :
  (forall x, isdir fs x = true -> exists_ fs x = true) ->
  In d ds -> d <> "" ->
  ~ In d (_sanitize_destinations fs (Many ds)).2 ->
  In (Log WARNING "Destination %s does not exist!" [AStr d])
     (_sanitize_destinations fs (Many ds)).1.
Proof.
  intros Hfs Hin Hne Hout. apply sanitize_warning_In. exists d.
  split_and!; try done.
  destruct (isdir fs d) eqn:Hdir; [|done]. destruct Hout.
  rewrite sanitize_Many. simpl. apply filter_In. split; [done|].
  by rewrite bool_decide_eq_true_2, (Hfs _ Hdir).
Qed.

End SanitizeWarnings.

(** ** The summary of [_report] *)

Section Report.
Variables (c : counters) (source skip_files : string) (n_deleted : Z).

Lemma report_In (ds : list string) (e : effect) :
  In e (_report c source ds skip_files n_deleted)
  <-> exists folder,
        In folder (source :: ds)
        /\ In e (report_folder c source skip_files n_deleted folder).
Proof. unfold _report. apply in_flat_map. Qed.

(** X8: the summary consists of records at the levels INFO and ERROR; a
    folder that cannot be counted gets its ERROR record, and that does not
    keep the other folders from being counted. *)
Theorem report_survives_failures (ds : list string) (folder : string) :
  let out := _report c source ds skip_files n_deleted in
  Forall (fun e => exists l fmt args,
                     e = Log l fmt args /\ (l = INFO \/ l = ERROR)) out
  /\ (In folder (source :: ds) -> folder <> "" ->
      forall err,
        count_files_in_subtree c folder = Raise err ->
        In (Log ERROR "Could not count files in %s. Error: %s"
                [AStr folder; AExn err]) out)
  /\ (In folder ds -> folder <> "" -> folder <> source ->
      forall filecount identical,
        count_files_in_subtree c folder = Return filecount ->
        count_identical_files c source folder skip_files = Return identical ->
        In (Log INFO "%d files (total) in %s, %d identical to source"
                [AInt filecount; AStr folder; AInt identical]) out).
Proof.
  intros out. split_and!.
  - apply Forall_forall. intros e Hin. apply list_elem_of_In in Hin.
    apply report_In in Hin as (f & _ & Hin). revert Hin.
    unfold report_folder. repeat case_match; simpl;
      intuition (subst; eauto 6).
  - intros Hin Hne err Herr. apply report_In. exists folder. split; [done|].
    unfold report_folder. rewrite bool_decide_eq_false_2, Herr by done.
    by left.
  - intros Hin Hne Hsrc filecount identical Hc Hi. apply report_In.
    exists folder. split; [by right|].
    unfold report_folder.
    rewrite bool_decide_eq_false_2, Hc, bool_decide_eq_true_2, Hi by done.
    by left.
Qed.

(** X9: the summary tells of deleted files when, and only when, files were
    deleted and the source could be counted; the record names the source
    and the number. *)
Theorem report_deleted_line (ds : list string) (n : Z) (folder : string) :
  In (Log INFO "%d files were deleted from %s" [AInt n; AStr folder])
     (_report c source ds skip_files n_deleted)
  <-> n = n_deleted /\ folder = source /\ (0 < n_deleted)%Z /\ source <> ""
      /\ exists filecount, count_files_in_subtree c source = Return filecount.
Proof.
  rewrite report_In. split.
  - intros (f & _ & Hin). revert Hin. unfold report_folder.
    destruct (bool_decide_reflect (f = "")); [done|].
    destruct (count_files_in_subtree c f) as [k|err] eqn:Hk;
      [|simpl; by intros [|[]]].
    destruct (bool_decide_reflect (f <> source)) as [|Heq].
    + destruct (count_identical_files c source f skip_files);
        simpl; by intros [|[]].
    + assert (f = source) as -> by (by destruct (decide (f = source))).
      destruct (Z.ltb_spec 0 n_deleted); simpl; [|by intros [|[]]].
      intros [?|[[= -> ->]|[]]]; [done|]. split_and!; try done. by exists k.
  - intros (-> & -> & Hpos & Hne & k & Hk). exists source. split; [by left|].
    unfold report_folder.
    rewrite bool_decide_eq_false_2, Hk, bool_decide_eq_false_2 by auto.
    apply Z.ltb_lt in Hpos. rewrite Hpos. right. by left.
Qed.

End Report.

(** ** The jobs of a run *)

(** The fields of a state that one of the setters has built. *)
Ltac fields :=
  cbn [goto emit set_running set_futures set_pool set_locals set_deleted
       _update_changed __enter__ __exit__ submit _wait_has_expired
       trace pool at_ futures dests fst snd].

Section Jobs.
Variables (fs : filesystem) (a : args).
Implicit Types (st : state) (ev : event) (j k : nat) (f : future).

Lemma cancel_change j st :
  pool (cancel j st) = pool st
  \/ pool_change ByTerminate (pool st) (pool (cancel j st)).
Proof.
  unfold cancel. destruct (pool st !! j) as [f|] eqn:Hj; [|by left].
  destruct (pending (fst_ f)) eqn:Hp; [|by left]. right. simpl.
  apply (pool_update _ _ j f); [done|].
  destruct f as [d [] cb]; try done. constructor.
Qed.

Lemma cancel_all_changes js :
  forall st, rtc (pool_change ByTerminate) (pool st)
                 (pool (fold_left (fun st j => cancel j st) js st)).
Proof.
  induction js as [|j js IH]; intros st; simpl; [done|].
  destruct (cancel_change j st) as [Heq|Hc].
  - rewrite <- Heq. apply IH.
  - eapply rtc_l; [exact Hc|apply IH].
Qed.

Lemma terminate_changes st :
  rtc (pool_change ByTerminate) (pool st) (pool (terminate st)).
Proof.
  unfold terminate. simpl. destruct (is_running st).
  - apply (cancel_all_changes _ (emit _ st)).
  - apply (cancel_all_changes _ st).
Qed.

Lemma add_done_callback_change j st :
  pool (add_done_callback j st) = pool st
  \/ pool_change ByPoll (pool st) (pool (add_done_callback j st)).
Proof.
  unfold add_done_callback. destruct (pool st !! j) as [f|] eqn:Hj; [|by left].
  right. assert (pool_change ByPoll (pool st)
                   (<[j := Future (target f) (fst_ f) true]> (pool st))).
  { apply (pool_update _ _ j f); [done|]. destruct f. constructor. }
  by destruct (done (fst_ f)).
Qed.

(** One step of the polling thread queues a job for the destination at
    hand, or attaches the callback to a job, or leaves the jobs alone. *)
Lemma poll_change st now ans :
  pool (poll fs a now ans st) = pool st
  \/ (exists d todo,
        (at_ st = AtFor (d :: todo) \/ exists acc, at_ st = AtSubmit (d :: todo) acc)
        /\ pool (poll fs a now ans st) = pool st ++ [Future d PENDING false])
  \/ pool_change ByPoll (pool st) (pool (poll fs a now ans st)).
Proof.
  unfold poll.
  destruct (at_ st) as [| |todo acc|todo| | | |todo|k todo| |n|e| | |e] eqn:Hpc;
    try (by left).
  - left. unfold _run_start.
    destruct (_sanitize_destinations fs (destinations a)) as [ws ds].
    by destruct ds.
  - destruct todo as [|d todo]; [by left|]. right. left.
    exists d, todo. split; [|done]. right. by exists acc.
  - destruct todo as [|j todo]; [by left|]. simpl.
    destruct (add_done_callback_change j st); auto.
  - left. unfold is_running. by destruct (_running st).
  - left. simpl. by case_match.
  - left. simpl. by case_match.
  - destruct todo as [|d todo]; [by left|]. unfold _run_for.
    destruct ans as [|[|]|n|c|e']; try (by left). simpl.
    destruct (getitem d (futures st)) as [j|]; [|by left].
    destruct (done (state_of j _)); [|by left]. simpl.
    right. left. exists d, todo. by split; [left|].
  - simpl. destruct (add_done_callback_change k st); auto.
  - left. unfold _run_delete. by repeat case_match.
  - left. destruct n; [done|]. unfold is_running. by destruct (_running st).
  - left. by repeat case_match.
  - left. by repeat case_match.
Qed.

Lemma worker_start_change j st :
  worker_start j st = st
  \/ (pool_change ByWorker (pool st) (pool (worker_start j st))
      /\ S (n_running (pool st)) = n_running (pool (worker_start j st))
      /\ (n_running (pool st) < max_workers st)%nat).
Proof.
  unfold worker_start. destruct (pool st !! j) as [f|] eqn:Hj; [|by left].
  destruct (can_start j st) eqn:Hc; [|by left]. right. simpl.
  unfold can_start, state_of in Hc. rewrite Hj in Hc.
  apply andb_true_iff in Hc as [[Hp Hn]%andb_true_iff _].
  apply Nat.ltb_lt in Hn. split_and!; [|clear Hn|done].
  - apply (pool_update _ _ j f); [done|].
    destruct f as [d [] cb]; try done. constructor.
  - unfold n_running. revert j Hj.
    induction (pool st) as [|g p IH]; intros [|j] Hj; simplify_eq/=.
    + destruct (fst_ f); done.
    + destruct (running (fst_ g)); simpl; by rewrite <- (IH j).
Qed.

Lemma worker_finish_change j r st :
  worker_finish a j r st = st
  \/ (pool_change ByWorker (pool st) (pool (worker_finish a j r st))
      /\ (n_running (pool (worker_finish a j r st)) <= n_running (pool st))%nat).
Proof.
  unfold worker_finish. destruct (pool st !! j) as [f|] eqn:Hj; [|by left].
  destruct (running (fst_ f)) eqn:Hr; [|by left]. right.
  destruct (robocopy_call _ _ _ _ _ _) as [logs res]. simpl. split.
  - apply (pool_update _ _ j f); [done|].
    destruct f as [d [] cb]; try done. constructor.
  - unfold n_running. clear Hr. revert j Hj.
    induction (pool st) as [|g p IH]; intros [|j] Hj; simplify_eq/=.
    + destruct (running (fst_ f)); simpl; lia.
    + specialize (IH j Hj). destruct (running (fst_ g)); simpl; lia.
Qed.

Lemma step_changes st ev :
  rtc any_change (pool st) (pool (step fs a st ev)).
Proof.
  destruct ev as [now ans|j|j r|]; simpl.
  - destruct (poll_change st now ans) as [->|[(d & _ & _ & ->)|H]]; [done|..];
      apply rtc_once; [left; by exists d|right; by exists ByPoll].
  - destruct (worker_start_change j st) as [->|[H _]]; [done|].
    apply rtc_once. right. by exists ByWorker.
  - destruct (worker_finish_change j r st) as [->|[H _]]; [done|].
    apply rtc_once. right. by exists ByWorker.
  - eapply rtc_subrel; [|apply terminate_changes].
    intros p p' H. right. by exists ByTerminate.
Qed.

Lemma run_changes evs :
  forall st, rtc any_change (pool st) (pool (fold_left (step fs a) evs st)).
Proof.
  induction evs as [|ev evs IH]; intros st; simpl; [done|].
  etrans; [apply step_changes|apply IH].
Qed.

Lemma upd_keeps w f f' :
  upd w f f' ->
  target f' = target f
  /\ (has_callback f = true -> has_callback f' = true)
  /\ (done (fst_ f) = true -> fst_ f' = fst_ f).
Proof. by intros []. Qed.

Lemma any_change_keeps (p p' : list future) j f :
  any_change p p' -> p !! j = Some f ->
  exists f',
    p' !! j = Some f' /\ target f' = target f
    /\ (has_callback f = true -> has_callback f' = true)
    /\ (done (fst_ f) = true -> fst_ f' = fst_ f).
Proof.
  intros [[d ->]|[w [k g g' Hk Hu]]] Hj.
  - exists f. split; [|done]. by apply lookup_app_l_Some.
  - destruct (decide (j = k)) as [->|Hne].
    + exists g'. rewrite list_lookup_insert_eq by (by eapply lookup_lt_Some).
      split; [done|]. assert (g = f) as -> by congruence.
      by eapply upd_keeps.
    + exists f. by rewrite list_lookup_insert_ne.
Qed.

Lemma changes_keep (p p' : list future) :
  rtc any_change p p' ->
  forall j f,
    p !! j = Some f ->
    exists f',
      p' !! j = Some f' /\ target f' = target f
      /\ (has_callback f = true -> has_callback f' = true)
      /\ (done (fst_ f) = true -> fst_ f' = fst_ f).
Proof.
  induction 1 as [p|p p' p'' Hc _ IH]; intros j f Hj; [by exists f|].
  destruct (any_change_keeps _ _ _ _ Hc Hj) as (f' & Hj' & Ht & Hcb & Hd).
  destruct (IH _ _ Hj') as (f'' & Hj'' & Ht' & Hcb' & Hd').
  exists f''. split_and!; [done|congruence|auto|].
  intros Hdone. rewrite Hd' by (by rewrite Hd). auto.
Qed.

(** X10: a handle denotes the same job for good. Whatever happens next, the
    job keeps its destination and its callback, and once it is done
    (finished, failed or cancelled) its outcome is never changed. *)
Theorem job_outcome_is_final (st : state) (evs : list event) (j : nat)
    (f : future) :
  pool st !! j = Some f ->
  exists f',
    pool (fold_left (step fs a) evs st) !! j = Some f'
    /\ target f' = target f
    /\ (has_callback f = true -> has_callback f' = true)
    /\ (done (fst_ f) = true -> fst_ f' = fst_ f).
Proof. apply changes_keep, run_changes. Qed.


Lemma n_running_insert (p : list future) j f f' :
  p !! j = Some f -> running (fst_ f') = running (fst_ f) ->
  n_running (<[j := f']> p) = n_running p.
Proof.
  unfold n_running. intros Hj Hr. revert j Hj.
  induction p as [|g p IH]; intros [|j] Hj; simplify_eq/=.
  - rewrite Hr. by destruct (running (fst_ f)).
  - destruct (running (fst_ g)); simpl; by rewrite (IH j).
Qed.

Lemma quiet_change_running w (p p' : list future) :
  w <> ByWorker -> pool_change w p p' -> n_running p' = n_running p.
Proof.
  intros Hw [j f f' Hj Hu]. apply (n_running_insert _ _ f); [done|].
  by inversion Hu.
Qed.

Lemma quiet_changes_running w (p p' : list future) :
  w <> ByWorker -> rtc (pool_change w) p p' -> n_running p' = n_running p.
Proof.
  intros Hw. induction 1 as [|p p' p'' H _ IH]; [done|].
  by rewrite IH, (quiet_change_running _ _ _ Hw H).
Qed.

Lemma poll_running st now ans :
  n_running (pool (poll fs a now ans st)) = n_running (pool st).
Proof.
  destruct (poll_change st now ans) as [->|[(d & _ & _ & ->)|H]]; [done|..].
  - unfold n_running. by rewrite List.filter_app, length_app, Nat.add_0_r.
  - by apply (quiet_change_running ByPoll).
Qed.

Lemma poll_max_workers st now ans :
  max_workers (poll fs a now ans st) = max_workers st
  \/ max_workers (poll fs a now ans st) = workers_for fs a.
Proof.
  unfold poll.
  destruct (at_ st) as [| |todo acc|todo| | | |todo|k todo| |n|e| | |e] eqn:Hpc;
    try (by left).
  - unfold _run_start, workers_for, sanitized.
    destruct (_sanitize_destinations fs (destinations a)) as [ws ds].
    destruct ds; [by left|by right].
  - destruct todo; by left.
  - destruct todo; [by left|]. left. simpl.
    unfold add_done_callback. by repeat case_match.
  - left. unfold is_running. by destruct (_running st).
  - left. simpl. by case_match.
  - left. simpl. by case_match.
  - left. destruct todo; [done|]. unfold _run_for, submit.
    by repeat case_match.
  - left. simpl. unfold add_done_callback. by repeat case_match.
  - left. unfold _run_delete. by repeat case_match.
  - left. destruct n; [done|]. unfold is_running. by destruct (_running st).
  - left. by repeat case_match.
  - left. by repeat case_match.
Qed.

Lemma terminate_max_workers st : max_workers (terminate st) = max_workers st.
Proof.
  unfold terminate. cbn [set_running max_workers].
  destruct (is_running st);
    match goal with
    | |- context [fold_left _ ?js ?s] =>
      destruct (cancel_all_fields js s) as (_ & _ & _ & _ & _ & H)
    end; unfold cancel_all in H; by rewrite H.
Qed.

Lemma worker_start_max_workers j st :
  max_workers (worker_start j st) = max_workers st.
Proof. unfold worker_start. by repeat case_match. Qed.

Lemma worker_finish_max_workers j r st :
  max_workers (worker_finish a j r st) = max_workers st.
Proof. unfold worker_finish. by repeat case_match. Qed.

Lemma bound_step st ev :
  (n_running (pool st) <= max_workers st)%nat
  /\ (max_workers st = 0%nat \/ max_workers st = workers_for fs a) ->
  (n_running (pool (step fs a st ev)) <= max_workers (step fs a st ev))%nat
  /\ (max_workers (step fs a st ev) = 0%nat
      \/ max_workers (step fs a st ev) = workers_for fs a).
Proof.
  intros [Hn Hw]. destruct ev as [now ans|j|j r|]; cbn [step].
  - rewrite poll_running.
    destruct (poll_max_workers st now ans) as [->| ->]; [done|].
    split; [|by right]. destruct Hw as [Hw|Hw]; rewrite Hw in Hn; [lia|done].
  - rewrite worker_start_max_workers.
    destruct (worker_start_change j st) as [->|(_ & <- & Hlt)]; [done|].
    split; [lia|done].
  - rewrite worker_finish_max_workers.
    destruct (worker_finish_change j r st) as [->|(_ & Hle)]; [done|].
    split; [lia|done].
  - rewrite terminate_max_workers,
      (quiet_changes_running ByTerminate _ _ ltac:(done)
                             (terminate_changes st)). done.
Qed.

(** X12: never more robocopy jobs run at a time than the thread pool has
    workers: at most two, and at most one unless [multithread] is set and
    two destinations or more are left after the clean-up. *)
Theorem workers_bounded (now : Q) (schedule : list event) :
  let st := execute fs a now schedule in
  (n_running (pool st) <= max_workers st)%nat
  /\ (max_workers st <= workers_for fs a)%nat
  /\ (workers_for fs a <= 2)%nat
  /\ (multithread a = false \/ (length (sanitized fs a) < 2)%nat ->
      (n_running (pool st) <= 1)%nat).
Proof.
  intros st.
  assert ((n_running (pool st) <= max_workers st)%nat
          /\ (max_workers st = 0%nat \/ max_workers st = workers_for fs a))
    as [Hn Hw].
  { apply execute_ind; [split; [done|by left]|].
    intros st' ev _. apply bound_step. }
  assert (max_workers st <= workers_for fs a)%nat as Hle by lia.
  split_and!; try done.
  - unfold workers_for. case_match; lia.
  - intros Hone. etrans; [exact Hn|]. etrans; [exact Hle|].
    unfold workers_for. destruct Hone as [->|Hlt]; [done|].
    apply Nat.leb_gt in Hlt. rewrite Hlt, andb_false_r. done.
Qed.

Lemma targets_change w (p p' : list future) (ds : list string) :
  pool_change w p p' ->
  (forall j f, p !! j = Some f -> target f ∈ ds) ->
  forall j f, p' !! j = Some f -> target f ∈ ds.
Proof.
  intros [k g g' Hk Hu] H j f Hj.
  destruct (decide (j = k)) as [->|Hne].
  - rewrite list_lookup_insert_eq in Hj by (by eapply lookup_lt_Some).
    injection Hj as <-. destruct (upd_keeps _ _ _ Hu) as [-> _]. by eapply H.
  - rewrite list_lookup_insert_ne in Hj by done. by eapply H.
Qed.

Lemma targets_changes w (p p' : list future) (ds : list string) :
  rtc (pool_change w) p p' ->
  (forall j f, p !! j = Some f -> target f ∈ ds) ->
  forall j f, p' !! j = Some f -> target f ∈ ds.
Proof. induction 1; eauto using targets_change. Qed.

Lemma targets_submit (p : list future) (ds : list string) d :
  d ∈ ds ->
  (forall j f, p !! j = Some f -> target f ∈ ds) ->
  forall j f, (p ++ [Future d PENDING false]) !! j = Some f -> target f ∈ ds.
Proof.
  intros Hd H j f [Hj|[_ Hj]]%lookup_app_Some; [by eapply H|].
  by apply list_lookup_singleton_Some in Hj as [_ <-].
Qed.

Lemma handles_change tbl (p p' : list future) :
  any_change p p' -> handles_ok tbl p -> handles_ok tbl p'.
Proof.
  intros Hc H d j Hd. destruct (H d j Hd) as (f & Hj & Ht).
  destruct (any_change_keeps _ _ _ _ Hc Hj) as (f' & Hj' & Ht' & _).
  exists f'. split; [done|congruence].
Qed.

Lemma handles_quiet_change w tbl (p p' : list future) :
  pool_change w p p' -> handles_ok tbl p -> handles_ok tbl p'.
Proof. intros H. apply handles_change. right. by exists w. Qed.

Lemma handles_changes w tbl (p p' : list future) :
  rtc (pool_change w) p p' -> handles_ok tbl p -> handles_ok tbl p'.
Proof. induction 1; eauto using handles_quiet_change. Qed.

Lemma handles_nil (p : list future) : handles_ok [] p.
Proof. by intros d j. Qed.

Lemma handles_submit tbl (p : list future) d :
  handles_ok tbl p ->
  handles_ok (setitem d (length p) tbl) (p ++ [Future d PENDING false]).
Proof.
  intros H d' j. destruct (decide (d = d')) as [->|Hne].
  - rewrite getitem_setitem_eq. intros [= <-].
    exists (Future d' PENDING false). split; [|done].
    by rewrite lookup_app_r, Nat.sub_diag.
  - rewrite getitem_setitem_ne by done. intros (f & Hj & Ht)%H.
    exists f. split; [|done]. by apply lookup_app_l_Some.
Qed.

Lemma handles_grow tbl (p : list future) d :
  handles_ok tbl p -> handles_ok tbl (p ++ [Future d PENDING false]).
Proof. apply handles_change. left. by exists d. Qed.

Lemma targets_inv_callback st j p :
  targets_inv fs a st ->
  (match p with
   | AtAddCallback _ | AtFor _ => True
   | _ => False
   end) ->
  (match p with
   | AtFor todo => forall d, d ∈ todo -> d ∈ dests st
   | _ => True
   end) ->
  dests st = sanitized fs a ->
  targets_inv fs a (goto p (add_done_callback j st)).
Proof.
  intros (H1 & H2 & _) Hp Htodo Hds.
  assert (dests (add_done_callback j st) = dests st
          /\ futures (add_done_callback j st) = futures st) as [Hd Hf].
  { unfold add_done_callback. by repeat case_match. }
  unfold targets_inv. cbn [goto pool dests futures at_]. rewrite Hd, Hf.
  destruct (add_done_callback_change j st) as [->|Hc].
  - split_and!; try done. by destruct p.
  - split_and!; [by eapply targets_change|by eapply handles_quiet_change|].
    by destruct p.
Qed.

Lemma targets_inv_poll st now ans :
  targets_inv fs a st -> targets_inv fs a (poll fs a now ans st).
Proof.
  intros HI. pose proof HI as (H1 & H2 & H3). unfold poll.
  destruct (at_ st) as [| |todo acc|todo| | | |todo|k todo| |n|e| | |e] eqn:Hpc.
  - destruct H3 as [Hd Hf]. by split_and!.
  - destruct H3 as [Hd Hf]. unfold _run_start.
    assert (sanitized fs a = (_sanitize_destinations fs (destinations a)).2)
      as Hs by done.
    destruct (_sanitize_destinations fs (destinations a)) as [ws ds].
    simpl in Hs. destruct ds as [|d ds]; unfold targets_inv; simpl.
    + split_and!; try done. congruence.
    + split_and!; try done.
      intros j f Hj. apply H1 in Hj. rewrite Hd in Hj. by inversion Hj.
  - destruct H3 as (Hd & Hf & Htodo & Hacc).
    destruct todo as [|d todo]; unfold targets_inv; simpl.
    + split_and!; done.
    + split_and!; try done.
      * apply targets_submit; [|done]. apply Htodo. by left.
      * by apply handles_grow.
      * intros d' Hd'. apply Htodo. by right.
      * by apply handles_submit.
  - destruct todo as [|j todo].
    + unfold targets_inv. simpl. by split_and!.
    + by apply targets_inv_callback.
  - unfold is_running, targets_inv. destruct (_running st); simpl; by split_and!.
  - unfold targets_inv. simpl. case_match; simpl; by split_and!.
  - unfold targets_inv. simpl. case_match; simpl; by split_and!.
  - destruct H3 as [Hd Htodo]. destruct todo as [|d todo].
    + unfold targets_inv. simpl. by split_and!.
    + assert (forall d', d' ∈ todo -> d' ∈ dests st) as Htodo'
        by (intros d' ?; apply Htodo; by right).
      unfold _run_for, submit. destruct ans as [|[|]|n|c|e']; try done.
      simpl. destruct (getitem d (futures st)) as [j|] eqn:Hj.
      * destruct (done (state_of j _)).
        -- unfold targets_inv. simpl. split_and!; try done.
           ++ apply targets_submit; [|done]. apply Htodo. by left.
           ++ by apply handles_submit.
        -- unfold targets_inv. simpl. by split_and!.
      * unfold targets_inv. simpl. by split_and!.
  - destruct H3 as [Hd Htodo]. by apply targets_inv_callback.
  - unfold _run_delete, targets_inv.
    repeat case_match; simpl; try (by split_and!); by rewrite Hpc.
  - unfold targets_inv, is_running.
    destruct n; [|destruct (_running st)]; simpl; by split_and!.
  - unfold targets_inv. repeat case_match; simpl; try (by split_and!);
      by rewrite Hpc.
  - unfold targets_inv. repeat case_match; simpl; try (by split_and!);
      by rewrite Hpc.
  - unfold targets_inv. simpl. by split_and!.
  - done.
Qed.

Lemma targets_inv_frame w st st' :
  at_ st' = at_ st -> dests st' = dests st -> futures st' = futures st ->
  rtc (pool_change w) (pool st) (pool st') ->
  targets_inv fs a st -> targets_inv fs a st'.
Proof.
  intros Hpc Hd Hf Hc (H1 & H2 & H3). unfold targets_inv.
  rewrite Hpc, Hd, Hf. split_and!.
  - by eapply targets_changes.
  - by eapply handles_changes.
  - destruct (at_ st); try done.
    destruct H3 as (? & ? & ? & ?). split_and!; try done.
    by eapply handles_changes.
Qed.

Lemma targets_inv_step st ev :
  targets_inv fs a st -> targets_inv fs a (step fs a st ev).
Proof.
  destruct ev as [now ans|j|j r|]; cbn [step].
  - apply targets_inv_poll.
  - destruct (worker_start_change j st) as [->|(Hc & _)]; [done|].
    destruct (worker_start_frame j st) as (? & ? & ?).
    apply (targets_inv_frame ByWorker); [done..|by apply rtc_once].
  - destruct (worker_finish_change j r st) as [->|(Hc & _)]; [done|].
    destruct (worker_finish_frame a j r st) as (? & ? & ?).
    apply (targets_inv_frame ByWorker); [done..|by apply rtc_once].
  - destruct (terminate_frame st) as (? & ? & _).
    apply (targets_inv_frame ByTerminate);
      [done|done|apply terminate_futures|apply terminate_changes].
Qed.

Lemma targets_inv_execute now schedule :
  targets_inv fs a (execute fs a now schedule).
Proof.
  apply execute_ind; [|auto using targets_inv_step]. by split_and!.
Qed.

(** X13: every job that is handed to the thread pool copies to a
    destination that the clean-up kept: one that was asked for, is not
    empty and exists. And every handle in [self.futures] denotes a job for
    the destination it is filed under. *)
Theorem jobs_copy_to_kept_destinations (now : Q) (schedule : list event) :
  let st := execute fs a now schedule in
  (forall j f,
     pool st !! j = Some f ->
     In (target f) (sanitized fs a)
     /\ target f <> "" /\ exists_ fs (target f) = true
     /\ match destinations a with
        | One d => target f = d
        | Many ds => In (target f) ds
        end)
  /\ (forall d j,
        getitem d (futures st) = Some j ->
        exists f, pool st !! j = Some f /\ target f = d).
Proof.
  intros st. destruct (targets_inv_execute now schedule) as (H1 & H2 & H3).
  fold st in H1, H2, H3. split; [|exact H2].
  intros j f Hj. specialize (H1 j f Hj).
  assert (target f ∈ sanitized fs a) as Hin.
  { destruct (at_ st); try (by rewrite <- H3);
      try (destruct H3 as [H3 _]; rewrite H3 in H1; by inversion H1);
      destruct H3 as [H3 _]; by rewrite <- H3. }
  apply list_elem_of_In in Hin. split; [done|].
  unfold sanitized, _sanitize_destinations in Hin. simpl in Hin.
  apply filter_In in Hin as [Hin [Hne Hex]%andb_true_iff].
  apply bool_decide_eq_true in Hne. split_and!; try done.
  destruct (destinations a); [|done]. by destruct Hin as [|[]].
Qed.

(** X14: [self.futures] is assigned when the dict comprehension is
    complete, so a call of [terminate()] that comes while the first jobs are
    being queued cancels none of them. *)
Theorem terminate_during_startup (now : Q) (schedule : list event)
    (todo : list string) (acc : dict) :
  at_ (execute fs a now schedule) = AtSubmit todo acc ->
  futures (execute fs a now schedule) = []
  /\ pool (terminate (execute fs a now schedule))
     = pool (execute fs a now schedule).
Proof.
  intros Hpc. destruct (targets_inv_execute now schedule) as (_ & _ & H3).
  rewrite Hpc in H3. destruct H3 as (_ & Hf & _). split; [done|].
  rewrite terminate_pool, Hf. done.
Qed.

End Jobs.

(** ** What the notifier is told *)

Section Notifier.
Variables (fs : filesystem) (a : args).
Implicit Types (st : state) (ev : event) (j k : nat) (f : future).

Lemma notified_app es1 es2 : notified (es1 ++ es2) = notified es1 ++ notified es2.
Proof. apply omap_app. Qed.

Lemma notified_logs es : forallb is_log es = true -> notified es = [].
Proof.
  induction es as [|e es IH]; [done|]. simpl.
  intros [He Hes]%andb_true_iff. destruct e; try done. by apply IH.
Qed.

Lemma notified_callback (s : fstate) :
  notified (_robocopy_callback s) = option_list (exception s).
Proof. destruct s as [| | |[[]|e]]; try done. by destruct e. Qed.

Lemma failures_insert (p : list future) j f f' :
  p !! j = Some f -> failure f = None ->
  failures (<[j := f']> p) ≡ₚ option_list (failure f') ++ failures p.
Proof.
  intros Hj Hf. revert j Hj.
  induction p as [|g p IH]; intros [|j] Hj; simplify_eq/=.
  - unfold failures. simpl. rewrite Hf. by destruct (failure f').
  - unfold failures in *. simpl. destruct (failure g) as [e|].
    + rewrite (IH j Hj). by rewrite Permutation_middle.
    + by apply IH.
Qed.

Lemma failures_insert_same (p : list future) j f f' :
  p !! j = Some f -> failure f' = failure f ->
  failures (<[j := f']> p) = failures p.
Proof.
  intros Hj Hf. revert j Hj.
  induction p as [|g p IH]; intros [|j] Hj; simplify_eq/=.
  - unfold failures. simpl. by rewrite Hf.
  - unfold failures in *. simpl. by rewrite (IH j Hj).
Qed.

Lemma failures_submit (p : list future) d :
  failures (p ++ [Future d PENDING false]) = failures p.
Proof. unfold failures. by rewrite omap_app, app_nil_r. Qed.

Lemma failures_change w (p p' : list future) :
  w <> ByPoll -> pool_change w p p' ->
  (exists j f f',
     p !! j = Some f /\ p' = <[j := f']> p /\ w = ByWorker
     /\ fst_ f = RUNNING /\ has_callback f' = has_callback f
     /\ target f' = target f /\ exists r, fst_ f' = FINISHED r)
  \/ failures p' = failures p.
Proof.
  intros Hw [j f f' Hj Hu]. inversion Hu; subst; try done.
  - right. by apply (failures_insert_same _ _ _ _ Hj).
  - right. apply (failures_insert_same _ _ _ _ Hj).
    unfold failure. simpl. by destruct cb.
  - left. exists j, (Future d RUNNING cb), (Future d (FINISHED r) cb).
    split_and!; try done. by exists r.
Qed.

Lemma unattached_change w (p p' : list future) j :
  w <> ByPoll -> pool_change w p p' -> unattached p j -> unattached p' j.
Proof.
  intros Hw [k g g' Hk Hu] (f & Hj & Hcb).
  destruct (decide (j = k)) as [->|Hne].
  - exists g'. rewrite list_lookup_insert_eq by (by eapply lookup_lt_Some).
    split; [done|]. assert (g = f) as -> by congruence.
    inversion Hu; by subst.
  - exists f. by rewrite list_lookup_insert_ne.
Qed.

Lemma unattached_changes w (p p' : list future) j :
  w <> ByPoll -> rtc (pool_change w) p p' -> unattached p j -> unattached p' j.
Proof. intros Hw. induction 1; eauto using unattached_change. Qed.

Lemma unattached_grow (p : list future) d j :
  unattached p j -> unattached (p ++ [Future d PENDING false]) j.
Proof.
  intros (f & Hj & Hcb). exists f. split; [|done].
  by apply lookup_app_l_Some.
Qed.

Lemma unattached_new (p : list future) d :
  unattached (p ++ [Future d PENDING false]) (length p).
Proof.
  exists (Future d PENDING false). split; [|done].
  by rewrite lookup_app_r, Nat.sub_diag.
Qed.

Lemma unattached_lt (p : list future) j : unattached p j -> (j < length p)%nat.
Proof. intros (f & Hj & _). by eapply lookup_lt_Some. Qed.

Lemma values_setitem d j (acc : dict) j' :
  j' ∈ values (setitem d j acc) -> j' = j \/ j' ∈ values acc.
Proof.
  unfold values. induction acc as [|kv acc IH]; simpl.
  - intros ->%list_elem_of_singleton. by left.
  - case_match; simpl; rewrite !elem_of_cons; [tauto|].
    intros [->|Hin]; [by right; left|]. destruct (IH Hin); auto.
Qed.

Lemma NoDup_values_setitem d j (acc : dict) :
  j ∉ values acc -> NoDup (values acc) -> NoDup (values (setitem d j acc)).
Proof.
  unfold values. induction acc as [|kv acc IH]; simpl.
  - intros _ _. apply NoDup_singleton.
  - intros [Hne Hj]%not_elem_of_cons [Hkv Hnd]%NoDup_cons.
    case_match; simpl; apply NoDup_cons; (split; [|by auto]); [done|].
    intros [Heq|Hin]%values_setitem; [by rewrite Heq in Hne|done].
Qed.

Lemma notify_callback st j :
  unattached (pool st) j ->
  notified (trace st) ≡ₚ failures (pool st) ->
  notified (trace (add_done_callback j st))
  ≡ₚ failures (pool (add_done_callback j st)).
Proof.
  intros (f & Hj & Hcb) HI. unfold add_done_callback. rewrite Hj.
  assert (failure f = None) as Hf by (unfold failure; by rewrite Hcb).
  pose proof (failures_insert _ _ _ (Future (target f) (fst_ f) true) Hj Hf)
    as Hp.
  unfold failure in Hp at 1. simpl in Hp.
  destruct (done (fst_ f)) eqn:Hd; simpl.
  - rewrite notified_app, notified_callback, Hp, HI.
    apply Permutation_app_comm.
  - rewrite Hp, HI. by destruct (fst_ f) as [| | |[]].
Qed.

Lemma unattached_callback st j k :
  j <> k -> unattached (pool st) k -> unattached (pool (add_done_callback j st)) k.
Proof.
  intros Hne (f & Hk & Hcb). exists f. split; [|done].
  unfold add_done_callback. destruct (pool st !! j) as [g|]; [|done].
  destruct (done (fst_ g)); simpl; by rewrite list_lookup_insert_ne.
Qed.

Lemma notified_emit es es' :
  forallb is_log es' = true -> notified (es ++ es') = notified es.
Proof. intros H. by rewrite notified_app, (notified_logs _ H), app_nil_r. Qed.

Lemma notify_inv_poll st now ans :
  notify_inv st -> notify_inv (poll fs a now ans st).
Proof.
  intros [HI Hpc']. unfold poll.
  destruct (at_ st) as [| |todo acc|todo| | | |todo|k todo| |n|e| | |e] eqn:Hpc.
  - split; [|done]. fields. by rewrite notified_emit.
  - unfold _run_start.
    pose proof (quiet_sanitize fs (destinations a)) as Hs.
    destruct (_sanitize_destinations fs (destinations a)) as [ws [|d ds]];
      unfold notify_inv; fields; simpl in Hs.
    + split; [|done]. by rewrite notified_emit.
    + split; [|split; [apply NoDup_nil_2|by intros j ?%elem_of_nil]].
      rewrite notified_emit, notified_emit; [done..|].
      simpl. by apply quiet_imap.
  - destruct Hpc' as [Hnd Hfr].
    destruct todo as [|d todo]; unfold notify_inv; fields; [done|].
    rewrite failures_submit. split; [done|]. split.
    + apply NoDup_values_setitem; [|done].
      intros Hin%Hfr%unattached_lt. lia.
    + intros j [->|Hin]%values_setitem; [apply unattached_new|].
      by apply unattached_grow, Hfr.
  - destruct Hpc' as [Hnd Hfr].
    destruct todo as [|j todo]; unfold notify_inv; [done|].
    cbn [goto trace pool at_]. apply NoDup_cons in Hnd as [Hj Hnd].
    split; [apply notify_callback; [apply Hfr; by left|done]|].
    split; [done|]. intros k Hk. apply unattached_callback.
    + by intros ->.
    + apply Hfr. by right.
  - unfold is_running. by destruct (_running st).
  - unfold notify_inv. fields. by case_match.
  - unfold notify_inv. fields.
    case_match; fields; by rewrite ?notified_emit.
  - destruct todo as [|d todo]; [done|].
    unfold _run_for. destruct ans as [|[|]|n|c|e']; try done;
      try (unfold notify_inv; by rewrite Hpc).
    fields. destruct (getitem d (futures st)) as [j|]; [|done].
    destruct (done (state_of j _)); [|done].
    unfold notify_inv. fields. rewrite failures_submit. split; [done|].
    apply unattached_new.
  - unfold notify_inv. cbn [goto trace pool at_].
    split; [|done]. by apply notify_callback.
  - unfold _run_delete.
    repeat case_match; unfold notify_inv; fields; try (by rewrite Hpc);
      by rewrite ?notified_emit.
  - unfold is_running. destruct n; [done|]. by destruct (_running st).
  - repeat case_match; unfold notify_inv; fields; try done; by rewrite Hpc.
  - unfold notify_inv. destruct ans; try (by rewrite Hpc). fields.
    split; [|done]. rewrite notified_emit; [done|]. simpl.
    apply quiet_report.
  - unfold notify_inv. fields. split; [|done].
    by rewrite notified_app, app_nil_r.
  - unfold notify_inv. by rewrite Hpc.
Qed.

Lemma cancel_logs j st :
  exists n,
    trace (cancel j st)
    = trace st ++ repeat (Log DEBUG "Robocopy job cancelled" []) n
    /\ (n <= 1)%nat.
Proof.
  assert (exists n, trace st
                    = trace st
                      ++ repeat (Log DEBUG "Robocopy job cancelled" []) n
                    /\ (n <= 1)%nat)
    as Hsame by (exists 0%nat; simpl; rewrite app_nil_r; split; [done|lia]).
  unfold cancel. destruct (pool st !! j) as [f|]; [|done].
  destruct (pending (fst_ f)); [|done].
  fields. destruct (has_callback f); [by exists 1%nat|].
  by rewrite app_nil_r.
Qed.

Lemma cancel_all_logs js :
  forall st,
    exists n,
      trace (fold_left (fun st j => cancel j st) js st)
      = trace st ++ repeat (Log DEBUG "Robocopy job cancelled" []) n
      /\ (n <= length js)%nat.
Proof.
  induction js as [|j js IH]; intros st; simpl.
  - exists 0%nat. simpl. by rewrite app_nil_r.
  - destruct (IH (cancel j st)) as (n2 & -> & Hn2).
    destruct (cancel_logs j st) as (n1 & -> & Hn1).
    exists (n1 + n2)%nat. rewrite repeat_app, (assoc_L (++)).
    split; [done|lia].
Qed.

Lemma terminate_logs st :
  exists n,
    trace (terminate st)
    = trace st
      ++ (if is_running st
          then [Log WARNING "Stopping robocopy task" []] else [])
      ++ repeat (Log DEBUG "Robocopy job cancelled" []) n
    /\ (n <= length (values (futures st)))%nat.
Proof.
  unfold terminate. destruct (is_running st); cbn [set_running trace];
    match goal with
    | |- context [fold_left _ ?js ?s] =>
      destruct (cancel_all_logs js s) as (n & -> & Hn)
    end; exists n; fields; by rewrite <- ?(assoc_L (++)).
Qed.

Lemma repeat_logs e n : is_log e = true -> forallb is_log (repeat e n) = true.
Proof. intros He. induction n; simpl; [done|]. by rewrite He. Qed.

Lemma notify_inv_frame w st st' :
  w <> ByPoll -> at_ st' = at_ st ->
  rtc (pool_change w) (pool st) (pool st') ->
  notified (trace st') ≡ₚ failures (pool st') ->
  notify_inv st -> notify_inv st'.
Proof.
  intros Hw Hpc Hc HI [_ H]. split; [done|]. rewrite Hpc.
  destruct (at_ st); try done.
  - destruct H as [Hnd H]. split; [done|]. eauto using unattached_changes.
  - destruct H as [Hnd H]. split; [done|]. eauto using unattached_changes.
  - eauto using unattached_changes.
Qed.

Lemma notify_inv_worker_start st j :
  notify_inv st -> notify_inv (worker_start j st).
Proof.
  intros HI. destruct (worker_start_change j st) as [->|(Hc & _)]; [done|].
  destruct (worker_start_frame j st) as (Hpc & _).
  apply (notify_inv_frame ByWorker st); [done|done|by apply rtc_once| |done].
  destruct HI as [HI _]. revert Hc. unfold worker_start.
  destruct (pool st !! j) as [f|] eqn:Hj; [|by rewrite HI].
  destruct (can_start j st) eqn:Hs; [|by rewrite HI]. intros _. fields.
  rewrite (failures_insert_same _ _ f); [done..|].
  unfold can_start, state_of in Hs. rewrite Hj in Hs.
  unfold failure. simpl. by destruct (fst_ f), (has_callback f).
Qed.

Lemma notify_inv_worker_finish st j r :
  notify_inv st -> notify_inv (worker_finish a j r st).
Proof.
  intros HI. destruct (worker_finish_change a j r st) as [->|(Hc & _)]; [done|].
  destruct (worker_finish_frame a j r st) as (Hpc & _).
  apply (notify_inv_frame ByWorker st); [done|done|by apply rtc_once| |done].
  destruct HI as [HI _]. clear Hc Hpc. unfold worker_finish.
  destruct (pool st !! j) as [f|] eqn:Hj; [|by rewrite HI].
  destruct (running (fst_ f)) eqn:Hr; [|by rewrite HI].
  pose proof (quiet_robocopy_call (fun _ _ => r) (source a) (target f)
                (silent a) (secure_mode a) (skip_files a)) as Hq.
  destruct (robocopy_call _ _ _ _ _ _) as [logs res]. fields.
  simpl in Hq.
  rewrite (failures_insert _ _ f), !notified_app, (notified_logs logs), HI;
    [|done|done|].
  - unfold failure. simpl. destruct (has_callback f).
    + rewrite notified_callback. simpl. apply Permutation_app_comm.
    + by rewrite app_nil_r.
  - unfold failure. by destruct (fst_ f), (has_callback f).
Qed.

Lemma failures_changes (p p' : list future) :
  rtc (pool_change ByTerminate) p p' -> failures p' = failures p.
Proof.
  induction 1 as [|p p' p'' Hc _ IH]; [done|]. rewrite IH.
  by destruct (failures_change ByTerminate _ _ ltac:(done) Hc)
    as [(? & ? & ? & ? & ? & ? & ?)|?].
Qed.

Lemma notify_inv_terminate st : notify_inv st -> notify_inv (terminate st).
Proof.
  intros HI. destruct (terminate_frame st) as (Hpc & _).
  apply (notify_inv_frame ByTerminate st);
    [done|done|apply terminate_changes| |done].
  destruct HI as [HI _]. destruct (terminate_logs st) as (n & -> & _).
  rewrite (failures_changes _ _ (terminate_changes st)), !notified_app, HI.
  rewrite (notified_logs (repeat _ n)) by (by apply repeat_logs).
  rewrite app_nil_r. destruct (is_running st); simpl; by rewrite app_nil_r.
Qed.

Lemma notify_inv_execute now schedule :
  notify_inv (execute fs a now schedule).
Proof.
  apply execute_ind; [done|]. intros st [] _; cbn [step];
    auto using notify_inv_poll, notify_inv_worker_start,
      notify_inv_worker_finish, notify_inv_terminate.
Qed.

(** X15: the notifier is told of a failure once for every job that has
    the callback of [_run] and ended with an exception, with that
    exception, and of nothing else. *)
Theorem failures_notified_once (now : Q) (schedule : list event) :
  notified (trace (execute fs a now schedule))
  ≡ₚ failures (pool (execute fs a now schedule)).
Proof. apply notify_inv_execute. Qed.

(** X16: [terminate()] writes log records only and never calls the
    notifier: the warning when the task was running, and then a debug
    record for each cancelled job that has the callback, at most one for
    each handle. *)
Theorem terminate_logs_only (st : state) :
  exists n,
    trace (terminate st)
    = trace st
      ++ (if is_running st
          then [Log WARNING "Stopping robocopy task" []] else [])
      ++ repeat (Log DEBUG "Robocopy job cancelled" []) n
    /\ (n <= length (values (futures st)))%nat.
Proof. apply terminate_logs. Qed.


Lemma change_back w (p p' : list future) j f' :
  pool_change w p p' -> p' !! j = Some f' ->
  exists f, p !! j = Some f
            /\ (has_callback f = true -> has_callback f' = true).
Proof.
  intros [k g g' Hk Hu] Hj. destruct (decide (j = k)) as [->|Hne].
  - rewrite list_lookup_insert_eq in Hj by (by eapply lookup_lt_Some).
    injection Hj as <-. exists g. split; [done|].
    by destruct (upd_keeps _ _ _ Hu) as (_ & ? & _).
  - rewrite list_lookup_insert_ne in Hj by done. by exists f'.
Qed.

Lemma changes_back w (p p' : list future) :
  rtc (pool_change w) p p' ->
  forall j f', p' !! j = Some f' ->
               exists f, p !! j = Some f
                         /\ (has_callback f = true -> has_callback f' = true).
Proof.
  induction 1 as [p|p p' p'' Hc _ IH]; intros j f'' Hj; [by exists f''|].
  destruct (IH _ _ Hj) as (f' & Hj' & Hcb').
  destruct (change_back _ _ _ _ _ Hc Hj') as (f & ? & Hcb).
  exists f. auto.
Qed.

Lemma callbacks_inv_frame w st st' :
  at_ st' = at_ st -> rtc (pool_change w) (pool st) (pool st') ->
  callbacks_inv st -> callbacks_inv st'.
Proof.
  intros Hpc Hc HI j f' Hj. rewrite Hpc.
  destruct (changes_back _ _ _ Hc _ _ Hj) as (f & Hf & Hcb).
  specialize (HI j f Hf). destruct (at_ st); tauto.
Qed.

Lemma values_setitem_new d j (acc : dict) :
  getitem d acc = None -> values (setitem d j acc) = values acc ++ [j].
Proof.
  unfold getitem, values. induction acc as [|kv acc IH]; simpl; [done|].
  destruct (bool_decide (kv.1 = d)); [done|]. simpl. intros H.
  by rewrite IH.
Qed.

Lemma callbacks_callback st j (P : nat -> Prop) :
  (forall k f, pool st !! k = Some f ->
               has_callback f = true \/ k = j \/ P k) ->
  forall k f, pool (add_done_callback j st) !! k = Some f ->
              has_callback f = true \/ P k.
Proof.
  intros H k f. unfold add_done_callback.
  destruct (pool st !! j) as [g|] eqn:Hj.
  - assert (<[j := Future (target g) (fst_ g) true]> (pool st) !! k = Some f
            -> has_callback f = true \/ P k) as Hins.
    { destruct (decide (k = j)) as [->|Hne].
      - rewrite list_lookup_insert_eq by (by eapply lookup_lt_Some).
        intros [= <-]. by left.
      - rewrite list_lookup_insert_ne by done. intros Hk.
        destruct (H k f Hk) as [?|[?|?]]; auto. }
    by destruct (done (fst_ g)).
  - intros Hk. destruct (H k f Hk) as [?|[->|?]]; auto. congruence.
Qed.

Lemma callbacks_inv_poll st now ans :
  jobs_inv st -> callbacks_inv st -> callbacks_inv (poll fs a now ans st).
Proof.
  intros HJ HI. unfold callbacks_inv in HI. unfold jobs_inv in HJ.
  unfold poll.
  destruct (at_ st) as [| |todo acc|todo| | | |todo|k todo| |n|e| | |e] eqn:Hpc.
  - intros j f. fields. by rewrite HJ.
  - unfold _run_start.
    destruct (_sanitize_destinations fs (destinations a)) as [ws [|d ds]];
      intros j f; fields; by rewrite HJ.
  - destruct HJ as (_ & _ & Hnone).
    destruct todo as [|d todo]; intros j f; fields;
      [intros Hj; right; by eapply HI|].
    rewrite values_setitem_new by (apply Hnone; by left).
    intros [Hj|[Hle Hj]]%lookup_app_Some.
    + apply elem_of_app. left. by eapply HI.
    + apply list_lookup_singleton_Some in Hj as [Hj _].
      apply elem_of_app. right. apply list_elem_of_singleton. lia.
  - destruct todo as [|j todo].
    + intros k f Hk. fields. destruct (HI k f Hk) as [?|?%elem_of_nil]; done.
    + unfold callbacks_inv. cbn [goto at_ pool].
      apply callbacks_callback. intros k f Hk.
      destruct (HI k f Hk) as [?|[->|?]%elem_of_cons]; auto.
  - unfold is_running. destruct (_running st); intros j f; fields; apply HI.
  - intros j f. fields. case_match; apply HI.
  - intros j f. fields. case_match; fields; apply HI.
  - destruct todo as [|d todo]; [intros j f; fields; apply HI|].
    unfold _run_for. destruct ans as [|[|]|n|c|e']; try done;
      try (unfold callbacks_inv; by rewrite Hpc);
      try (intros j f; fields; apply HI).
    fields. destruct (getitem d (futures st)) as [k|];
      [|intros j f; fields; apply HI].
    destruct (done (state_of k _)); [|intros j f; fields; apply HI].
    intros j f. fields. intros [Hj|[Hle Hj]]%lookup_app_Some.
    + left. by eapply HI.
    + apply list_lookup_singleton_Some in Hj as [Hj _]. right. lia.
  - unfold callbacks_inv. cbn [goto at_ pool].
    intros j f Hj.
    destruct (callbacks_callback st k (fun _ => False)) with (k := j) (f := f);
      [|done..].
    intros k' f' Hk'. destruct (HI k' f' Hk'); auto.
  - unfold _run_delete.
    repeat case_match; intros j f; fields; try apply HI;
      unfold callbacks_inv in *; rewrite Hpc; apply HI.
  - unfold is_running.
    destruct n; [|destruct (_running st)]; intros j f; fields; apply HI.
  - repeat case_match; intros j f; fields; try apply HI;
      rewrite Hpc; apply HI.
  - destruct ans; intros j f; fields; try apply HI; rewrite Hpc; apply HI.
  - intros j f. fields. apply HI.
  - intros j f. rewrite Hpc. apply HI.
Qed.

Lemma callbacks_inv_step st ev :
  jobs_inv st -> callbacks_inv st -> callbacks_inv (step fs a st ev).
Proof.
  intros HJ HI. destruct ev as [now ans|j|j r|]; cbn [step].
  - by apply callbacks_inv_poll.
  - destruct (worker_start_change j st) as [->|(Hc & _)]; [done|].
    destruct (worker_start_frame j st) as (Hpc & _).
    apply (callbacks_inv_frame ByWorker st); [done|by apply rtc_once|done].
  - destruct (worker_finish_change a j r st) as [->|(Hc & _)]; [done|].
    destruct (worker_finish_frame a j r st) as (Hpc & _).
    apply (callbacks_inv_frame ByWorker st); [done|by apply rtc_once|done].
  - destruct (terminate_frame st) as (Hpc & _).
    apply (callbacks_inv_frame ByTerminate st);
      [done|apply terminate_changes|done].
Qed.

Lemma callbacks_inv_execute now schedule :
  NoDup (sanitized fs a) ->
  callbacks_inv (execute fs a now schedule).
Proof.
  intros Hnd.
  assert (jobs_inv (execute fs a now schedule)
          /\ callbacks_inv (execute fs a now schedule)) as [_ H]; [|done].
  apply execute_ind; [by split|]. intros st ev _ [HJ HI].
  split; [by apply jobs_inv_step|by apply callbacks_inv_step].
Qed.

Lemma failures_all (p : list future) :
  (forall j f, p !! j = Some f -> has_callback f = true) ->
  failures p = omap (fun f => exception (fst_ f)) p.
Proof.
  unfold failures. induction p as [|f p IH]; intros H; [done|]. csimpl.
  rewrite IH by (intros j g Hj; by apply (H (S j))).
  unfold failure. by rewrite (H 0%nat f).
Qed.

(** X17: for destinations that are pairwise different, every job has the
    callback of [_run] but between its submission and the call of
    [add_done_callback]; so at any other place, and when [run] has ended,
    the notifier has been told of the failure of each job that failed,
    once. *)
Theorem every_failure_is_notified (now : Q) (schedule : list event) :
  NoDup (sanitized fs a) ->
  attaching (at_ (execute fs a now schedule)) = false ->
  (forall j f, pool (execute fs a now schedule) !! j = Some f ->
               has_callback f = true)
  /\ notified (trace (execute fs a now schedule))
     ≡ₚ omap (fun f => exception (fst_ f))
             (pool (execute fs a now schedule)).
Proof.
  intros Hnd Hpc.
  pose proof (callbacks_inv_execute now schedule Hnd) as HI.
  assert (forall j f, pool (execute fs a now schedule) !! j = Some f ->
                      has_callback f = true) as Hcb.
  { intros j f Hj. specialize (HI j f Hj).
    by destruct (at_ (execute fs a now schedule)). }
  split; [done|].
  rewrite <- (failures_all _ Hcb). apply notify_inv_execute.
Qed.

End Notifier.

(** ** How a run ends *)

Section Ending.
Variables (fs : filesystem) (a : args).
Implicit Types (st : state) (ev : event) (j k : nat) (f : future).

(** X19: when [run] has returned or raised, every job is done, the task
    is not running, and nothing that happens afterwards changes the task,
    the jobs or what has been logged and notified. *)
Theorem run_exit_is_final (now : Q) (schedule more : list event)
    (e : option exn) :
  at_ (execute fs a now schedule) = Exited e ->
  all_done (execute fs a now schedule) = true
  /\ is_running (execute fs a now schedule) = false
  /\ execute fs a now (schedule ++ more) = execute fs a now schedule.
Proof.
  intros Hpc. pose proof (trace_inv_execute fs a now schedule) as HI.
  unfold trace_inv in HI. rewrite Hpc in HI.
  assert (all_done (execute fs a now schedule) = true
          /\ _running (execute fs a now schedule) = false) as [Hd Hr]
    by (destruct e; tauto).
  split_and!; try done.
  unfold execute in *. rewrite fold_left_app.
  induction more as [|ev more IH]; [done|]. simpl.
  by rewrite (step_exited fs a _ ev e).
Qed.

(** The summary of a run that does not delete. *)
Lemma not_deleted_step st ev :
  delete_source a = false -> n_deleted st = 0%Z ->
  n_deleted (step fs a st ev) = 0%Z.
Proof.
  intros Hd Hn. destruct ev as [now ans|j|j r|]; cbn [step].
  - unfold poll, _run_start, _run_for, _run_delete, add_done_callback,
      submit, is_running. rewrite Hd.
    repeat case_match; try done.
  - unfold worker_start. by repeat case_match.
  - unfold worker_finish. by repeat case_match.
  - by destruct (terminate_frame st) as (_ & _ & ->).
Qed.

(** X20: when [delete_source] is off, the count of deleted files stays at
    zero, and the summary of the run has no record about deleted files. *)
Theorem nothing_deleted_unless_asked (now : Q) (schedule : list event) :
  delete_source a = false ->
  n_deleted (execute fs a now schedule) = 0%Z
  /\ forall c n folder,
       ~ In (Log INFO "%d files were deleted from %s" [AInt n; AStr folder])
            (report_of a c (execute fs a now schedule)).
Proof.
  intros Hd.
  assert (n_deleted (execute fs a now schedule) = 0%Z) as Hn.
  { apply execute_ind; [done|]. intros st ev _. by apply not_deleted_step. }
  split; [done|]. intros c n folder. unfold report_of. rewrite Hn.
  intros [Hin|Hin]; [done|].
  apply report_In in Hin as (f & _ & Hin). revert Hin.
  unfold report_folder.
  repeat case_match; simpl; try done; intuition congruence.
Qed.

(** X21: a job that is running keeps the task alive. When the polling
    thread finds a job of [self.futures] running, it takes the time of that
    step as the time of the last change, and the check of the idle time
    that follows counts from there, whatever the time that had passed
    before: the loop goes on unless the seconds between the two steps, as
    the float that [total_seconds()] gives, have reached [wait_exit * 60.]. *)
Theorem running_job_keeps_alive (st : state) (now1 now2 : Q)
    (ans1 ans2 : answer) :
  at_ st = AtAnyRunning ->
  existsb (fun j => running (state_of j st)) (values (futures st)) = true ->
  PrimFloat.leb (wait_exit a * 60) (total_seconds (now2 - now1)) = false ->
  at_ (poll fs a now2 ans2 (poll fs a now1 ans1 st)) = AtFor (dests st)
  /\ _time_at_last_change (poll fs a now2 ans2 (poll fs a now1 ans1 st))
     = now1.
Proof.
  intros Hpc Hrun Hw. unfold poll at 2 4. rewrite Hpc, Hrun.
  unfold poll.
  cbn [goto at_ _update_changed _wait_has_expired _time_at_last_change].
  by rewrite Hw.
Qed.

(** X22: [terminate()] is noticed in the sleeping loop. When it is called
    while the polling thread sleeps, the next two steps of that thread
    leave the sleeping loop and the polling loop, without a look at the
    destinations in between. *)
Theorem terminate_ends_sleep (st : state) (n : nat) (now1 now2 : Q)
    (ans1 ans2 : answer) :
  at_ st = AtSleep n ->
  let st' := fold_left (step fs a)
                       [Terminate; Poll now1 ans1; Poll now2 ans2] st in
  at_ st' = AtPoolExit None /\ is_running st' = false
  /\ length (pool st') = length (pool st).
Proof.
  intros Hpc. simpl.
  destruct (terminate_frame st) as (Hpc' & _).
  assert (_running (terminate st) = false) as Hr by done.
  rewrite Hpc in Hpc'.
  assert (poll fs a now1 ans1 (terminate st) = goto AtWhile (terminate st))
    as ->.
  { unfold poll. rewrite Hpc'. destruct n; [done|].
    unfold is_running. by rewrite Hr. }
  unfold poll. cbn [goto at_]. unfold is_running. cbn [goto _running].
  rewrite Hr. cbn [goto at_ _running pool].
  split_and!; try done. apply terminate_length.
Qed.

(** X23: the summary is made when the thread pool has been shut down:
    every job is done when [_report] counts the files, and when the
    notifier is told that the run has finished. *)
Theorem summary_after_jobs (now : Q) (schedule : list event) :
  at_ (execute fs a now schedule) = AtReport
  \/ at_ (execute fs a now schedule) = AtNotify ->
  all_done (execute fs a now schedule) = true.
Proof.
  intros Hpc.
  pose proof (trace_inv_all_done a _ (trace_inv_execute fs a now schedule))
    as Hd.
  by destruct Hpc as [Hpc|Hpc]; rewrite Hpc in Hd.
Qed.

Lemma targets_same w (p p' : list future) :
  rtc (pool_change w) p p' -> List.map target p' = List.map target p.
Proof.
  induction 1 as [|p p' p'' [j f f' Hj Hu] _ IH]; [done|]. rewrite IH.
  destruct (upd_keeps _ _ _ Hu) as [Ht _]. clear IH Hu. revert j Hj.
  induction p as [|g p IHp]; intros [|j] Hj; try done; simpl in *.
  - injection Hj as ->. by rewrite Ht.
  - by rewrite (IHp j).
Qed.

Lemma first_jobs_inv_frame w st st' :
  at_ st' = at_ st -> rtc (pool_change w) (pool st) (pool st') ->
  first_jobs_inv fs a st -> first_jobs_inv fs a st'.
Proof.
  intros Hpc Hc. pose proof (targets_same _ _ _ Hc) as Ht.
  unfold first_jobs_inv. rewrite Hpc.
  destruct (at_ st); rewrite ?Ht; try done; intros Hp;
    apply (List.map_eq_nil target); by rewrite Ht, Hp.
Qed.

Lemma first_jobs_inv_poll st now ans :
  first_jobs_inv fs a st -> first_jobs_inv fs a (poll fs a now ans st).
Proof.
  intros HI. unfold first_jobs_inv in HI.
  assert (forall p j,
            submitted p = true -> submitted (at_ st) = true ->
            first_jobs_inv fs a (goto p (add_done_callback j st))) as Hcb.
  { intros p j Hp Hst. unfold first_jobs_inv. cbn [goto at_ pool].
    assert (List.map target (pool (add_done_callback j st))
            = List.map target (pool st)) as ->.
    { destruct (add_done_callback_change j st) as [->|Hc]; [done|].
      by apply (targets_same ByPoll), rtc_once. }
    destruct (at_ st); try done; by destruct p. }
  unfold poll.
  destruct (at_ st) as [| |todo acc|todo| | | |todo|k todo| |n|e| | |e] eqn:Hpc.
  - done.
  - unfold _run_start.
    assert (sanitized fs a = (_sanitize_destinations fs (destinations a)).2)
      as Hs by done.
    destruct (_sanitize_destinations fs (destinations a)) as [ws [|d ds]];
      unfold first_jobs_inv; fields; rewrite HI, Hs; simpl;
      [by exists []|done].
  - destruct todo as [|d todo]; unfold first_jobs_inv; fields.
    + exists []. by rewrite <- HI, !app_nil_r.
    + by rewrite List.map_app, <- (assoc_L (++)).
  - destruct todo as [|j todo]; [done|]. by apply Hcb; rewrite ?Hpc.
  - unfold is_running. by destruct (_running st).
  - unfold first_jobs_inv. fields. by case_match; fields.
  - unfold first_jobs_inv. fields. by destruct (PrimFloat.leb _ _).
  - destruct todo as [|d todo]; [done|].
    unfold _run_for. destruct ans as [|[|]|n|c|e']; try done;
      try (unfold first_jobs_inv; by rewrite Hpc).
    fields. destruct (getitem d (futures st)) as [j|]; [|done].
    destruct (done (state_of j _)); [|done].
    unfold first_jobs_inv. fields. destruct HI as [later Hl].
    exists (later ++ [d]). by rewrite List.map_app, Hl, (assoc_L (++)).
  - by apply Hcb; rewrite ?Hpc.
  - unfold _run_delete.
    repeat case_match; unfold first_jobs_inv; fields; try done;
      by rewrite Hpc.
  - unfold is_running. destruct n; [done|]. by destruct (_running st).
  - repeat case_match; unfold first_jobs_inv; fields; try done;
      by rewrite Hpc.
  - destruct ans; unfold first_jobs_inv; fields; try done; by rewrite Hpc.
  - done.
  - unfold first_jobs_inv. by rewrite Hpc.
Qed.

Lemma first_jobs_inv_step st ev :
  first_jobs_inv fs a st -> first_jobs_inv fs a (step fs a st ev).
Proof.
  intros HI. destruct ev as [now ans|j|j r|]; cbn [step].
  - by apply first_jobs_inv_poll.
  - destruct (worker_start_change j st) as [->|(Hc & _)]; [done|].
    destruct (worker_start_frame j st) as (Hpc & _).
    apply (first_jobs_inv_frame ByWorker st); [done|by apply rtc_once|done].
  - destruct (worker_finish_change a j r st) as [->|(Hc & _)]; [done|].
    destruct (worker_finish_frame a j r st) as (Hpc & _).
    apply (first_jobs_inv_frame ByWorker st); [done|by apply rtc_once|done].
  - destruct (terminate_frame st) as (Hpc & _).
    apply (first_jobs_inv_frame ByTerminate st);
      [done|apply terminate_changes|done].
Qed.

(** X24: at least one robocopy job is queued for each destination that was
    kept, whether or not there is anything to copy: once the dict
    comprehension is complete, the jobs start with one job for each of
    these destinations, in their order. *)
Theorem one_job_for_each_destination (now : Q) (schedule : list event) :
  submitted (at_ (execute fs a now schedule)) = true ->
  exists later,
    List.map target (pool (execute fs a now schedule))
    = sanitized fs a ++ later.
Proof.
  intros Hpc.
  assert (first_jobs_inv fs a (execute fs a now schedule)) as HI.
  { apply execute_ind; [done|]. intros st ev _. apply first_jobs_inv_step. }
  unfold first_jobs_inv in HI.
  by destruct (at_ (execute fs a now schedule)).
Qed.

End Ending.

(** ** After the loop *)

Section AfterLoop.
Variables (fs : filesystem) (a : args).
Implicit Types (st : state) (ev : event) (j k : nat) (f : future).

(** X25: once the polling loop has been left without an exception and every
    job is done, [run] returns in three steps, whatever the counting
    helpers do: the summary is logged, the notifier is told that the run
    has finished, and the task is not running. A folder that cannot be
    counted costs an ERROR record, not the return. *)
Theorem run_returns_after_loop (st : state) (c : counters) (t1 t2 t3 : Q)
    (a1 a3 : answer) :
  at_ st = AtPoolExit None -> all_done st = true ->
  at_ (fold_left (step fs a)
                 [Poll t1 a1; Poll t2 (Counters c); Poll t3 a3] st)
  = Exited None
  /\ trace (fold_left (step fs a)
                      [Poll t1 a1; Poll t2 (Counters c); Poll t3 a3] st)
     = trace st ++ report_of a c st ++ [Finished]
  /\ is_running (fold_left (step fs a)
                           [Poll t1 a1; Poll t2 (Counters c); Poll t3 a3] st)
     = false
  /\ pool (fold_left (step fs a)
                     [Poll t1 a1; Poll t2 (Counters c); Poll t3 a3] st)
     = pool st.
Proof.
  intros Hpc Hd. cbn [fold_left step].
  assert (poll fs a t1 a1 st = goto AtReport st) as ->
    by (unfold poll; by rewrite Hpc, Hd).
  unfold poll. fields. unfold report_of. fields.
  by rewrite <- (assoc_L (++)).
Qed.




End AfterLoop.

(** ** Sample runs for the properties above *)

(** The two records of the sample output with two blocks. *)
Lemma parse_records_shape_witness :
  [mkInfo (u "5") (u "Copying File a.txt") (u "Access is denied. ");
   mkInfo (u "32") (u "Copying File b.txt")
          (u "The process cannot access the file.")] <> []
  /\ Forall record_ok
       [mkInfo (u "5") (u "Copying File a.txt") (u "Access is denied. ");
        mkInfo (u "32") (u "Copying File b.txt")
               (u "The process cannot access the file.")].
Proof.
  apply (parse_records_shape two_block_output). vm_compute. reflexivity.
Defined.

(** The message for the sample output with two blocks has three lines. *)
Lemma error_message_lines_witness :
  exists info rest,
    RobocopyError 16
      (Some [mkInfo (u "5") (u "Copying File a.txt")
                    (u "Access is denied. ");
             mkInfo (u "32") (u "Copying File b.txt")
                    (u "The process cannot access the file.")])
    = RobocopyError 16 info
    /\ RobocopyError.__str__ 16 info = message_head 16 ++ rest
    /\ lines (RobocopyError.__str__ 16 info)
       = match info with
         | None => 0%nat
         | Some infos => S (length infos)
         end.
Proof.
  apply (error_message_lines 16 two_block_output []). vm_compute.
  reflexivity.
Defined.

(** The folder E, which does not exist, is dropped with its warning. *)
Lemma sanitize_destinations_warns_dropped_witness :
  In (Log WARNING "Destination %s does not exist!" [AStr "E"])
     (_sanitize_destinations sample_fs (Many ["E"; "D"])).1.
Proof.
  apply (sanitize_destinations_warns_dropped sample_fs ["E"; "D"] "E").
  - intros x Hx. exact Hx.
  - left. reflexivity.
  - discriminate.
  - vm_compute. intros [H|[]]. discriminate H.
Defined.

(** The failed job of the sample run stays as it is when [terminate()] is
    called and a worker looks for work. *)
Lemma job_outcome_is_final_witness :
  exists f',
    pool (fold_left (step sample_fs (sample_args (One "D") false))
                    [Terminate; WorkerStart 0]
                    (execute sample_fs (sample_args (One "D") false) 0
                             failed_copy))
    !! 0%nat = Some f'
    /\ target f'
       = target (Future "D" (FINISHED (Raise (RobocopyError 16 None))) true)
    /\ (has_callback
          (Future "D" (FINISHED (Raise (RobocopyError 16 None))) true) = true
        -> has_callback f' = true)
    /\ (done (fst_ (Future "D" (FINISHED (Raise (RobocopyError 16 None)))
                           true)) = true ->
        fst_ f'
        = fst_ (Future "D" (FINISHED (Raise (RobocopyError 16 None))) true)).
Proof.
  apply (job_outcome_is_final sample_fs (sample_args (One "D") false)).
  vm_compute. reflexivity.
Defined.


(** The job for D has been queued and the dict comprehension has not been
    left: [terminate()] leaves the job in the queue. *)
Lemma terminate_during_startup_witness :
  futures (execute sample_fs (sample_args (One "D") false) 0 queueing) = []
  /\ pool (terminate
             (execute sample_fs (sample_args (One "D") false) 0 queueing))
     = pool (execute sample_fs (sample_args (One "D") false) 0 queueing).
Proof.
  apply (terminate_during_startup sample_fs (sample_args (One "D") false) 0
           queueing [] [("D", 0%nat)]).
  vm_compute. reflexivity.
Defined.

(** The job of the sample run fails with status 16, and the notifier is told
    once. *)
Lemma every_failure_is_notified_witness :
  (forall j f,
     pool (execute sample_fs (sample_args (One "D") false) 0 failed_copy)
     !! j = Some f ->
     has_callback f = true)
  /\ notified
       (trace (execute sample_fs (sample_args (One "D") false) 0 failed_copy))
     ≡ₚ omap (fun f => exception (fst_ f))
             (pool (execute sample_fs (sample_args (One "D") false) 0
                            failed_copy)).
Proof.
  apply (every_failure_is_notified sample_fs (sample_args (One "D") false)).
  - assert (sanitized sample_fs (sample_args (One "D") false) = ["D"]) as ->
      by (vm_compute; reflexivity).
    apply NoDup_singleton.
  - vm_compute. reflexivity.
Defined.

(** The sample run has returned; [terminate()] and further steps change
    nothing. *)
Lemma run_exit_is_final_witness :
  all_done (execute sample_fs (sample_args (One "D") false) 0 idle_run) = true
  /\ is_running (execute sample_fs (sample_args (One "D") false) 0 idle_run)
     = false
  /\ execute sample_fs (sample_args (One "D") false) 0
             (idle_run ++ [Terminate; Poll 10 Nothing; WorkerStart 0])
     = execute sample_fs (sample_args (One "D") false) 0 idle_run.
Proof.
  apply (run_exit_is_final sample_fs (sample_args (One "D") false) 0 idle_run
           _ None).
  vm_compute. reflexivity.
Defined.

(** The sample run does not delete. *)
Lemma nothing_deleted_unless_asked_witness :
  n_deleted (execute sample_fs (sample_args (One "D") false) 0 idle_run)
  = 0%Z
  /\ forall c n folder,
       ~ In (Log INFO "%d files were deleted from %s" [AInt n; AStr folder])
            (report_of (sample_args (One "D") false) c
               (execute sample_fs (sample_args (One "D") false) 0 idle_run)).
Proof.
  apply (nothing_deleted_unless_asked sample_fs
           (sample_args (One "D") false)).
  reflexivity.
Defined.

(** The job for D runs; a thousand seconds have passed since the last
    change, and the loop goes on. *)
Lemma running_job_keeps_alive_witness :
  at_ (poll sample_fs (sample_args (One "D") false) 1001 Nothing
         (poll sample_fs (sample_args (One "D") false) 1000 Nothing
            (execute sample_fs (sample_args (One "D") false) 0 copying)))
  = AtFor (dests (execute sample_fs (sample_args (One "D") false) 0 copying))
  /\ _time_at_last_change
       (poll sample_fs (sample_args (One "D") false) 1001 Nothing
          (poll sample_fs (sample_args (One "D") false) 1000 Nothing
             (execute sample_fs (sample_args (One "D") false) 0 copying)))
     = 1000%Q.
Proof.
  apply (running_job_keeps_alive sample_fs (sample_args (One "D") false)).
  - vm_compute. reflexivity.
  - vm_compute. reflexivity.
  - reflexivity.
Defined.

(** The polling thread of the sample run sleeps when [terminate()] is
    called. *)
Lemma terminate_ends_sleep_witness :
  at_ (fold_left (step sample_fs (sample_args (One "D") false))
                 [Terminate; Poll 2 Nothing; Poll 2 Nothing]
                 (execute sample_fs (sample_args (One "D") false) 0 sleeping))
  = AtPoolExit None
  /\ is_running
       (fold_left (step sample_fs (sample_args (One "D") false))
                  [Terminate; Poll 2 Nothing; Poll 2 Nothing]
                  (execute sample_fs (sample_args (One "D") false) 0 sleeping))
     = false
  /\ length
       (pool
          (fold_left (step sample_fs (sample_args (One "D") false))
                     [Terminate; Poll 2 Nothing; Poll 2 Nothing]
                     (execute sample_fs (sample_args (One "D") false) 0
                              sleeping)))
     = length
         (pool (execute sample_fs (sample_args (One "D") false) 0 sleeping)).
Proof.
  apply (terminate_ends_sleep sample_fs (sample_args (One "D") false) _
           1%nat).
  vm_compute. reflexivity.
Defined.

(** The sample run at its summary. *)
Lemma summary_after_jobs_witness :
  all_done (execute sample_fs (sample_args (One "D") false) 0 counting)
  = true.
Proof.
  apply (summary_after_jobs sample_fs (sample_args (One "D") false)).
  left. vm_compute. reflexivity.
Defined.

(** The jobs for D and E, in this order. *)
Lemma one_job_for_each_destination_witness :
  exists later,
    List.map target
             (pool (execute two_folders (sample_args (Many ["D"; "E"]) false)
                            0 one_running_one_queued))
    = sanitized two_folders (sample_args (Many ["D"; "E"]) false) ++ later.
Proof.
  apply (one_job_for_each_destination two_folders
           (sample_args (Many ["D"; "E"]) false)).
  vm_compute. reflexivity.
Defined.

(** The sample run returns although no folder can be counted. *)
Lemma run_returns_after_loop_witness :
  at_ (fold_left (step sample_fs (sample_args (One "D") false))
                 [Poll 8 Nothing; Poll 8 (Counters failing_counters);
                  Poll 9 Nothing]
                 (execute sample_fs (sample_args (One "D") false) 0 leaving))
  = Exited None
  /\ trace (fold_left (step sample_fs (sample_args (One "D") false))
                      [Poll 8 Nothing; Poll 8 (Counters failing_counters);
                       Poll 9 Nothing]
                      (execute sample_fs (sample_args (One "D") false) 0
                               leaving))
     = trace (execute sample_fs (sample_args (One "D") false) 0 leaving)
       ++ report_of (sample_args (One "D") false) failing_counters
            (execute sample_fs (sample_args (One "D") false) 0 leaving)
       ++ [Finished]
  /\ is_running
       (fold_left (step sample_fs (sample_args (One "D") false))
                  [Poll 8 Nothing; Poll 8 (Counters failing_counters);
                   Poll 9 Nothing]
                  (execute sample_fs (sample_args (One "D") false) 0 leaving))
     = false
  /\ pool (fold_left (step sample_fs (sample_args (One "D") false))
                     [Poll 8 Nothing; Poll 8 (Counters failing_counters);
                      Poll 9 Nothing]
                     (execute sample_fs (sample_args (One "D") false) 0
                              leaving))
     = pool (execute sample_fs (sample_args (One "D") false) 0 leaving).
Proof.
  apply (run_returns_after_loop sample_fs (sample_args (One "D") false)).
  - vm_compute. reflexivity.
  - vm_compute. reflexivity.
Defined.

